(** * update_layout.py: the layout literal replacer

    A shallow embedding of [src/update_layout.py]: the script reads one layout
    file, rebinds [content] five times with [re.sub], writes the text back and
    prints a confirmation.  The embedding has three layers:

    - the part of Python's [re] engine the five patterns use (literal
      characters, the categories [\d] and [\s], the set [[\s\S]], greedy and
      lazy repeats of a single-character atom, one capturing group), as a
      backtracking matcher, with [re.sub]'s loop and its replacement
      templates;
    - the five rules and [transform], their composition in source order;
    - the script itself, over an explicit file and standard output.

    The definitions come first: the embedding, then the vocabulary in which
    the properties are stated.  The properties follow: the matcher and the
    loop on the shapes the five patterns have, the two kinds of rules (those
    that scan lazily from an identifier to a literal, and those whose match
    is fixed by the characters it reads), what a rule can and cannot change
    around a token, and then the theorems on the rules, the transform and
    the script.  Further properties follow: which occurrences the scanning
    rules replace, what rules 2 and 5 leave behind, what the transform never
    touches, the runs of the script, and the transform as one pass over a
    layout of fillers and tokens.  The file ends with concrete runs and
    with the part the Unicode database plays. *)

From Stdlib Require Import String Ascii List NArith Bool Arith Lia.
Import ListNotations.

(** ** Text *)

(** A Python [str] is a sequence of code points. *)
Definition char := N.
Definition text := list char.

(** The code points of an ASCII literal of the source. *)
Definition chars (s : string) : text :=
  map N_of_ascii (list_ascii_of_string s).

(** The double quote, which the source writes inside its raw strings. *)
Definition dquote : char := 34%N.

(** [name="value"], the shape of every attribute the script names. *)
Definition attr (name value : string) : text :=
  chars name ++ chars "=" ++ [dquote] ++ chars value ++ [dquote].

(** ** Errors *)

Inductive error :=
| FileNotFoundError
| PermissionError
| UnicodeDecodeError
| ReError.                      (* re.error: invalid group reference *)

Inductive result (A : Type) :=
| Ok (a : A)
| Raise (e : error).
Arguments Ok {A} a.
Arguments Raise {A} e.

Definition bind {A B} (r : result A) (f : A -> result B) : result B :=
  match r with
  | Ok a => f a
  | Raise e => Raise e
  end.

Notation "x <- r ;; k" := (bind r (fun x => k))
  (at level 61, r at next level, right associativity).

(** ** The pattern language *)

Inductive category := Cat_digit | Cat_space.

(** An item of a bracketed set: a category or its complement ([\S]). *)
Inductive set_item :=
| In_category (k : category)
| Not_category (k : category).

(** Atoms match exactly one character. *)
Inductive atom :=
| Lit (c : char)
| Cat (k : category)
| Set_of (items : list set_item).

Inductive node :=
| One (a : atom)
| Max_repeat (lo : nat) (a : atom)     (* a{lo,}   greedy *)
| Min_repeat (lo : nat) (a : atom)     (* a{lo,}?  lazy   *)
| Group_open                           (* "(" of group 1  *)
| Group_close.                         (* ")" of group 1  *)

Definition pattern := list node.

(** A literal run of the pattern. *)
Definition lits (t : text) : pattern := map (fun c => One (Lit c)) t.

(** A match: its length and the span of group 1 (offsets from the start of
    the match), when the group took part. *)
Record match_result := {
  m_end : nat;
  m_group : option (nat * nat)
}.

(** Replacement templates: literal text and references to group 1. *)
Inductive template_item :=
| T_text (t : text)
| T_group1.

Definition template := list template_item.

Section Engine.

(** The interpreter's Unicode database above ASCII: which code points from
    128 on are decimal digits and which are white space.  The tables belong to
    the Python build, not to the script. *)
Variable uni_decimal : char -> bool.
Variable uni_space : char -> bool.

Definition is_digit (c : char) : bool :=
  if (c <? 128)%N then (48 <=? c)%N && (c <=? 57)%N else uni_decimal c.

Definition is_space (c : char) : bool :=
  if (c <? 128)%N
  then ((9 <=? c)%N && (c <=? 13)%N) || ((28 <=? c)%N && (c <=? 32)%N)
  else uni_space c.

Definition in_category (k : category) (c : char) : bool :=
  match k with
  | Cat_digit => is_digit c
  | Cat_space => is_space c
  end.

Definition item_ok (i : set_item) (c : char) : bool :=
  match i with
  | In_category k => in_category k c
  | Not_category k => negb (in_category k c)
  end.

Definition atom_ok (a : atom) (c : char) : bool :=
  match a with
  | Lit c' => (c =? c')%N
  | Cat k => in_category k c
  | Set_of items => existsb (fun i => item_ok i c) items
  end.

(** *** The backtracking matcher *)

(** What is left of the pattern after a repeat, as a function of the rest of
    the text and the offset reached. *)
Definition cont := text -> nat -> option match_result.

(** [a{lo,}]: take as many characters as match, then give them back one at a
    time until the rest of the pattern matches. *)
Fixpoint max_repeat (k : cont) (a : atom) (lo : nat) (s : text) (pos : nat)
  : option match_result :=
  match lo, s with
  | S lo', c :: s' =>
      if atom_ok a c then max_repeat k a lo' s' (S pos) else None
  | S _, [] => None
  | O, c :: s' =>
      if atom_ok a c
      then match max_repeat k a O s' (S pos) with
           | Some r => Some r
           | None => k s pos
           end
      else k s pos
  | O, [] => k s pos
  end.

(** [a{lo,}?]: take the fewest characters after which the rest matches. *)
Fixpoint min_repeat (k : cont) (a : atom) (lo : nat) (s : text) (pos : nat)
  : option match_result :=
  match lo, s with
  | S lo', c :: s' =>
      if atom_ok a c then min_repeat k a lo' s' (S pos) else None
  | S _, [] => None
  | O, c :: s' =>
      match k s pos with
      | Some r => Some r
      | None => if atom_ok a c then min_repeat k a O s' (S pos) else None
      end
  | O, [] => k s pos
  end.

(** [run adv p mark g s pos]: match [p] against [s], [pos] characters into
    the match; [mark] is where group 1 opened and [g] its span once closed.
    With [adv] an empty match is refused (the engine's [must_advance], set
    by [re.sub] after an empty match). *)
Fixpoint run (adv : bool) (p : pattern) (mark : nat) (g : option (nat * nat))
  : cont :=
  match p with
  | [] => fun _ pos =>
      if adv && (pos =? 0) then None
      else Some {| m_end := pos; m_group := g |}
  | One a :: p' => fun s pos =>
      match s with
      | c :: s' => if atom_ok a c then run adv p' mark g s' (S pos) else None
      | [] => None
      end
  | Max_repeat lo a :: p' => max_repeat (run adv p' mark g) a lo
  | Min_repeat lo a :: p' => min_repeat (run adv p' mark g) a lo
  | Group_open :: p' => fun s pos => run adv p' pos g s pos
  | Group_close :: p' => fun s pos => run adv p' mark (Some (mark, pos)) s pos
  end.

(** [pattern.match(s)] at the start of [s]. *)
Definition match_at (adv : bool) (p : pattern) (s : text) : option match_result :=
  run adv p 0 None s 0.

(** [pattern.search(s)]: the leftmost position where the pattern matches,
    with the match found there. *)
Fixpoint search (p : pattern) (s : text) : option (nat * match_result) :=
  match match_at false p s with
  | Some r => Some (0, r)
  | None =>
      match s with
      | [] => None
      | _ :: s' =>
          match search p s' with
          | Some (i, r) => Some (S i, r)
          | None => None
          end
      end
  end.

(** *** Replacement *)

Definition group_text (s : text) (r : match_result) : text :=
  match m_group r with
  | Some (b, e) => firstn (e - b) (skipn b s)
  | None => []
  end.

Definition expand_item (s : text) (r : match_result) (i : template_item) : text :=
  match i with
  | T_text t => t
  | T_group1 => group_text s r
  end.

(** The replacement for the match [r] found at the start of [s]. *)
Definition expand (t : template) (s : text) (r : match_result) : text :=
  flat_map (expand_item s r) t.

(** [re.sub]'s loop with [count=0]: every non-overlapping match, leftmost
    first, is replaced; text between matches is copied.  [skip] counts the
    characters of the current match still to be passed over.  After an empty
    match the engine looks for a non-empty one at the same place before it
    moves on. *)
Fixpoint sub_loop (p : pattern) (t : template) (s : text) (skip : nat) : text :=
  match skip with
  | S n =>
      match s with
      | [] => []
      | _ :: s' => sub_loop p t s' n
      end
  | O =>
      match match_at false p s with
      | None =>
          match s with
          | [] => []
          | c :: s' => c :: sub_loop p t s' 0
          end
      | Some r =>
          expand t s r ++
          match s with
          | [] => []
          | c :: s' =>
              match m_end r with
              | S n => sub_loop p t s' n
              | O =>
                  match match_at true p s with
                  | Some r' => expand t s r' ++ sub_loop p t s' (pred (m_end r'))
                  | None => c :: sub_loop p t s' 0
                  end
              end
          end
      end
  end.

Definition has_group (p : pattern) : bool :=
  existsb (fun n => match n with Group_open => true | _ => false end) p.

Definition uses_group (t : template) : bool :=
  existsb (fun i => match i with T_group1 => true | _ => false end) t.

(** [re.sub(pattern, repl, string)].  The template is checked against the
    pattern before any matching: a reference to a group the pattern does not
    have raises [re.error]. *)
Definition re_sub (p : pattern) (t : template) (s : text) : result text :=
  if uses_group t && negb (has_group p) then Raise ReError
  else Ok (sub_loop p t s 0).

(** ** The five rules *)

(** [[\s\S]]: white space or not white space. *)
Definition any_char : atom :=
  Set_of [In_category Cat_space; Not_category Cat_space].

Definition digits : node := Max_repeat 1 (Cat Cat_digit).     (* \d+ *)
Definition spaces : node := Max_repeat 1 (Cat Cat_space).     (* \s+ *)
Definition lazy_any : node := Min_repeat 0 any_char.          (* [\s\S]*? *)

(** The literal prefix of a cell identifier, up to the row number. *)
Definition cell_prefix : text :=
  chars "android:id=" ++ [dquote] ++ chars "@+id/cell_".

Definition text_size_18 : text := attr "android:textSize" "18sp".
Definition text_size_16 : text := attr "android:textSize" "16sp".
Definition margin_2 : text := attr "android:layout_margin" "2dp".
Definition cell_2_2 : text := attr "android:id" "@+id/cell_2_2".
Definition action_button : text := attr "android:id" "@+id/actionButton".
Definition margin_start_32 : text := attr "android:layout_marginStart" "32dp".
Definition margin_end_32 : text := attr "android:layout_marginEnd" "32dp".
Definition margin_bottom_24 : text := attr "android:layout_marginBottom" "24dp".

Definition cell_text_size : text :=
  attr "android:textSize" "@dimen/bingo_cell_text_size".
Definition cell_margin : text :=
  attr "android:layout_margin" "@dimen/cell_margin".
Definition free_text_size : text :=
  attr "android:textSize" "@dimen/bingo_free_text_size".
Definition button_text_size : text :=
  attr "android:textSize" "@dimen/button_text_size".

(** The line break and indentation the fifth replacement writes between its
    attributes: a newline and eight spaces. *)
Definition newline_indent : text := [10%N] ++ chars "        ".

Definition button_margins : text :=
  attr "android:layout_marginStart" "@dimen/button_margin_horizontal"
  ++ newline_indent
  ++ attr "android:layout_marginEnd" "@dimen/button_margin_horizontal"
  ++ newline_indent
  ++ attr "android:layout_marginBottom" "@dimen/button_margin_bottom".

Inductive rule_id := Rule1 | Rule2 | Rule3 | Rule4 | Rule5.

(** The first argument of each [re.sub], lines 10, 17, 24, 31 and 37. *)
Definition rule_pattern (i : rule_id) : pattern :=
  match i with
  | Rule1 =>
      (* (android:id="@\+id/cell_\d+_\d+"[\s\S]*?)android:textSize="18sp" *)
      [Group_open] ++ lits cell_prefix ++ [digits] ++ lits (chars "_")
      ++ [digits] ++ lits [dquote] ++ [lazy_any; Group_close]
      ++ lits text_size_18
  | Rule2 =>
      (* android:layout_margin="2dp" *)
      lits margin_2
  | Rule3 =>
      (* (android:id="@\+id/cell_2_2"[\s\S]*?)android:textSize="16sp" *)
      [Group_open] ++ lits cell_2_2 ++ [lazy_any; Group_close]
      ++ lits text_size_16
  | Rule4 =>
      (* (android:id="@\+id/actionButton"[\s\S]*?)android:textSize="16sp" *)
      [Group_open] ++ lits action_button ++ [lazy_any; Group_close]
      ++ lits text_size_16
  | Rule5 =>
      (* android:layout_marginStart="32dp"\s+android:layout_marginEnd="32dp"
         \s+android:layout_marginBottom="24dp" *)
      lits margin_start_32 ++ [spaces] ++ lits margin_end_32 ++ [spaces]
      ++ lits margin_bottom_24
  end.

(** The second argument, lines 11, 18, 25, 32 and 38: [\1] is the group,
    [\n] a newline, everything else stands for itself. *)
Definition rule_repl (i : rule_id) : template :=
  match i with
  | Rule1 => [T_group1; T_text cell_text_size]
  | Rule2 => [T_text cell_margin]
  | Rule3 => [T_group1; T_text free_text_size]
  | Rule4 => [T_group1; T_text button_text_size]
  | Rule5 => [T_text button_margins]
  end.

(** One [content = re.sub(...)] statement of the script. *)
Definition apply_rule (i : rule_id) (content : text) : result text :=
  re_sub (rule_pattern i) (rule_repl i) content.

(** Lines 9 to 40: the five statements in order, each on the text the one
    before it produced. *)
Definition transform (content : text) : result text :=
  c1 <- apply_rule Rule1 content ;;
  c2 <- apply_rule Rule2 c1 ;;
  c3 <- apply_rule Rule3 c2 ;;
  c4 <- apply_rule Rule4 c3 ;;
  apply_rule Rule5 c4.

(** ** The script *)

(** The text layer of [open(path, mode, encoding='utf-8')]: decoding can
    fail, encoding what was decoded cannot. *)
Variable decode : list N -> option text.
Variable encode : text -> list N.

Record file := {
  f_data : list N;
  f_readable : bool;
  f_writable : bool
}.

(** What the script can touch: the file at its fixed path, absent or
    present, and what has been printed. *)
Record world := {
  layout_file : option file;
  stdout : list string
}.

(** A statement either completes or raises; the world is threaded through. *)
Definition io (A : Type) := world -> world * result A.

Definition io_bind {A B} (m : io A) (f : A -> io B) : io B :=
  fun w =>
    match m w with
    | (w', Ok a) => f a w'
    | (w', Raise e) => (w', Raise e)
    end.

Notation "x <~ m ;; k" := (io_bind m (fun x => k))
  (at level 61, m at next level, right associativity).

Definition lift {A} (r : result A) : io A := fun w => (w, r).

(** [with open(path, 'r', encoding='utf-8') as f: content = f.read()] *)
Definition read_layout : io text :=
  fun w =>
    match layout_file w with
    | None => (w, Raise FileNotFoundError)
    | Some f =>
        if f_readable f
        then match decode (f_data f) with
             | Some t => (w, Ok t)
             | None => (w, Raise UnicodeDecodeError)
             end
        else (w, Raise PermissionError)
    end.

(** [with open(path, 'w', encoding='utf-8') as f: f.write(content)] *)
Definition write_layout (content : text) : io unit :=
  fun w =>
    match layout_file w with
    | None =>
        ({| layout_file := Some {| f_data := encode content;
                                   f_readable := true; f_writable := true |};
            stdout := stdout w |}, Ok tt)
    | Some f =>
        if f_writable f
        then ({| layout_file := Some {| f_data := encode content;
                                        f_readable := f_readable f;
                                        f_writable := true |};
                 stdout := stdout w |}, Ok tt)
        else (w, Raise PermissionError)
    end.

Definition print (line : string) : io unit :=
  fun w => ({| layout_file := layout_file w; stdout := stdout w ++ [line] |}, Ok tt).

Definition confirmation : string := "Layout updated successfully!".

Definition main : io unit :=
  content <~ read_layout ;;
  content' <~ lift (transform content) ;;
  _ <~ write_layout content' ;;
  print confirmation.

(** * The vocabulary of the properties *)

(** ** Occurrences of a literal in a text *)

(** [strip l s]: what follows [l] when [s] starts with it. *)
Fixpoint strip (l s : text) : option text :=
  match l with
  | [] => Some s
  | a :: l' =>
      match s with
      | b :: s' => if (b =? a)%N then strip l' s' else None
      | [] => None
      end
  end.

(** [find l s]: where [l] first occurs in [s] ([str.find]). *)
Fixpoint find (l s : text) : option nat :=
  match strip l s with
  | Some _ => Some 0
  | None =>
      match s with
      | [] => None
      | _ :: s' => option_map S (find l s')
      end
  end.

(** [occurrences l s]: at how many positions of [s] the literal [l] starts. *)
Fixpoint occurrences (l s : text) : nat :=
  (match strip l s with Some _ => 1 | None => 0 end) +
  match s with
  | [] => 0
  | _ :: s' => occurrences l s'
  end.

(** [join sep segs]: the segments with [sep] between them ([sep.join]). *)
Fixpoint join (sep : text) (segs : list text) : text :=
  match segs with
  | [] => []
  | [seg] => seg
  | seg :: segs' => seg ++ sep ++ join sep segs'
  end.

(** [agree u v]: [u] and [v] coincide as far as both go, so that one could
    lie over the other in a text. *)
Fixpoint agree (u v : text) : bool :=
  match u, v with
  | a :: u', b :: v' => (a =? b)%N && agree u' v'
  | _, _ => true
  end.

(** [apart y x]: [y] cannot start at any offset of an occurrence of [x]. *)
Fixpoint apart (y x : text) : bool :=
  match x with
  | [] => true
  | _ :: x' => negb (agree y x) && apart y x'
  end.

(** [leading f s]: how many characters at the start of [s] satisfy [f]. *)
Fixpoint leading (f : char -> bool) (s : text) : nat :=
  match s with
  | c :: s' => if f c then S (leading f s') else 0
  | [] => 0
  end.

(** The text a rule leaves behind. *)
Definition rule_text (i : rule_id) (content : text) : text :=
  sub_loop (rule_pattern i) (rule_repl i) content 0.

(** ** Numbers, white space, identifiers and blocks *)

(** What [\d+] and [\s+] match. *)
Definition number (t : text) : Prop := t <> [] /\ forallb is_digit t = true.
Definition blank (w : text) : Prop := w <> [] /\ forallb is_space w = true.

(** [cp], a number, [u], a number, [q]. *)
Definition numbered_id (cp : text) (u q : char) (row col : text) : text :=
  cp ++ row ++ [u] ++ col ++ [q].

(** A cell identifier: [android:id="@+id/cell_<row>_<col>"]. *)
Definition cell_id (row col : text) : text :=
  numbered_id cell_prefix 95%N 34%N row col.

(** Three attributes with white space [w1] and [w2] between them. *)
Definition block (S0 E0 B0 : text) (w1 w2 : text) : text :=
  S0 ++ w1 ++ E0 ++ w2 ++ B0.

(** The button's three margins, as rule 5 looks for them. *)
Definition margin_block (w1 w2 : text) : text :=
  block margin_start_32 margin_end_32 margin_bottom_24 w1 w2.

(** ** What a rule may change *)

(** [edit redex Rm x x']: [x'] is [x] with some occurrences of texts in
    [redex] replaced by [Rm], and nothing else changed. *)
Inductive edit (redex : text -> Prop) (Rm : text) : text -> text -> Prop :=
| edit_nil : edit redex Rm [] []
| edit_keep (c : char) (x x' : text) :
    edit redex Rm x x' -> edit redex Rm (c :: x) (c :: x')
| edit_redex (l x x' : text) :
    redex l -> edit redex Rm x x' -> edit redex Rm (l ++ x) (Rm ++ x').

(** What each rule replaces, and with what. *)
Definition rule_redex (i : rule_id) (l : text) : Prop :=
  match i with
  | Rule1 => l = text_size_18
  | Rule2 => l = margin_2
  | Rule3 | Rule4 => l = text_size_16
  | Rule5 => exists w1 w2, blank w1 /\ blank w2 /\ l = margin_block w1 w2
  end.

Definition rule_literal (i : rule_id) : text :=
  match i with
  | Rule1 => cell_text_size
  | Rule2 => cell_margin
  | Rule3 => free_text_size
  | Rule4 => button_text_size
  | Rule5 => button_margins
  end.

(** [x'] is [x] after some replacements of rule [i]. *)
Definition rule_edit (i : rule_id) (x x' : text) : Prop :=
  edit (rule_redex i) (rule_literal i) x x'.

(** [x'] is [x] after some replacements of rules 1, 2 and 5, in this order:
    the rules that do not look for a [16sp] text size. *)
Definition edited (x x' : text) : Prop :=
  exists x1 x2, rule_edit Rule1 x x1 /\ rule_edit Rule2 x1 x2 /\ rule_edit Rule5 x2 x'.

(** What rule 4 does to the text after an [actionButton] identifier that has
    no [16sp] text size yet: the first one there is replaced, and the rule
    starts afresh behind it. *)
Definition button_armed (y : text) : text :=
  match find text_size_16 y with
  | Some m =>
      firstn m y ++ button_text_size
      ++ rule_text Rule4 (skipn (m + length text_size_16) y)
  | None => y
  end.

(** ** Outcomes of the script *)

Definition io_error (e : error) : bool :=
  match e with
  | FileNotFoundError | PermissionError | UnicodeDecodeError => true
  | ReError => false
  end.

(** The file the script could not use: absent, or lacking a permission. *)
Definition unusable (w : world) : Prop :=
  match layout_file w with
  | None => True
  | Some f => f_readable f = false \/ f_writable f = false
  end.

(** ** The two shapes of the rules

    Rules 1, 3 and 4 have one shape: a group that holds an identifier and
    [[\s\S]*?], then a literal [L]; the replacement is the group followed
    by a literal [R].  [hd s] is the length of the identifier at the start of
    [s], when there is one.  [lazy_rule] says what the matcher does on such a
    pattern, and that identifiers and the literal do not overlap in a
    text. *)

Record lazy_rule (p : pattern) (hd : text -> option nat) (L : text) : Prop := {
  lz_match : forall s,
    match_at false p s =
    match hd s with
    | Some n =>
        match find L (skipn n s) with
        | Some m => Some {| m_end := n + m + length L; m_group := Some (0, n + m) |}
        | None => None
        end
    | None => None
    end;
  lz_nonempty : L <> [];
  lz_bound : forall s n, hd s = Some n -> 0 < n <= length s;
  lz_local : forall a b n, hd (a ++ b) = Some n -> n <= length a -> hd a = Some n;
  lz_extend : forall a b n, hd a = Some n -> hd (a ++ b) = Some n;
  lz_L_hd : forall s n o, hd s = Some n -> o < n -> strip L (skipn o s) = None;
  lz_hd_L : forall s r o,
    strip L s = Some r -> 0 < o < length L -> hd (skipn o s) = None;
  lz_hd_hd : forall s n o, hd s = Some n -> 0 < o < n -> hd (skipn o s) = None;
  lz_L_L : forall s r o,
    strip L s = Some r -> 0 < o < length L -> strip L (skipn o s) = None
}.

Definition lazy_sub (p : pattern) (R : text) (s : text) : text :=
  sub_loop p [T_group1; T_text R] s 0.

(** Rules 2 and 5 have no lazy part: whether the pattern matches at the start
    of a text, and how far, is decided by the characters matched; the
    replacement is a literal.  [len s] is the length of the match at the start
    of [s]. *)

Record fixed_rule (p : pattern) (len : text -> option nat) : Prop := {
  fx_match : forall s,
    match_at false p s =
    match len s with
    | Some n => Some {| m_end := n; m_group := None |}
    | None => None
    end;
  fx_bound : forall s n, len s = Some n -> 0 < n <= length s;
  fx_local : forall a b n, len (a ++ b) = Some n -> n <= length a -> len a = Some n;
  fx_extend : forall a b n, len a = Some n -> len (a ++ b) = Some n
}.

Definition fixed_sub (p : pattern) (Rm : text) (s : text) : text :=
  sub_loop p [T_text Rm] s 0.

(** The identifier of rules 3 and 4, and the pattern of rule 2, is a
    literal. *)
Definition literal_id_pattern (ID L : text) : pattern :=
  [Group_open] ++ lits ID ++ [lazy_any; Group_close] ++ lits L.

Definition literal_id (ID : text) (s : text) : option nat :=
  match strip ID s with
  | Some _ => Some (length ID)
  | None => None
  end.

(** The identifier of rule 1 carries two numbers. *)
Definition numbered_id_pattern (cp : text) (u q : char) (L : text) : pattern :=
  [Group_open] ++ lits cp ++ [digits] ++ lits [u] ++ [digits] ++ lits [q]
  ++ [lazy_any; Group_close] ++ lits L.

(** The length of the identifier at the start of [s]. *)
Definition numbered_id_len (cp : text) (u q : char) (s : text) : option nat :=
  match strip cp s with
  | Some s1 =>
      let n1 := leading is_digit s1 in
      if 1 <=? n1 then
        match strip [u] (skipn n1 s1) with
        | Some s2 =>
            let n2 := leading is_digit s2 in
            if 1 <=? n2 then
              match strip [q] (skipn n2 s2) with
              | Some _ => Some (length cp + n1 + 1 + n2 + 1)
              | None => None
              end
            else None
        | None => None
        end
      else None
  | None => None
  end.

Definition cell_id_len : text -> option nat :=
  numbered_id_len cell_prefix 95%N 34%N.

(** The pattern of rule 5: three literals with white space between them. *)
Definition block_pattern (S0 E0 B0 : text) : pattern :=
  lits S0 ++ [spaces] ++ lits E0 ++ [spaces] ++ lits B0.

(** The length of the block at the start of [s]. *)
Definition block_len (S0 E0 B0 : text) (s : text) : option nat :=
  match strip S0 s with
  | Some s1 =>
      let n1 := leading is_space s1 in
      if 1 <=? n1 then
        match strip E0 (skipn n1 s1) with
        | Some s2 =>
            let n2 := leading is_space s2 in
            if 1 <=? n2 then
              match strip B0 (skipn n2 s2) with
              | Some _ => Some (length S0 + n1 + length E0 + n2 + length B0)
              | None => None
              end
            else None
        | None => None
        end
      else None
  | None => None
  end.

Definition margin_block_len : text -> option nat :=
  block_len margin_start_32 margin_end_32 margin_bottom_24.

(** ** Tokens that a rule leaves alone *)

(** [clear_of K x]: the literal [K] starts at no offset of [x], whatever
    follows [x]. *)
Definition clear_of (K x : text) : Prop :=
  forall o z, o < length x -> strip K (skipn o x ++ z) = None.

(** A token is inert for a rule when it overlaps neither what the rule
    replaces nor what the rule writes. *)
Definition inert (i : rule_id) (K : text) : Prop :=
  K <> [] /\
  (forall l, rule_redex i l -> clear_of K l /\ clear_of l K) /\
  clear_of K (rule_literal i) /\ clear_of (rule_literal i) K.

(** ** Segments between two occurrences of a literal *)

(** [has_id hd x]: an identifier starts at some place of [x]. *)
Fixpoint has_id (hd : text -> option nat) (x : text) : bool :=
  match hd x with
  | Some _ => true
  | None =>
      match x with
      | [] => false
      | _ :: x' => has_id hd x'
      end
  end.

(** [occurs l x]: the literal [l] occurs in [x] ([l in x]). *)
Definition occurs (l x : text) : bool :=
  match find l x with
  | Some _ => true
  | None => false
  end.

(** [mark_join anchored L R segs]: the segments in order, each but the last
    followed by [R] when it is anchored and by [L] when it is not. *)
Fixpoint mark_join (anchored : text -> bool) (L R : text) (segs : list text)
  : text :=
  match segs with
  | [] => []
  | [seg] => seg
  | seg :: segs' =>
      seg ++ (if anchored seg then R else L) ++ mark_join anchored L R segs'
  end.

(** ** A grid of cells *)

(** A cell of the grid, as the layout writes it: its identifier, what stands
    between the identifier and the text size, and what follows the text size
    up to the next cell. *)
Record cell := {
  c_row : text;
  c_col : text;
  c_mid : text;
  c_rest : text
}.

Definition cell_text (size : text) (c : cell) : text :=
  cell_id (c_row c) (c_col c) ++ c_mid c ++ size ++ c_rest c.

Definition grid (size : text) (cells : list cell) : text :=
  flat_map (cell_text size) cells.

(** A cell that has its own text size: none stands before it in the cell,
    and no other identifier starts in what follows it. *)
Definition own_size (c : cell) : Prop :=
  number (c_row c) /\ number (c_col c) /\
  find text_size_18 (c_mid c) = None /\
  find cell_prefix (c_rest c) = None.

(** ** Rules with nothing to do *)

(** A rule is dormant on a text that lacks a literal its pattern needs. *)
Definition dormant (i : rule_id) (c : text) : Prop :=
  match i with
  | Rule1 => find text_size_18 c = None \/ find cell_prefix c = None
  | Rule2 => find margin_2 c = None
  | Rule3 => find text_size_16 c = None \/ find cell_2_2 c = None
  | Rule4 => find text_size_16 c = None \/ find action_button c = None
  | Rule5 =>
      find margin_start_32 c = None \/ find margin_end_32 c = None \/
      find margin_bottom_24 c = None
  end.

(** ** Tokens foreign to the rules *)

(** The literals the five rules read and write. *)
Definition rule_literals : list text :=
  [text_size_18; cell_text_size; margin_2; cell_margin; text_size_16;
   free_text_size; button_text_size; margin_start_32; margin_end_32;
   margin_bottom_24; button_margins].

(** [foreign K]: the token [K] starts with something other than white space
    and can overlap none of the rules' literals, on either side. *)
Definition foreign (K : text) : bool :=
  match K with
  | [] => false
  | k0 :: _ =>
      negb (is_space k0)
      && forallb (fun l => apart K l && apart l K) rule_literals
  end.

(** ** A run of the script that completes *)

(** The world after a completed run on the file [f], which held [content']
    once transformed. *)
Definition updated (w : world) (f : file) (content' : text) : world :=
  {| layout_file := Some {| f_data := encode content';
                            f_readable := f_readable f;
                            f_writable := true |};
     stdout := stdout w ++ [confirmation] |}.

(** ** Rules 3 and 4 on the same text sizes *)

(** What rules 3 and 4, one after the other, leave of a text cut at its
    [16sp] text sizes.  After a segment with the free cell's identifier
    comes the free cell's reference; after another segment comes the
    button's reference when the button's identifier stands in it or is
    [pending], and [16sp] when not.  The button's identifier is pending when
    it has been passed and every text size since went to the free cell. *)
Fixpoint size_16_join (pending : bool) (segs : list text) : text :=
  match segs with
  | [] => []
  | [seg] => seg
  | seg :: segs' =>
      if occurs cell_2_2 seg
      then seg ++ free_text_size
           ++ size_16_join (pending || occurs action_button seg) segs'
      else seg
           ++ (if pending || occurs action_button seg
               then button_text_size else text_size_16)
           ++ size_16_join false segs'
  end.

(** A text after which a [16sp] text size or an [actionButton] identifier
    starts only in what follows. *)
Definition clean (a : text) : Prop :=
  (forall v, find text_size_16 v = None -> find text_size_16 (a ++ v) = None) /\
  (forall v, occurs action_button (a ++ v) =
             occurs action_button a || occurs action_button v).

(** ** A layout as fillers and tokens *)

(** The texts the script names, as they stand in a layout. *)
Inductive token :=
| Cell (row col : text)          (* android:id="@+id/cell_<row>_<col>" *)
| Button                         (* android:id="@+id/actionButton" *)
| Size_18                        (* android:textSize="18sp" *)
| Size_16                        (* android:textSize="16sp" *)
| Margin_2                       (* android:layout_margin="2dp" *)
| Block (w1 w2 : text)           (* the three margins of rule 5 *)
| Ref (i : rule_id).             (* what rule [i] writes *)

Definition token_text (t : token) : text :=
  match t with
  | Cell row col => cell_id row col
  | Button => action_button
  | Size_18 => text_size_18
  | Size_16 => text_size_16
  | Margin_2 => margin_2
  | Block w1 w2 => margin_block w1 w2
  | Ref i => rule_literal i
  end.

(** A token with the filler that stands before it. *)
Record item := {
  before : text;
  what : token
}.

Definition item_text (it : item) : text := before it ++ token_text (what it).

(** The layout: the items in order, then the filler after the last token. *)
Definition document (items : list item) (rest : text) : text :=
  flat_map item_text items ++ rest.

(** The literals with which a pattern starts or that it looks for. *)
Definition stems : list text :=
  [cell_prefix; action_button; text_size_18; text_size_16; margin_2;
   margin_start_32].

(** A filler has none of them. *)
Definition plain (q : text) : Prop := Forall (fun K => find K q = None) stems.

Definition token_wf (t : token) : Prop :=
  match t with
  | Cell row col => number row /\ number col
  | Block w1 w2 => blank w1 /\ blank w2
  | _ => True
  end.

Definition item_wf (it : item) : Prop := plain (before it) /\ token_wf (what it).

(** The free cell is the cell of row 2 and column 2. *)
Definition is_two (t : text) : bool :=
  match t with
  | [d] => (d =? 50)%N
  | _ => false
  end.

Definition free (row col : text) : bool := is_two row && is_two col.

(** The five rules as one pass over the items, from left to right.  [cell]:
    a cell identifier has been passed since the last [18sp] text size;
    [free_cell], [button]: the free cell's, the button's identifier has been
    passed and no [16sp] text size has been taken for it yet. *)
Fixpoint convert (cell free_cell button : bool) (items : list item)
  : list item :=
  match items with
  | [] => []
  | it :: rest =>
      let put t := {| before := before it; what := t |} in
      match what it with
      | Cell row col =>
          it :: convert true (free_cell || free row col) button rest
      | Button => it :: convert cell free_cell true rest
      | Size_18 =>
          (if cell then put (Ref Rule1) else it)
          :: convert false free_cell button rest
      | Size_16 =>
          if free_cell
          then put (Ref Rule3) :: convert cell false button rest
          else (if button then put (Ref Rule4) else it)
               :: convert cell false false rest
      | Margin_2 => put (Ref Rule2) :: convert cell free_cell button rest
      | Block _ _ => put (Ref Rule5) :: convert cell free_cell button rest
      | Ref _ => it :: convert cell free_cell button rest
      end
  end.

(** *** One rule over the items *)

(** What a token is to a rule that scans from an identifier to a literal. *)
Inductive role := Other | Ident | Trigger.

(** The scan of such a rule: the first trigger after an identifier is
    replaced by the token [Rt]. *)
Fixpoint scan (role_of : token -> role) (Rt : token) (armed : bool)
  (items : list item) : list item :=
  match items with
  | [] => []
  | it :: rest =>
      match role_of (what it) with
      | Other => it :: scan role_of Rt armed rest
      | Ident => it :: scan role_of Rt true rest
      | Trigger =>
          (if armed then {| before := before it; what := Rt |} else it)
          :: scan role_of Rt false rest
      end
  end.

(** A rule that replaces every token it hits. *)
Definition swap (is_hit : token -> bool) (Rt : token) (items : list item)
  : list item :=
  map (fun it => if is_hit (what it)
                 then {| before := before it; what := Rt |} else it) items.

Definition role1 (t : token) : role :=
  match t with
  | Cell _ _ => Ident
  | Size_18 => Trigger
  | _ => Other
  end.

Definition role3 (t : token) : role :=
  match t with
  | Cell row col => if free row col then Ident else Other
  | Size_16 => Trigger
  | _ => Other
  end.

Definition role4 (t : token) : role :=
  match t with
  | Button => Ident
  | Size_16 => Trigger
  | _ => Other
  end.

Definition hit2 (t : token) : bool :=
  match t with Margin_2 => true | _ => false end.

Definition hit5 (t : token) : bool :=
  match t with Block _ _ => true | _ => false end.

(** No identifier starts in [x], whatever follows. *)
Definition hd_clear (hd : text -> option nat) (x : text) : Prop :=
  forall o z, o < length x -> hd (skipn o x ++ z) = None.

(** What a scanning rule needs to know of an item. *)
Definition scan_ok (hd : text -> option nat) (L : text)
  (role_of : token -> role) (it : item) : Prop :=
  match role_of (what it) with
  | Other => clear_of L (item_text it) /\ hd_clear hd (item_text it)
  | Ident => clear_of L (item_text it) /\ has_id hd (item_text it) = true
  | Trigger =>
      token_text (what it) = L /\ find L (before it) = None /\
      forall o, hd (skipn o (before it)) = None
  end.

(** What a rule that replaces every match needs to know of an item. *)
Definition swap_ok (len : text -> option nat) (is_hit : token -> bool)
  (it : item) : Prop :=
  if is_hit (what it)
  then (forall z, len (token_text (what it) ++ z)
                  = Some (length (token_text (what it)))) /\
       (forall o z, o < length (before it) ->
                    len (skipn o (item_text it ++ z)) = None)
  else forall o z, o < length (item_text it) ->
                   len (skipn o (item_text it ++ z)) = None.

(** The literal with which a token starts. *)
Definition head (t : token) : text :=
  match t with
  | Cell _ _ => cell_prefix
  | Block _ _ => margin_start_32
  | _ => token_text t
  end.

(** The literals whose places in a layout the rules depend on. *)
Definition sought : list text := cell_2_2 :: stems.

(** * Properties *)

(** ** Literals, prefixes and first occurrences *)

Lemma strip_app (l s : text) : strip l (l ++ s) = Some s.
Proof.
  induction l as [|a l IH]; simpl; [reflexivity|].
  now rewrite N.eqb_refl.
Qed.

Lemma strip_Some (l s s' : text) : strip l s = Some s' -> s = l ++ s'.
Proof.
  revert s. induction l as [|a l IH]; intros s; simpl.
  - congruence.
  - destruct s as [|b s]; [discriminate|].
    destruct (N.eqb_spec b a); [|discriminate].
    intros H. apply IH in H. subst. reflexivity.
Qed.

Lemma strip_length (l s s' : text) :
  strip l s = Some s' -> length s = length l + length s'.
Proof. intros H. apply strip_Some in H. subst. apply length_app. Qed.

Lemma strip_skipn (l s s' : text) :
  strip l s = Some s' -> s' = skipn (length l) s.
Proof.
  intros H. apply strip_Some in H. subst.
  now rewrite skipn_app, skipn_all, Nat.sub_diag.
Qed.

(** Whether [l] starts [s] is decided within the first [length l]
    characters. *)
Lemma strip_app_Some (l a b : text) (r : text) :
  strip l a = Some r -> strip l (a ++ b) = Some (r ++ b).
Proof.
  intros H. apply strip_Some in H. subst. rewrite <- app_assoc. apply strip_app.
Qed.

Lemma strip_None_app (l a b : text) :
  strip l a = None -> length l <= length a -> strip l (a ++ b) = None.
Proof.
  revert a. induction l as [|x l IH]; intros a; simpl; [discriminate|].
  destruct a as [|y a]; simpl; [lia|].
  destruct (y =? x)%N; [|reflexivity].
  intros H Hl. apply IH; [assumption|lia].
Qed.

Lemma find_bound (l s : text) (n : nat) :
  find l s = Some n -> n + length l <= length s.
Proof.
  revert n. induction s as [|c s IH]; intros n; simpl.
  - destruct (strip l []) eqn:E; [|discriminate].
    intros H; inversion H; subst. apply strip_length in E. simpl in *. lia.
  - destruct (strip l (c :: s)) eqn:E.
    + intros H; inversion H; subst. apply strip_length in E. simpl in *. lia.
    + destruct (find l s) as [m|]; [|discriminate].
      intros H; inversion H; subst. specialize (IH m eq_refl). simpl. lia.
Qed.

Lemma find_occurs (l s : text) (n : nat) :
  find l s = Some n -> exists r, strip l (skipn n s) = Some r.
Proof.
  revert n. induction s as [|c s IH]; intros n; simpl.
  - destruct (strip l []) eqn:E; [|discriminate].
    intros H; inversion H; subst. simpl. eauto.
  - destruct (strip l (c :: s)) eqn:E.
    + intros H; inversion H; subst. simpl. eauto.
    + destruct (find l s) as [m|]; [|discriminate].
      intros H; inversion H; subst. simpl. now apply IH.
Qed.

Lemma find_first (l s : text) (n o : nat) :
  find l s = Some n -> o < n -> strip l (skipn o s) = None.
Proof.
  revert n o. induction s as [|c s IH]; intros n o; simpl.
  - destruct (strip l []); [|discriminate].
    intros H; inversion H; lia.
  - destruct (strip l (c :: s)) eqn:E.
    + intros H; inversion H; lia.
    + destruct (find l s) as [m|]; [|discriminate].
      intros H Ho; inversion H; subst.
      destruct o as [|o]; simpl; [assumption|].
      eapply IH; eauto. lia.
Qed.

Lemma find_none (l s : text) (o : nat) :
  find l s = None -> strip l (skipn o s) = None.
Proof.
  revert o. induction s as [|c s IH]; intros o; simpl.
  - destruct (strip l []) eqn:E; [discriminate|].
    intros _. now destruct o.
  - destruct (strip l (c :: s)) eqn:E; [discriminate|].
    destruct (find l s) as [m|]; [discriminate|].
    intros _. destruct o as [|o]; simpl; [assumption|]. now apply IH.
Qed.

(** The first occurrence, given an occurrence and none before it. *)
Lemma find_intro (l s : text) (n : nat) (r : text) :
  strip l (skipn n s) = Some r ->
  (forall o, o < n -> strip l (skipn o s) = None) ->
  find l s = Some n.
Proof.
  revert s. induction n as [|n IH]; intros s Hn Hlt.
  - simpl in Hn. destruct s; simpl; simpl in Hn; now rewrite Hn.
  - destruct s as [|c s].
    + simpl in Hn. specialize (Hlt 0 (Nat.lt_0_succ _)). simpl in Hlt. congruence.
    + pose proof (Hlt 0 (Nat.lt_0_succ _)) as H0. simpl in H0.
      simpl. rewrite H0. simpl in Hn.
      rewrite (IH s Hn); [reflexivity|].
      intros o Ho. apply (Hlt (S o)). lia.
Qed.

Lemma find_none_intro (l s : text) :
  (forall o, strip l (skipn o s) = None) -> find l s = None.
Proof.
  induction s as [|c s IH]; intros H; pose proof (H 0) as H0;
    simpl in H0; simpl; rewrite H0.
  - reflexivity.
  - rewrite IH; [reflexivity|]. intros o. apply (H (S o)).
Qed.

Lemma find_skipn_none (l s : text) (k : nat) :
  find l s = None -> find l (skipn k s) = None.
Proof.
  intros H. apply find_none_intro. intros o. rewrite skipn_skipn.
  now apply find_none.
Qed.

Lemma skipn_app_le (n : nat) (a b : text) :
  n <= length a -> skipn n (a ++ b) = skipn n a ++ b.
Proof.
  intros H. rewrite skipn_app. replace (n - length a) with 0 by lia. reflexivity.
Qed.

Lemma skipn_app_ge (n : nat) (a b : text) :
  skipn (length a + n) (a ++ b) = skipn n b.
Proof.
  rewrite skipn_app, skipn_all2 by lia.
  replace (length a + n - length a) with n by lia. reflexivity.
Qed.

Lemma firstn_app_le (n : nat) (a b : text) :
  n <= length a -> firstn n (a ++ b) = firstn n a.
Proof.
  intros H. rewrite firstn_app. replace (n - length a) with 0 by lia.
  simpl. apply app_nil_r.
Qed.

Lemma strip_skipn_app (l a b : text) (o : nat) (r : text) :
  o <= length a ->
  strip l (skipn o a) = Some r -> strip l (skipn o (a ++ b)) = Some (r ++ b).
Proof.
  intros Ho H. rewrite skipn_app_le by assumption. now apply strip_app_Some.
Qed.

Lemma strip_skipn_app_inv (l a b : text) (o : nat) (r : text) :
  o + length l <= length a ->
  strip l (skipn o (a ++ b)) = Some r -> exists r', strip l (skipn o a) = Some r'.
Proof.
  intros Ho H. rewrite skipn_app_le in H by lia.
  destruct (strip l (skipn o a)) as [r'|] eqn:E; [eauto|].
  rewrite strip_None_app in H; [discriminate|assumption|].
  rewrite length_skipn. lia.
Qed.

Lemma find_exists (l s : text) (q : nat) (r : text) :
  strip l (skipn q s) = Some r -> exists m, find l s = Some m /\ m <= q.
Proof.
  intros H. destruct (find l s) as [m|] eqn:E.
  - exists m. split; [reflexivity|].
    destruct (Nat.le_gt_cases m q) as [Hle|Hgt]; [assumption|].
    rewrite (find_first _ _ _ _ E Hgt) in H. discriminate.
  - rewrite (find_none _ _ q E) in H. discriminate.
Qed.

Lemma find_app_l (l a b : text) (m : nat) :
  find l a = Some m -> find l (a ++ b) = Some m.
Proof.
  intros H. pose proof (find_bound _ _ _ H) as Hb.
  destruct (find_occurs _ _ _ H) as [r Hr].
  eapply find_intro.
  - apply strip_skipn_app; [lia|eassumption].
  - intros o Ho. destruct (strip l (skipn o (a ++ b))) as [r'|] eqn:E; [|reflexivity].
    apply strip_skipn_app_inv in E; [|lia]. destruct E as [r'' E].
    rewrite (find_first _ _ _ _ H Ho) in E. discriminate.
Qed.

Lemma find_app_local (l a b : text) (m : nat) :
  find l (a ++ b) = Some m -> m + length l <= length a -> find l a = Some m.
Proof.
  intros H Hm. destruct (find_occurs _ _ _ H) as [r Hr].
  apply strip_skipn_app_inv in Hr; [|assumption]. destruct Hr as [r' Hr].
  eapply find_intro; [eassumption|].
  intros o Ho. destruct (strip l (skipn o a)) as [r''|] eqn:E; [|reflexivity].
  eapply strip_skipn_app in E; [|lia].
  rewrite (find_first _ _ _ _ H Ho) in E. discriminate.
Qed.

Lemma skipn_app_all (a b : text) : skipn (length a) (a ++ b) = b.
Proof.
  rewrite skipn_app, skipn_all, Nat.sub_diag. reflexivity.
Qed.

(** ** Overlaps *)

(** Two literals that start at the same place of a text agree. *)
Lemma strip_agree (u v s : text) (r1 r2 : text) :
  strip u s = Some r1 -> strip v s = Some r2 -> agree u v = true.
Proof.
  revert v s. induction u as [|x u IH]; intros v s; simpl; [reflexivity|].
  destruct v as [|y v]; [reflexivity|]. simpl.
  destruct s as [|c s]; [discriminate|].
  destruct (N.eqb_spec c x); [|discriminate].
  destruct (N.eqb_spec c y); [|discriminate]. subst.
  rewrite N.eqb_refl. simpl. apply IH.
Qed.

Lemma apart_spec (y x : text) (o : nat) :
  apart y x = true -> o < length x -> agree y (skipn o x) = false.
Proof.
  revert o. induction x as [|c x IH]; intros o; simpl; [lia|].
  intros H Ho. apply andb_prop in H. destruct H as [H1 H2].
  destruct o as [|o]; simpl.
  - now apply negb_true_iff in H1.
  - apply IH; [assumption|lia].
Qed.

(** When [x] starts a text, [y] is apart from [x], and [o] is an offset inside
    [x], then [y] does not occur at [o]. *)
Lemma apart_strip (y x s : text) (o : nat) (r : text) :
  apart y x = true -> strip x s = Some r -> o < length x ->
  strip y (skipn o s) = None.
Proof.
  intros Ha Hx Ho. destruct (strip y (skipn o s)) as [r'|] eqn:E; [|reflexivity].
  exfalso. apply strip_Some in Hx. subst s.
  pose proof (apart_spec _ _ _ Ha Ho) as Hag.
  rewrite skipn_app in E.
  replace (o - length x) with 0 in E by lia. simpl in E.
  assert (strip (skipn o x) (skipn o x ++ r) = Some r) by apply strip_app.
  rewrite (strip_agree _ _ _ _ _ E H) in Hag. discriminate.
Qed.

(** ** The matcher on the shapes the rules use *)

Lemma run_lits adv (l : text) (p : pattern) mark g (s : text) pos :
  run adv (lits l ++ p) mark g s pos =
  match strip l s with
  | Some s' => run adv p mark g s' (pos + length l)
  | None => None
  end.
Proof.
  revert s pos. induction l as [|a l IH]; intros s pos; simpl.
  - now rewrite Nat.add_0_r.
  - destruct s as [|b s]; [reflexivity|].
    destruct (b =? a)%N; [|reflexivity].
    rewrite IH. destruct (strip l s); [|reflexivity]. f_equal. lia.
Qed.

Lemma run_lits_end adv (l : text) mark g (s : text) pos :
  l <> [] ->
  run adv (lits l) mark g s pos =
  match strip l s with
  | Some _ => Some {| m_end := pos + length l; m_group := g |}
  | None => None
  end.
Proof.
  intros Hl. rewrite <- (app_nil_r (lits l)), run_lits.
  destruct (strip l s); [|reflexivity]. simpl.
  destruct l as [|a l]; [congruence|]. simpl.
  rewrite Nat.add_succ_r. simpl. now rewrite andb_false_r.
Qed.

Lemma any_char_ok (c : char) : atom_ok any_char c = true.
Proof. simpl. destruct (is_space c); reflexivity. Qed.

(** [[\s\S]*?] before a closing parenthesis and a literal: the match runs to
    the first occurrence of the literal. *)
Lemma lazy_tail adv (l : text) mark g (s : text) pos :
  l <> [] ->
  run adv (lazy_any :: Group_close :: lits l) mark g s pos =
  match find l s with
  | Some n => Some {| m_end := pos + n + length l; m_group := Some (mark, pos + n) |}
  | None => None
  end.
Proof.
  intros Hl. cbn [run lazy_any]. revert pos.
  induction s as [|c s IH]; intros pos.
  - cbn [min_repeat find]. rewrite run_lits_end by assumption.
    destruct (strip l []); [|reflexivity]. now rewrite !Nat.add_0_r.
  - cbn [min_repeat find]. rewrite run_lits_end by assumption.
    destruct (strip l (c :: s)).
    + now rewrite !Nat.add_0_r.
    + rewrite any_char_ok, IH. destruct (find l s) as [n|]; [|reflexivity].
      simpl. do 2 f_equal; [lia|]. do 2 f_equal. lia.
Qed.

(** A greedy repeat before something that cannot start with a character of
    the repeated class: the repeat takes every leading character of the
    class, and giving any back cannot help. *)
Lemma max_repeat_delim (k : cont) (a : atom) (lo : nat) (s : text) pos :
  (forall c s' pos', atom_ok a c = true -> k (c :: s') pos' = None) ->
  max_repeat k a lo s pos =
  if lo <=? leading (atom_ok a) s
  then k (skipn (leading (atom_ok a) s) s) (pos + leading (atom_ok a) s)
  else None.
Proof.
  intros Hk. revert lo pos. induction s as [|c s IH]; intros lo pos.
  - destruct lo; simpl; [now rewrite Nat.add_0_r|reflexivity].
  - destruct lo as [|lo]; cbn [max_repeat leading].
    + destruct (atom_ok a c) eqn:Hc.
      * rewrite IH, (Hk c s pos Hc). cbn [Nat.leb skipn].
        rewrite Nat.add_succ_r. simpl. now destruct (k _ _).
      * cbn [Nat.leb skipn]. now rewrite Nat.add_0_r.
    + destruct (atom_ok a c) eqn:Hc.
      * rewrite IH. cbn [Nat.leb skipn]. rewrite Nat.add_succ_r. reflexivity.
      * reflexivity.
Qed.

(** ** The substitution loop, step by step *)

Lemma sub_loop_skip (p : pattern) (t : template) (s : text) (n : nat) :
  n <= length s -> sub_loop p t s n = sub_loop p t (skipn n s) 0.
Proof.
  revert s. induction n as [|n IH]; intros s Hn; [reflexivity|].
  destruct s as [|c s]; simpl in Hn; [lia|].
  cbn [sub_loop skipn]. apply IH. lia.
Qed.

Lemma sub_loop_hit (p : pattern) (t : template) (s : text) r (k : nat) :
  match_at false p s = Some r -> m_end r = S k -> S k <= length s ->
  sub_loop p t s 0 = expand t s r ++ sub_loop p t (skipn (S k) s) 0.
Proof.
  intros Hm He Hl. destruct s as [|c s]; simpl in Hl; [lia|].
  cbn [sub_loop]. rewrite Hm, He. f_equal. cbn [skipn].
  apply sub_loop_skip. lia.
Qed.

Lemma sub_loop_miss (p : pattern) (t : template) (c : char) (s : text) :
  match_at false p (c :: s) = None ->
  sub_loop p t (c :: s) 0 = c :: sub_loop p t s 0.
Proof. intros Hm. cbn [sub_loop]. now rewrite Hm. Qed.

Lemma sub_loop_nil (p : pattern) (t : template) :
  match_at false p [] = None -> sub_loop p t [] 0 = [].
Proof. intros Hm. cbn [sub_loop]. now rewrite Hm. Qed.

(** ** Rules that scan lazily from an identifier to a literal *)

Section Lazy_rule.

Variable p : pattern.
Variable hd : text -> option nat.
Variables L R : text.
Hypothesis spec : lazy_rule p hd L.

Lemma match_lazy : forall s,
  match_at false p s =
  match hd s with
  | Some n =>
      match find L (skipn n s) with
      | Some m => Some {| m_end := n + m + length L; m_group := Some (0, n + m) |}
      | None => None
      end
  | None => None
  end.
Proof. apply spec. Qed.

Lemma L_nonempty : L <> [].
Proof. apply spec. Qed.

Lemma hd_bound : forall s n, hd s = Some n -> 0 < n <= length s.
Proof. apply spec. Qed.

Lemma hd_local :
  forall a b n, hd (a ++ b) = Some n -> n <= length a -> hd a = Some n.
Proof. apply spec. Qed.

Lemma hd_extend : forall a b n, hd a = Some n -> hd (a ++ b) = Some n.
Proof. apply spec. Qed.

Lemma L_not_in_hd :
  forall s n o, hd s = Some n -> o < n -> strip L (skipn o s) = None.
Proof. apply spec. Qed.

Lemma hd_not_in_L :
  forall s r o, strip L s = Some r -> 0 < o < length L -> hd (skipn o s) = None.
Proof. apply spec. Qed.

Lemma hd_not_in_hd :
  forall s n o, hd s = Some n -> 0 < o < n -> hd (skipn o s) = None.
Proof. apply spec. Qed.

Lemma L_border :
  forall s r o, strip L s = Some r -> 0 < o < length L ->
                strip L (skipn o s) = None.
Proof. apply spec. Qed.

Lemma L_length : 0 < length L.
Proof.
  pose proof L_nonempty as H. destruct L; [congruence|simpl; lia].
Qed.

Lemma lazy_nil : lazy_sub p R [] = [].
Proof.
  apply sub_loop_nil. rewrite match_lazy.
  destruct (hd []) as [n|] eqn:E; [|reflexivity].
  apply hd_bound in E. simpl in E. lia.
Qed.

Lemma lazy_hit (s : text) (n m : nat) :
  hd s = Some n -> find L (skipn n s) = Some m ->
  lazy_sub p R s = firstn (n + m) s ++ R ++ lazy_sub p R (skipn (n + m + length L) s).
Proof.
  intros Hh Hf. pose proof L_length as HL.
  pose proof (find_bound _ _ _ Hf) as Hb. rewrite length_skipn in Hb.
  pose proof (hd_bound _ _ Hh) as Hn.
  unfold lazy_sub.
  rewrite (sub_loop_hit p _ s
             {| m_end := n + m + length L; m_group := Some (0, n + m) |}
             (n + m + length L - 1)).
  - unfold expand, expand_item, group_text. cbn [flat_map m_group].
    replace (S (n + m + length L - 1)) with (n + m + length L) by lia.
    change (skipn 0 s) with s.
    now rewrite Nat.sub_0_r, app_nil_r, <- app_assoc.
  - rewrite match_lazy, Hh, Hf. reflexivity.
  - cbn [m_end]. lia.
  - lia.
Qed.

Lemma lazy_miss_hd (c : char) (s : text) :
  hd (c :: s) = None -> lazy_sub p R (c :: s) = c :: lazy_sub p R s.
Proof.
  intros H. apply sub_loop_miss. now rewrite match_lazy, H.
Qed.

Lemma lazy_miss_L (c : char) (s : text) (n : nat) :
  hd (c :: s) = Some n -> find L (skipn n (c :: s)) = None ->
  lazy_sub p R (c :: s) = c :: lazy_sub p R s.
Proof.
  intros H Hf. apply sub_loop_miss. now rewrite match_lazy, H, Hf.
Qed.

(** Without the literal nothing is replaced. *)
Lemma lazy_no_L (s : text) : find L s = None -> lazy_sub p R s = s.
Proof.
  induction s as [|c s IH]; intros Hf; [apply lazy_nil|].
  assert (Hs : find L s = None) by apply (find_skipn_none _ _ 1 Hf).
  destruct (hd (c :: s)) as [n|] eqn:Hh.
  - rewrite (lazy_miss_L _ _ _ Hh); [now rewrite IH|].
    now apply find_skipn_none.
  - rewrite lazy_miss_hd by assumption. now rewrite IH.
Qed.

(** Text in which no identifier starts is copied. *)
Lemma lazy_pass (z y : text) :
  (forall o, o < length z -> hd (skipn o (z ++ y)) = None) ->
  lazy_sub p R (z ++ y) = z ++ lazy_sub p R y.
Proof.
  induction z as [|c z IH]; intros H; [reflexivity|].
  simpl. rewrite lazy_miss_hd.
  - f_equal. apply IH. intros o Ho. apply (H (S o)). simpl. lia.
  - apply (H 0). simpl. lia.
Qed.

Lemma hd_at_L (y : text) : hd (L ++ y) = None.
Proof.
  destruct (hd (L ++ y)) as [n|] eqn:E; [|reflexivity].
  pose proof (hd_bound _ _ E) as Hn.
  assert (H0 : 0 < n) by lia.
  pose proof (L_not_in_hd _ _ 0 E H0) as H. simpl in H.
  rewrite strip_app in H. discriminate.
Qed.

Lemma lazy_pass_L (y : text) : lazy_sub p R (L ++ y) = L ++ lazy_sub p R y.
Proof.
  apply lazy_pass. intros o Ho. destruct o as [|o].
  - apply hd_at_L.
  - eapply hd_not_in_L; [apply strip_app|lia].
Qed.

Lemma lazy_L : lazy_sub p R L = L.
Proof.
  rewrite <- (app_nil_r L) at 1. rewrite lazy_pass_L, lazy_nil. apply app_nil_r.
Qed.

(** Nothing the rule does before the end of an occurrence of the literal
    depends on what follows it. *)
Lemma lazy_cut_aux (k : nat) :
  forall x y, length x = k ->
  lazy_sub p R (x ++ L ++ y) = lazy_sub p R (x ++ L) ++ lazy_sub p R y.
Proof.
  induction k as [k IH] using lt_wf_ind. intros x y Hk.
  destruct x as [|c x'].
  - simpl. now rewrite lazy_pass_L, lazy_L.
  - remember (c :: x') as x eqn:Ex.
    assert (Hx : 0 < length x) by (subst x; simpl; lia).
    pose proof L_length as HL.
    destruct (hd (x ++ L ++ y)) as [n|] eqn:Hh.
    + pose proof (hd_bound _ _ Hh) as Hn0.
      assert (Hn : n <= length x).
      { destruct (Nat.le_gt_cases n (length x)) as [H|H]; [assumption|].
        exfalso. pose proof (L_not_in_hd _ _ (length x) Hh H) as HH.
        rewrite skipn_app_all, strip_app in HH. discriminate. }
      assert (Hh0 : hd (x ++ L) = Some n).
      { apply (hd_local _ y); [now rewrite <- app_assoc|].
        rewrite length_app. lia. }
      assert (Hsk : skipn n (x ++ L ++ y) = skipn n x ++ L ++ y)
        by (apply skipn_app_le; lia).
      assert (Hsk0 : skipn n (x ++ L) = skipn n x ++ L)
        by (apply skipn_app_le; lia).
      assert (Ha : length (skipn n x) = length x - n) by apply length_skipn.
      destruct (find_exists L (skipn n x ++ L ++ y) (length (skipn n x)) y)
        as [m [Hf Hm]].
      { rewrite skipn_app_all. apply strip_app. }
      assert (Hcase : m = length (skipn n x) \/ m + length L <= length (skipn n x)).
      { destruct (Nat.eq_dec m (length (skipn n x))) as [e|ne]; [now left|right].
        destruct (Nat.le_gt_cases (m + length L) (length (skipn n x)))
          as [H|H]; [assumption|].
        exfalso. destruct (find_occurs _ _ _ Hf) as [r Hr].
        assert (Ho : 0 < length (skipn n x) - m < length L) by lia.
        pose proof (L_border _ _ _ Hr Ho) as HB.
        rewrite skipn_skipn in HB.
        replace (length (skipn n x) - m + m) with (length (skipn n x)) in HB by lia.
        rewrite skipn_app_all, strip_app in HB. discriminate. }
      assert (Hf0 : find L (skipn n x ++ L) = Some m).
      { apply (find_app_local _ _ y); [now rewrite <- app_assoc|].
        rewrite length_app. lia. }
      rewrite (lazy_hit _ n m Hh) by (now rewrite Hsk).
      rewrite (lazy_hit _ n m Hh0) by (now rewrite Hsk0).
      destruct Hcase as [Hm'|Hle].
      * replace (n + m) with (length x) by lia.
        rewrite !firstn_app_le, firstn_all by lia.
        rewrite !skipn_app_ge, skipn_app_all, skipn_all, lazy_nil.
        now rewrite app_nil_r, <- app_assoc.
      * rewrite !firstn_app_le by lia.
        rewrite !skipn_app_le by lia.
        rewrite (IH (length (skipn (n + m + length L) x)));
          [|rewrite length_skipn; lia|reflexivity].
        now rewrite <- !app_assoc.
    + assert (Hh0 : hd (x ++ L) = None).
      { destruct (hd (x ++ L)) as [n|] eqn:E; [|reflexivity].
        apply (hd_extend _ y) in E. rewrite <- app_assoc in E. congruence. }
      subst x. simpl in *.
      rewrite !lazy_miss_hd by assumption. simpl. f_equal.
      apply (IH (length x')); [lia|reflexivity].
Qed.

Lemma lazy_cut (x y : text) :
  lazy_sub p R (x ++ L ++ y) = lazy_sub p R (x ++ L) ++ lazy_sub p R y.
Proof. now apply (lazy_cut_aux (length x)). Qed.

(** The identifier [id], then [mid], then the first occurrence of the
    literal after [id]. *)
Lemma lazy_first_aux (k : nat) :
  forall pre id mid, length pre = k ->
  (forall z, hd (id ++ z) = Some (length id)) ->
  find L (mid ++ L) = Some (length mid) ->
  lazy_sub p R (pre ++ id ++ mid ++ L) = lazy_sub p R pre ++ id ++ mid ++ R.
Proof.
  induction k as [k IH] using lt_wf_ind. intros pre id mid Hk Hid Hmid.
  pose proof L_length as HL.
  destruct pre as [|c x'].
  - simpl. rewrite lazy_nil. simpl.
    rewrite (lazy_hit _ (length id) (length mid)).
    + rewrite (app_assoc id mid L), <- length_app.
      rewrite firstn_app_le, firstn_all by lia.
      rewrite skipn_app_ge, skipn_all, lazy_nil.
      now rewrite app_nil_r, <- app_assoc.
    + apply Hid.
    + now rewrite skipn_app_all.
  - remember (c :: x') as x eqn:Ex.
    assert (Hx : 0 < length x) by (subst x; simpl; lia).
    destruct (hd (x ++ id ++ mid ++ L)) as [n|] eqn:Hh.
    + pose proof (hd_bound _ _ Hh) as Hn0.
      assert (Hn : n <= length x).
      { destruct (Nat.le_gt_cases n (length x)) as [H|H]; [assumption|].
        exfalso. assert (Ho : 0 < length x < n) by lia.
        pose proof (hd_not_in_hd _ _ _ Hh Ho) as HH.
        rewrite skipn_app_all, Hid in HH. discriminate. }
      assert (Hh0 : hd x = Some n) by (now apply (hd_local _ (id ++ mid ++ L))).
      assert (Hsk : skipn n (x ++ id ++ mid ++ L) = skipn n x ++ id ++ mid ++ L)
        by (apply skipn_app_le; lia).
      assert (Ha : length (skipn n x) = length x - n) by apply length_skipn.
      set (a := skipn n x) in *.
      destruct (find_exists L (a ++ id ++ mid ++ L)
                  (length a + (length id + (length mid + 0))) [])
        as [m [Hf Hm]].
      { rewrite !skipn_app_ge. simpl. rewrite <- (app_nil_r L) at 2.
        apply strip_app. }
      destruct (Nat.le_gt_cases (m + length L) (length a)) as [Hle|Hgt].
      * assert (Hf0 : find L a = Some m)
          by (now apply (find_app_local _ _ (id ++ mid ++ L))).
        rewrite (lazy_hit _ n m Hh) by (now rewrite Hsk).
        rewrite (lazy_hit _ n m Hh0) by assumption.
        rewrite !firstn_app_le by lia.
        rewrite !skipn_app_le by lia.
        rewrite (IH (length (skipn (n + m + length L) x)) ltac:(rewrite length_skipn; lia)
                   _ id mid eq_refl Hid Hmid).
        now rewrite <- !app_assoc.
      * destruct (find_occurs _ _ _ Hf) as [r Hr].
        assert (Hm' : m = length a + (length id + length mid)).
        { destruct (Nat.eq_dec m (length a + (length id + length mid)))
            as [e|ne]; [assumption|exfalso].
          destruct (Nat.lt_ge_cases m (length a)) as [H1|H1].
          - assert (Ho : 0 < length a - m < length L) by lia.
            pose proof (hd_not_in_L _ _ _ Hr Ho) as HH.
            rewrite skipn_skipn in HH.
            replace (length a - m + m) with (length a) in HH by lia.
            rewrite skipn_app_all, Hid in HH. discriminate.
          - replace m with (length a + (m - length a)) in Hr by lia.
            rewrite skipn_app_ge in Hr.
            destruct (Nat.lt_ge_cases (m - length a) (length id)) as [H2|H2].
            + rewrite (L_not_in_hd _ _ _ (Hid (mid ++ L)) H2) in Hr. discriminate.
            + replace (m - length a) with (length id + (m - length a - length id))
                in Hr by lia.
              rewrite skipn_app_ge in Hr.
              rewrite (find_first _ _ _ _ Hmid) in Hr; [discriminate|lia]. }
        assert (Hx0 : find L x = None).
        { apply find_none_intro. intros o.
          destruct (Nat.lt_ge_cases o n) as [H1|H1];
            [now apply (L_not_in_hd _ _ _ Hh0)|].
          destruct (strip L (skipn o x)) as [r'|] eqn:E; [exfalso|reflexivity].
          replace o with ((o - n) + n) in E by lia.
          rewrite <- skipn_skipn in E. fold a in E.
          pose proof (strip_length _ _ _ E) as Hlen. rewrite length_skipn in Hlen.
          apply (strip_skipn_app _ _ (id ++ mid ++ L)) in E; [|lia].
          rewrite (find_first _ _ _ _ Hf) in E; [discriminate|lia]. }
        rewrite (lazy_no_L _ Hx0).
        rewrite (lazy_hit _ n m Hh) by (now rewrite Hsk).
        replace (n + m) with (length (x ++ id ++ mid))
          by (rewrite !length_app; lia).
        replace (x ++ id ++ mid ++ L) with ((x ++ id ++ mid) ++ L)
          by (now rewrite <- !app_assoc).
        rewrite firstn_app_le, firstn_all by lia.
        rewrite skipn_app_ge, skipn_all, lazy_nil.
        now rewrite app_nil_r, <- !app_assoc.
    + assert (Hh0 : hd x = None).
      { destruct (hd x) as [n|] eqn:E; [|reflexivity].
        apply (hd_extend _ (id ++ mid ++ L)) in E. congruence. }
      subst x. simpl in *.
      rewrite !lazy_miss_hd by assumption. simpl. f_equal.
      apply (IH (length x')); [lia|reflexivity|assumption|assumption].
Qed.

(** The characteristic equation of a lazy rule: in any text, the first
    occurrence of the literal after an identifier is replaced, what stands
    between the two is kept, and the rule goes on after it. *)
Lemma lazy_replace (pre id mid post : text) :
  (forall z, hd (id ++ z) = Some (length id)) ->
  find L (mid ++ L) = Some (length mid) ->
  lazy_sub p R (pre ++ id ++ mid ++ L ++ post) =
  lazy_sub p R pre ++ id ++ mid ++ R ++ lazy_sub p R post.
Proof.
  intros Hid Hmid.
  replace (pre ++ id ++ mid ++ L ++ post) with ((pre ++ id ++ mid) ++ L ++ post)
    by (now rewrite <- !app_assoc).
  rewrite lazy_cut. rewrite <- !app_assoc.
  rewrite (lazy_first_aux (length pre) pre id mid eq_refl Hid Hmid).
  now rewrite <- !app_assoc.
Qed.

(** Text without identifiers is kept up to and including an occurrence of
    the literal that follows it. *)
Lemma lazy_gap (gap y : text) :
  (forall o, hd (skipn o gap) = None) ->
  lazy_sub p R (gap ++ L ++ y) = gap ++ L ++ lazy_sub p R y.
Proof.
  intros Hgap. rewrite lazy_pass; [now rewrite lazy_pass_L|].
  intros o Ho. rewrite skipn_app_le by lia.
  destruct (hd (skipn o gap ++ L ++ y)) as [n|] eqn:E; [exfalso|reflexivity].
  destruct (Nat.le_gt_cases n (length (skipn o gap))) as [H|H].
  - apply hd_local in E; [|assumption]. rewrite Hgap in E. discriminate.
  - pose proof (L_not_in_hd _ _ _ E H) as HH.
    rewrite skipn_app_all, strip_app in HH. discriminate.
Qed.

(** The literal is first found right after text that does not contain it. *)
Lemma find_after (b : text) : find L b = None -> find L (b ++ L) = Some (length b).
Proof.
  intros Hb. pose proof L_length as HL. eapply find_intro.
  - rewrite skipn_app_all. rewrite <- (app_nil_r L) at 2. apply strip_app.
  - intros o Ho.
    destruct (strip L (skipn o (b ++ L))) as [r|] eqn:E; [exfalso|reflexivity].
    destruct (Nat.le_gt_cases (o + length L) (length b)) as [H|H].
    + apply strip_skipn_app_inv in E; [|assumption]. destruct E as [r' E].
      rewrite (find_none _ _ o Hb) in E. discriminate.
    + assert (Ho' : 0 < length b - o < length L) by lia.
      pose proof (L_border _ _ _ E Ho') as HB.
      rewrite skipn_skipn in HB.
      replace (length b - o + o) with (length b) in HB by lia.
      rewrite skipn_app_all in HB.
      rewrite <- (app_nil_r L) in HB at 2. rewrite strip_app in HB. discriminate.
Qed.

(** Text without identifiers is kept. *)
Lemma lazy_keep (x : text) :
  (forall o, hd (skipn o x) = None) -> lazy_sub p R x = x.
Proof.
  intros H. rewrite <- (app_nil_r x) at 1. rewrite lazy_pass.
  - now rewrite lazy_nil, app_nil_r.
  - intros o _. now rewrite app_nil_r.
Qed.

End Lazy_rule.

(** *** Rules 3 and 4: the identifier is a literal *)

Lemma apart_strip_tl (y x s : text) (o : nat) (r : text) :
  apart y (tl x) = true -> strip x s = Some r -> 0 < o < length x ->
  strip y (skipn o s) = None.
Proof.
  intros Ha Hx Ho. destruct x as [|c x]; simpl in Ho; [lia|].
  apply strip_Some in Hx. subst s. destruct o as [|o]; [lia|].
  simpl in *. apply (apart_strip y x (x ++ r) o r); [assumption|apply strip_app|lia].
Qed.

Lemma literal_id_rule (ID L : text) :
  ID <> [] -> L <> [] ->
  apart L ID = true -> apart ID (tl L) = true ->
  apart ID (tl ID) = true -> apart L (tl L) = true ->
  lazy_rule (literal_id_pattern ID L) (literal_id ID) L.
Proof.
  intros HID HL LID IDL IDID LL.
  assert (HIDlen : 0 < length ID) by (destruct ID; [congruence|simpl; lia]).
  unfold literal_id. constructor.
  - intros s. unfold match_at, literal_id_pattern. cbn [app run].
    rewrite run_lits. destruct (strip ID s) as [s'|] eqn:E; [|reflexivity].
    rewrite lazy_tail by assumption. rewrite (strip_skipn _ _ _ E).
    reflexivity.
  - assumption.
  - intros s n. destruct (strip ID s) as [s'|] eqn:E; [|discriminate].
    intros H; inversion H; subst. apply strip_length in E. lia.
  - intros a b n. destruct (strip ID (a ++ b)) as [s'|] eqn:E; [|discriminate].
    intros H Hn; inversion H; subst.
    destruct (strip ID a) as [r|] eqn:E'; [reflexivity|].
    rewrite strip_None_app in E by assumption. discriminate.
  - intros a b n. destruct (strip ID a) as [r|] eqn:E; [|discriminate].
    now rewrite (strip_app_Some _ _ b _ E).
  - intros s n o. destruct (strip ID s) as [s'|] eqn:E; [|discriminate].
    intros H Ho; inversion H; subst.
    apply (apart_strip L ID s o s'); assumption.
  - intros s r o Hs Ho. now rewrite (apart_strip_tl _ _ _ _ _ IDL Hs Ho).
  - intros s n o. destruct (strip ID s) as [s'|] eqn:E; [|discriminate].
    intros H Ho; inversion H; subst.
    now rewrite (apart_strip_tl _ _ _ _ _ IDID E Ho).
  - intros s r o Hs Ho. apply (apart_strip_tl L L s o r); assumption.
Qed.

(** *** Rule 1: the identifier carries two numbers *)

Lemma leading_le (f : char -> bool) (s : text) : leading f s <= length s.
Proof. induction s as [|c s IH]; simpl; [lia|]. destruct (f c); simpl; lia. Qed.

Lemma leading_forall (f : char -> bool) (s : text) :
  forallb f (firstn (leading f s) s) = true.
Proof.
  induction s as [|c s IH]; simpl; [reflexivity|].
  destruct (f c) eqn:E; simpl; [now rewrite E|reflexivity].
Qed.

Lemma leading_app (f : char -> bool) (row rest : text) :
  forallb f row = true ->
  (forall c rest', rest = c :: rest' -> f c = false) ->
  leading f (row ++ rest) = length row.
Proof.
  intros Hrow Hrest. induction row as [|c row IH]; simpl in *.
  - destruct rest as [|c rest']; [reflexivity|].
    simpl. now rewrite (Hrest c rest' eq_refl).
  - apply andb_prop in Hrow. destruct Hrow as [Hc Hrow].
    rewrite Hc. f_equal. now apply IH.
Qed.

Section Numbered_id.

Variable cp : text.
Variables u q : char.
Variable L : text.

Hypothesis u_not_digit : is_digit u = false.
Hypothesis q_not_digit : is_digit q = false.

Lemma run_digits adv (c0 : char) (d : text) (p : pattern) mark g (s : text) pos :
  is_digit c0 = false ->
  run adv (digits :: lits (c0 :: d) ++ p) mark g s pos =
  if 1 <=? leading is_digit s
  then run adv (lits (c0 :: d) ++ p) mark g (skipn (leading is_digit s) s)
         (pos + leading is_digit s)
  else None.
Proof.
  intros Hc0. cbn [run digits].
  change (leading is_digit s) with (leading (atom_ok (Cat Cat_digit)) s).
  apply max_repeat_delim.
  intros c s' pos' Hc. rewrite run_lits. cbn [strip].
  destruct (N.eqb_spec c c0); [|reflexivity].
  subst. simpl in Hc. congruence.
Qed.

Lemma numbered_id_match (s : text) :
  L <> [] ->
  match_at false (numbered_id_pattern cp u q L) s =
  match numbered_id_len cp u q s with
  | Some n =>
      match find L (skipn n s) with
      | Some m => Some {| m_end := n + m + length L; m_group := Some (0, n + m) |}
      | None => None
      end
  | None => None
  end.
Proof.
  intros HL. unfold match_at, numbered_id_pattern, numbered_id_len.
  cbn [app run]. rewrite run_lits.
  destruct (strip cp s) as [s1|] eqn:E1; [|reflexivity].
  change (digits :: One (Lit u) :: ?x) with (digits :: lits [u] ++ x).
  rewrite run_digits by assumption. cbv zeta.
  remember (leading is_digit s1) as n1 eqn:Hn1.
  destruct (1 <=? n1); [|reflexivity].
  rewrite run_lits.
  destruct (strip [u] (skipn n1 s1)) as [s2|] eqn:E2; [|reflexivity].
  cbn [app].
  change (digits :: One (Lit q) :: ?x) with (digits :: lits [q] ++ x).
  rewrite run_digits by assumption.
  remember (leading is_digit s2) as n2 eqn:Hn2.
  destruct (1 <=? n2); [|reflexivity].
  rewrite run_lits.
  destruct (strip [q] (skipn n2 s2)) as [s3|] eqn:E3; [|reflexivity].
  rewrite lazy_tail by assumption.
  assert (Hs3 : skipn (length cp + n1 + 1 + n2 + 1) s = s3).
  { apply strip_skipn in E1, E2, E3. rewrite E3, E2, E1, !skipn_skipn.
    f_equal. cbn [length]. lia. }
  rewrite Hs3. cbn [length].
  destruct (find L s3) as [m|]; reflexivity.
Qed.

Lemma numbered_id_len_intro (row col rest : text) :
  number row -> number col ->
  numbered_id_len cp u q (numbered_id cp u q row col ++ rest) =
  Some (length (numbered_id cp u q row col)).
Proof.
  intros [Hr0 Hr] [Hc0 Hc]. unfold numbered_id_len, numbered_id.
  rewrite <- !app_assoc, strip_app. cbv zeta.
  rewrite (leading_app is_digit row).
  - replace (1 <=? length row) with true
      by (destruct row; [congruence|reflexivity]).
    rewrite skipn_app_all. cbn [app strip]. rewrite N.eqb_refl.
    rewrite (leading_app is_digit col).
    + replace (1 <=? length col) with true
        by (destruct col; [congruence|reflexivity]).
      rewrite skipn_app_all. cbn [app strip]. rewrite N.eqb_refl.
      f_equal. repeat (rewrite ?length_app; cbn [length]). lia.
    + assumption.
    + intros c rest' H. inversion H; subst. assumption.
  - assumption.
  - intros c rest' H. inversion H; subst. assumption.
Qed.

Lemma numbered_id_len_elim (s : text) (n : nat) :
  numbered_id_len cp u q s = Some n ->
  exists row col rest,
    number row /\ number col /\ s = numbered_id cp u q row col ++ rest
    /\ n = length (numbered_id cp u q row col).
Proof.
  unfold numbered_id_len.
  destruct (strip cp s) as [s1|] eqn:E1; [|discriminate]. cbv zeta.
  destruct (1 <=? leading is_digit s1) eqn:H1; [|discriminate].
  destruct (strip [u] (skipn (leading is_digit s1) s1)) as [s2|] eqn:E2;
    [|discriminate].
  destruct (1 <=? leading is_digit s2) eqn:H2; [|discriminate].
  destruct (strip [q] (skipn (leading is_digit s2) s2)) as [s3|] eqn:E3;
    [|discriminate].
  intros H; inversion H; subst n. clear H.
  apply Nat.leb_le in H1, H2.
  apply strip_Some in E1, E2, E3.
  pose proof (leading_le is_digit s1) as L1.
  pose proof (leading_le is_digit s2) as L2.
  exists (firstn (leading is_digit s1) s1), (firstn (leading is_digit s2) s2), s3.
  assert (N1 : length (firstn (leading is_digit s1) s1) = leading is_digit s1)
    by (rewrite length_firstn; lia).
  assert (N2 : length (firstn (leading is_digit s2) s2) = leading is_digit s2)
    by (rewrite length_firstn; lia).
  repeat split.
  - intros H0. rewrite H0 in N1. simpl in N1. lia.
  - apply leading_forall.
  - intros H0. rewrite H0 in N2. simpl in N2. lia.
  - apply leading_forall.
  - unfold numbered_id. rewrite <- !app_assoc.
    rewrite E1 at 1. f_equal.
    rewrite <- (firstn_skipn (leading is_digit s1) s1) at 1. f_equal.
    rewrite E2. f_equal.
    rewrite <- (firstn_skipn (leading is_digit s2) s2) at 1. f_equal.
    exact E3.
  - unfold numbered_id. rewrite !length_app, N1, N2. simpl. lia.
Qed.

(** Where the marker character [a] can stand in an identifier: only at its
    start, given that it is neither a digit nor a separator. *)
Variable a : char.
Hypothesis a_not_digit : is_digit a = false.
Hypothesis u_not_a : u <> a.
Hypothesis q_not_a : q <> a.

Lemma number_chars (t : text) : number t -> Forall (fun c => c <> a) t.
Proof.
  intros [_ H]. apply Forall_forall. intros c Hc.
  rewrite forallb_forall in H. specialize (H c Hc). congruence.
Qed.

Lemma numbered_tail_chars (row col : text) :
  number row -> number col ->
  Forall (fun c => c <> a) (row ++ [u] ++ col ++ [q]).
Proof.
  intros Hr Hc. apply Forall_app. split; [now apply number_chars|].
  constructor; [assumption|]. apply Forall_app. split; [now apply number_chars|].
  constructor; [assumption|constructor].
Qed.

Lemma strip_in_tail (y t z : text) (o : nat) :
  Forall (fun c => c <> a) t -> o < length t ->
  strip (a :: y) (skipn o t ++ z) = None.
Proof.
  intros Ht. revert o. induction Ht as [|c t Hc Ht IH]; intros o Ho; simpl in Ho.
  - lia.
  - destruct o as [|o]; simpl.
    + destruct (N.eqb_spec c a); [contradiction|reflexivity].
    + apply IH. lia.
Qed.

(** A literal that starts with [a] cannot start inside an identifier, once
    it cannot start inside the prefix. *)
Lemma strip_in_numbered (y s : text) (n o : nat) :
  (forall r, strip cp s = Some r -> o < length cp ->
             strip (a :: y) (skipn o s) = None) ->
  numbered_id_len cp u q s = Some n -> o < n ->
  strip (a :: y) (skipn o s) = None.
Proof.
  intros Hcp Hs Ho.
  destruct (numbered_id_len_elim _ _ Hs) as (row & col & rest & Hr & Hc & -> & ->).
  unfold numbered_id in *. rewrite <- app_assoc in *.
  destruct (Nat.lt_ge_cases o (length cp)) as [H|H].
  - eapply Hcp; [apply strip_app|assumption].
  - replace o with (length cp + (o - length cp)) by lia.
    rewrite skipn_app_ge, skipn_app_le.
    + apply strip_in_tail; [now apply numbered_tail_chars|].
      rewrite !length_app in *. simpl in *. lia.
    + rewrite !length_app in *. simpl in *. lia.
Qed.

Hypothesis cp_head : exists cp', cp = a :: cp'.
Hypothesis L_head : exists L', L = a :: L'.
Hypothesis L_cp : apart L cp = true.
Hypothesis cp_L : apart cp (tl L) = true.
Hypothesis cp_cp : apart cp (tl cp) = true.
Hypothesis L_L : apart L (tl L) = true.

Lemma numbered_id_bound (s : text) (n : nat) :
  numbered_id_len cp u q s = Some n -> 0 < n <= length s.
Proof.
  intros Hs.
  destruct (numbered_id_len_elim _ _ Hs) as (row & col & rest & [Hr _] & _ & -> & ->).
  unfold numbered_id. rewrite !length_app. simpl.
  destruct row; [congruence|simpl; lia].
Qed.

Lemma numbered_id_none (s : text) :
  strip cp s = None -> numbered_id_len cp u q s = None.
Proof. intros H. unfold numbered_id_len. now rewrite H. Qed.

Lemma numbered_id_rule :
  L <> [] -> lazy_rule (numbered_id_pattern cp u q L) (numbered_id_len cp u q) L.
Proof.
  intros HL. destruct cp_head as [cp' Ecp]. destruct L_head as [L' EL].
  constructor.
  - intros s. now apply numbered_id_match.
  - assumption.
  - apply numbered_id_bound.
  - intros x y n Hs Hn.
    destruct (numbered_id_len_elim _ _ Hs) as (row & col & rest & Hr & Hc & E & ->).
    assert (Ex : x = numbered_id cp u q row col
                     ++ skipn (length (numbered_id cp u q row col)) x).
    { rewrite <- (firstn_skipn (length (numbered_id cp u q row col)) x) at 1. f_equal.
      rewrite <- (firstn_app_le _ x y) by assumption.
      rewrite E, firstn_app_le, firstn_all; [reflexivity|lia]. }
    rewrite Ex. now apply numbered_id_len_intro.
  - intros x y n Hs.
    destruct (numbered_id_len_elim _ _ Hs) as (row & col & rest & Hr & Hc & -> & ->).
    rewrite <- app_assoc. now apply numbered_id_len_intro.
  - intros s n o Hs Ho. rewrite EL. apply (strip_in_numbered _ _ n); try assumption.
    intros r Hr Ho'. rewrite <- EL. apply (apart_strip L cp s o r); assumption.
  - intros s r o Hs Ho. apply numbered_id_none.
    apply (apart_strip_tl cp L s o r); assumption.
  - intros s n o Hs Ho. apply numbered_id_none. rewrite Ecp.
    apply (strip_in_numbered _ _ n); try assumption; [|lia].
    intros r Hr Ho'. rewrite <- Ecp.
    apply (apart_strip_tl cp cp s o r); [assumption|assumption|lia].
  - intros s r o Hs Ho. apply (apart_strip_tl L L s o r); assumption.
Qed.

End Numbered_id.

(** *** The three lazy rules of the script *)

Lemma rule1_lazy : lazy_rule (rule_pattern Rule1) cell_id_len text_size_18.
Proof.
  apply (numbered_id_rule cell_prefix 95%N 34%N text_size_18 eq_refl eq_refl 97%N);
    try reflexivity; try discriminate.
  - eexists. reflexivity.
  - eexists. reflexivity.
Qed.

Lemma rule3_lazy : lazy_rule (rule_pattern Rule3) (literal_id cell_2_2) text_size_16.
Proof. apply literal_id_rule; (discriminate || reflexivity). Qed.

Lemma rule4_lazy : lazy_rule (rule_pattern Rule4) (literal_id action_button) text_size_16.
Proof. apply literal_id_rule; (discriminate || reflexivity). Qed.

Lemma literal_id_absent (ID x : text) :
  find ID x = None -> forall o, literal_id ID (skipn o x) = None.
Proof. intros H o. unfold literal_id. now rewrite (find_none _ _ o H). Qed.

(** ** Rules whose match has a fixed place and a literal replacement *)

Section Fixed_rule.

Variable p : pattern.
Variable len : text -> option nat.
Variable Rm : text.
Hypothesis spec : fixed_rule p len.

Lemma fixed_nil : fixed_sub p Rm [] = [].
Proof.
  apply sub_loop_nil. rewrite (fx_match _ _ spec).
  destruct (len []) as [n|] eqn:E; [|reflexivity].
  apply (fx_bound _ _ spec) in E. simpl in E. lia.
Qed.

Lemma fixed_hit (s : text) (n : nat) :
  len s = Some n -> fixed_sub p Rm s = Rm ++ fixed_sub p Rm (skipn n s).
Proof.
  intros Hn. pose proof (fx_bound _ _ spec _ _ Hn) as Hb.
  unfold fixed_sub.
  rewrite (sub_loop_hit p _ s {| m_end := n; m_group := None |} (n - 1)).
  - unfold expand, expand_item. cbn [flat_map].
    replace (S (n - 1)) with n by lia. now rewrite app_nil_r.
  - now rewrite (fx_match _ _ spec), Hn.
  - cbn [m_end]. lia.
  - lia.
Qed.

Lemma fixed_miss (c : char) (s : text) :
  len (c :: s) = None -> fixed_sub p Rm (c :: s) = c :: fixed_sub p Rm s.
Proof.
  intros H. apply sub_loop_miss. now rewrite (fx_match _ _ spec), H.
Qed.

(** A place that no match crosses cuts the text in two independent parts. *)
Lemma fixed_cut_aux (k : nat) :
  forall x y, length x = k ->
  (forall o n, o < length x -> len (skipn o (x ++ y)) = Some n -> o + n <= length x) ->
  fixed_sub p Rm (x ++ y) = fixed_sub p Rm x ++ fixed_sub p Rm y.
Proof.
  induction k as [k IH] using lt_wf_ind. intros x y Hk Hcut.
  destruct x as [|c x']; [now rewrite fixed_nil|].
  remember (c :: x') as x eqn:Ex.
  assert (Hx : 0 < length x) by (subst x; simpl; lia).
  destruct (len (x ++ y)) as [n|] eqn:Hn.
  - pose proof (Hcut 0 n Hx Hn) as Hle. simpl in Hle.
    pose proof (fx_bound _ _ spec _ _ Hn) as Hb.
    assert (Hn0 : len x = Some n) by (now apply (fx_local _ _ spec x y)).
    rewrite (fixed_hit _ _ Hn), (fixed_hit _ _ Hn0).
    rewrite skipn_app_le by assumption.
    rewrite (IH (length (skipn n x))); [now rewrite app_assoc| |reflexivity|].
    + rewrite length_skipn. lia.
    + intros o m Ho Hm. rewrite length_skipn in *.
      rewrite <- skipn_app_le in Hm by assumption.
      rewrite skipn_skipn in Hm. apply Hcut in Hm; lia.
  - assert (Hn0 : len x = None).
    { destruct (len x) as [n|] eqn:E; [|reflexivity].
      apply (fx_extend _ _ spec x y) in E. congruence. }
    subst x. simpl in *. rewrite !fixed_miss by assumption. simpl. f_equal.
    apply (IH (length x')); [lia|reflexivity|].
    intros o m Ho Hm. specialize (Hcut (S o) m). simpl in Hcut.
    apply Hcut in Hm; lia.
Qed.

Lemma fixed_cut (x y : text) :
  (forall o n, o < length x -> len (skipn o (x ++ y)) = Some n -> o + n <= length x) ->
  fixed_sub p Rm (x ++ y) = fixed_sub p Rm x ++ fixed_sub p Rm y.
Proof. now apply (fixed_cut_aux (length x)). Qed.

(** Text in which no match starts is copied. *)
Lemma fixed_pass (z y : text) :
  (forall o, o < length z -> len (skipn o (z ++ y)) = None) ->
  fixed_sub p Rm (z ++ y) = z ++ fixed_sub p Rm y.
Proof.
  induction z as [|c z IH]; intros H; [reflexivity|].
  simpl. rewrite fixed_miss.
  - f_equal. apply IH. intros o Ho. apply (H (S o)). simpl. lia.
  - apply (H 0). simpl. lia.
Qed.

(** Text in which the pattern matches nowhere is kept. *)
Lemma fixed_keep (x : text) :
  (forall o, len (skipn o x) = None) -> fixed_sub p Rm x = x.
Proof.
  intros H. rewrite <- (app_nil_r x) at 1. rewrite fixed_pass.
  - now rewrite fixed_nil, app_nil_r.
  - intros o _. now rewrite app_nil_r.
Qed.

End Fixed_rule.

(** *** Rule 2: a literal pattern *)

Lemma literal_rule (M : text) : M <> [] -> fixed_rule (lits M) (literal_id M).
Proof.
  intros HM. unfold literal_id. constructor.
  - intros s. unfold match_at. rewrite run_lits_end by assumption.
    destruct (strip M s); reflexivity.
  - intros s n. destruct (strip M s) as [s'|] eqn:E; [|discriminate].
    intros H; inversion H; subst. apply strip_length in E.
    destruct M; [congruence|simpl in *; lia].
  - intros a b n. destruct (strip M (a ++ b)) as [s'|] eqn:E; [|discriminate].
    intros H Hn; inversion H; subst.
    destruct (strip M a) as [r|] eqn:E'; [reflexivity|].
    rewrite strip_None_app in E by assumption. discriminate.
  - intros a b n. destruct (strip M a) as [r|] eqn:E; [|discriminate].
    now rewrite (strip_app_Some _ _ b _ E).
Qed.

Lemma rule2_fixed : fixed_rule (rule_pattern Rule2) (literal_id margin_2).
Proof. apply literal_rule. discriminate. Qed.

Lemma occurrences_pass (M x s : text) :
  (forall o, o < length x -> strip M (skipn o (x ++ s)) = None) ->
  occurrences M (x ++ s) = occurrences M s.
Proof.
  induction x as [|c x IH]; intros H; [reflexivity|].
  pose proof (H 0 ltac:(simpl; lia)) as H0. simpl in H0.
  cbn [app occurrences]. rewrite H0. simpl. apply IH.
  intros o Ho. apply (H (S o)). simpl. lia.
Qed.

Lemma join_cons (sep seg : text) (segs : list text) :
  segs <> [] -> join sep (seg :: segs) = seg ++ sep ++ join sep segs.
Proof. destruct segs; [congruence|reflexivity]. Qed.

(** A literal that cannot overlap itself: the rule cuts the text at every
    occurrence, and puts the replacement in every cut. *)
Lemma literal_sub_join (M Rm : text) (k : nat) :
  M <> [] -> apart M (tl M) = true ->
  forall d, length d = k ->
  exists segs,
    segs <> [] /\
    d = join M segs /\
    fixed_sub (lits M) Rm d = join Rm segs /\
    Forall (fun seg => find M seg = None) segs /\
    length segs = S (occurrences M d).
Proof.
  intros HM Hb. pose proof (literal_rule M HM) as spec.
  assert (HMlen : 0 < length M) by (destruct M; [congruence|simpl; lia]).
  assert (Hnil : strip M [] = None) by (destruct M; [congruence|reflexivity]).
  induction k as [k IH] using lt_wf_ind. intros d Hk.
  destruct d as [|c d'].
  - exists [[]]. repeat split; try discriminate.
    + apply (fixed_nil _ _ Rm spec).
    + constructor; [|constructor]. simpl. now rewrite Hnil.
    + simpl. now rewrite Hnil.
  - destruct (strip M (c :: d')) as [s'|] eqn:E.
    + pose proof (strip_length _ _ _ E) as Hlen.
      destruct (IH (length s') ltac:(lia) s' eq_refl)
        as (segs & Hne & Hd & Hs & Hall & Hcount).
      exists ([] :: segs). repeat split.
      * discriminate.
      * rewrite join_cons by assumption. simpl. rewrite <- Hd.
        now apply strip_Some.
      * rewrite join_cons by assumption. simpl. rewrite <- Hs.
        rewrite (fixed_hit _ _ Rm spec _ (length M)).
        -- now rewrite <- (strip_skipn _ _ _ E).
        -- unfold literal_id. now rewrite E.
      * constructor; [simpl; now rewrite Hnil|assumption].
      * cbn [length occurrences]. rewrite E, Hcount. f_equal. simpl. f_equal.
        destruct M as [|m M']; [congruence|].
        pose proof (strip_Some _ _ _ E) as Hd'. simpl in Hd'.
        injection Hd' as _ Hd'. rewrite Hd'. symmetry. apply occurrences_pass.
        intros o Ho.
        apply (apart_strip_tl (m :: M') (m :: M') (m :: M' ++ s') (S o) s');
          [assumption|apply (strip_app (m :: M'))|simpl; lia].
    + destruct (IH (length d') ltac:(simpl in Hk; lia) d' eq_refl)
        as (segs & Hne & Hd & Hs & Hall & Hcount).
      destruct segs as [|seg segs]; [congruence|].
      exists ((c :: seg) :: segs). repeat split.
      * discriminate.
      * destruct segs; simpl in *; now rewrite <- Hd.
      * rewrite (fixed_miss _ _ Rm spec) by (unfold literal_id; now rewrite E).
        rewrite Hs. destruct segs; reflexivity.
      * inversion Hall; subst. constructor; [|assumption].
        cbn [find].
        destruct (strip M (c :: seg)) as [r|] eqn:E'.
        -- exfalso. destruct segs as [|seg2 segs].
           ++ simpl in E. congruence.
           ++ rewrite join_cons in E by discriminate.
              change (c :: seg ++ M ++ join M (seg2 :: segs))
                with ((c :: seg) ++ M ++ join M (seg2 :: segs)) in E.
              rewrite (strip_app_Some _ _ _ _ E') in E. discriminate.
        -- now rewrite H1.
      * cbn [occurrences]. rewrite E. simpl in *. assumption.
Qed.

(** *** Rule 5: three literals with white space between them *)

Lemma clear_of_app (K x y : text) :
  clear_of K x -> clear_of K y -> clear_of K (x ++ y).
Proof.
  intros Hx Hy o z Ho. rewrite length_app in Ho.
  destruct (Nat.lt_ge_cases o (length x)) as [H|H].
  - rewrite skipn_app_le, <- app_assoc by lia. now apply Hx.
  - replace o with (length x + (o - length x)) by lia.
    rewrite skipn_app_ge. apply Hy. lia.
Qed.

Lemma clear_of_apart (K x : text) : apart K x = true -> clear_of K x.
Proof.
  intros Ha o z Ho. rewrite <- skipn_app_le by lia.
  apply (apart_strip K x (x ++ z) o z); [assumption|apply strip_app|assumption].
Qed.

Lemma clear_of_chars (k0 : char) (K x : text) :
  Forall (fun c => c <> k0) x -> clear_of (k0 :: K) x.
Proof.
  intros Hx. induction Hx as [|c x Hc Hx IH]; intros o z Ho; simpl in Ho; [lia|].
  destruct o as [|o]; simpl.
  - destruct (N.eqb_spec c k0); [contradiction|reflexivity].
  - apply IH. lia.
Qed.

Section Margin_block.

Variables S0 E0 B0 : text.

Variables e0 b0 : char.
Variables E' B' : text.
Hypothesis E_head : E0 = e0 :: E'.
Hypothesis B_head : B0 = b0 :: B'.
Hypothesis e0_not_space : is_space e0 = false.
Hypothesis b0_not_space : is_space b0 = false.

Lemma run_spaces adv (c0 : char) (d : text) (p : pattern) mark g (s : text) pos :
  is_space c0 = false ->
  run adv (spaces :: lits (c0 :: d) ++ p) mark g s pos =
  if 1 <=? leading is_space s
  then run adv (lits (c0 :: d) ++ p) mark g (skipn (leading is_space s) s)
         (pos + leading is_space s)
  else None.
Proof.
  intros Hc0. cbn [run spaces].
  change (leading is_space s) with (leading (atom_ok (Cat Cat_space)) s).
  apply max_repeat_delim.
  intros c s' pos' Hc. rewrite run_lits. cbn [strip].
  destruct (N.eqb_spec c c0); [|reflexivity].
  subst. simpl in Hc. congruence.
Qed.

Lemma block_match (s : text) :
  match_at false (block_pattern S0 E0 B0) s =
  match block_len S0 E0 B0 s with
  | Some n => Some {| m_end := n; m_group := None |}
  | None => None
  end.
Proof.
  unfold match_at, block_pattern, block_len.
  rewrite run_lits.
  destruct (strip S0 s) as [s1|] eqn:E1; [|reflexivity].
  cbn [app]. rewrite E_head at 1.
  rewrite run_spaces by assumption. rewrite <- E_head. cbv zeta.
  remember (leading is_space s1) as n1 eqn:Hn1.
  destruct (1 <=? n1); [|reflexivity].
  rewrite run_lits.
  destruct (strip E0 (skipn n1 s1)) as [s2|] eqn:E2; [|reflexivity].
  cbn [app]. rewrite <- (app_nil_r (lits B0)). rewrite B_head at 1.
  rewrite run_spaces by assumption. rewrite <- B_head.
  remember (leading is_space s2) as n2 eqn:Hn2.
  destruct (1 <=? n2); [|reflexivity].
  rewrite run_lits.
  destruct (strip B0 (skipn n2 s2)) as [s3|] eqn:E3; reflexivity.
Qed.

Lemma block_len_intro (w1 w2 rest : text) :
  blank w1 -> blank w2 ->
  block_len S0 E0 B0 (block S0 E0 B0 w1 w2 ++ rest) =
  Some (length (block S0 E0 B0 w1 w2)).
Proof.
  intros [Hr0 Hr] [Hc0 Hc]. unfold block_len, block.
  rewrite <- !app_assoc, strip_app. cbv zeta.
  rewrite (leading_app is_space w1).
  - replace (1 <=? length w1) with true
      by (destruct w1; [congruence|reflexivity]).
    rewrite skipn_app_all, strip_app.
    rewrite (leading_app is_space w2).
    + replace (1 <=? length w2) with true
        by (destruct w2; [congruence|reflexivity]).
      rewrite skipn_app_all, strip_app.
      f_equal. repeat (rewrite ?length_app; cbn [length]). lia.
    + assumption.
    + intros c rest' H. rewrite B_head in H. inversion H; subst. assumption.
  - assumption.
  - intros c rest' H. rewrite E_head in H. inversion H; subst. assumption.
Qed.

Lemma block_len_elim (s : text) (n : nat) :
  block_len S0 E0 B0 s = Some n ->
  exists w1 w2 rest,
    blank w1 /\ blank w2 /\ s = block S0 E0 B0 w1 w2 ++ rest
    /\ n = length (block S0 E0 B0 w1 w2).
Proof.
  unfold block_len.
  destruct (strip S0 s) as [s1|] eqn:E1; [|discriminate]. cbv zeta.
  destruct (1 <=? leading is_space s1) eqn:H1; [|discriminate].
  destruct (strip E0 (skipn (leading is_space s1) s1)) as [s2|] eqn:E2;
    [|discriminate].
  destruct (1 <=? leading is_space s2) eqn:H2; [|discriminate].
  destruct (strip B0 (skipn (leading is_space s2) s2)) as [s3|] eqn:E3;
    [|discriminate].
  intros H; inversion H; subst n. clear H.
  apply Nat.leb_le in H1, H2.
  apply strip_Some in E1, E2, E3.
  pose proof (leading_le is_space s1) as L1.
  pose proof (leading_le is_space s2) as L2.
  exists (firstn (leading is_space s1) s1), (firstn (leading is_space s2) s2), s3.
  assert (N1 : length (firstn (leading is_space s1) s1) = leading is_space s1)
    by (rewrite length_firstn; lia).
  assert (N2 : length (firstn (leading is_space s2) s2) = leading is_space s2)
    by (rewrite length_firstn; lia).
  repeat split.
  - intros H0. rewrite H0 in N1. simpl in N1. lia.
  - apply leading_forall.
  - intros H0. rewrite H0 in N2. simpl in N2. lia.
  - apply leading_forall.
  - unfold block. rewrite <- !app_assoc.
    rewrite E1 at 1. f_equal.
    rewrite <- (firstn_skipn (leading is_space s1) s1) at 1. f_equal.
    rewrite E2. f_equal.
    rewrite <- (firstn_skipn (leading is_space s2) s2) at 1. f_equal.
    exact E3.
  - unfold block. rewrite !length_app, N1, N2. lia.
Qed.

Hypothesis S_nonempty : S0 <> [].

Lemma block_rule : fixed_rule (block_pattern S0 E0 B0) (block_len S0 E0 B0).
Proof.
  constructor.
  - apply block_match.
  - intros s n Hs.
    destruct (block_len_elim _ _ Hs) as (w1 & w2 & rest & _ & _ & -> & ->).
    unfold block. rewrite !length_app.
    destruct S0; [congruence|simpl; lia].
  - intros x y n Hs Hn.
    destruct (block_len_elim _ _ Hs) as (w1 & w2 & rest & Hr & Hc & E & ->).
    assert (Ex : x = block S0 E0 B0 w1 w2 ++ skipn (length (block S0 E0 B0 w1 w2)) x).
    { rewrite <- (firstn_skipn (length (block S0 E0 B0 w1 w2)) x) at 1. f_equal.
      rewrite <- (firstn_app_le _ x y) by assumption.
      rewrite E, firstn_app_le, firstn_all; [reflexivity|lia]. }
    rewrite Ex. now apply block_len_intro.
  - intros x y n Hs.
    destruct (block_len_elim _ _ Hs) as (w1 & w2 & rest & Hr & Hc & -> & ->).
    rewrite <- app_assoc. now apply block_len_intro.
Qed.

(** A literal that starts with something other than white space and fits
    inside none of the three attributes starts nowhere inside a block S0 E0 B0, its
    first character apart. *)
Lemma block_clear (k0 : char) (K : text) (s : text) (n o : nat) :
  is_space k0 = false ->
  apart (k0 :: K) (tl S0) = true ->
  apart (k0 :: K) E0 = true ->
  apart (k0 :: K) B0 = true ->
  block_len S0 E0 B0 s = Some n -> 0 < o < n ->
  strip (k0 :: K) (skipn o s) = None.
Proof.
  intros Hk HS HE HB Hs Ho.
  destruct (block_len_elim _ _ Hs) as (w1 & w2 & rest & [_ H1] & [_ H2] & -> & ->).
  assert (Hw : forall w, forallb is_space w = true -> clear_of (k0 :: K) w).
  { intros w Hw. apply clear_of_chars. apply Forall_forall. intros c Hc.
    rewrite forallb_forall in Hw. specialize (Hw c Hc). congruence. }
  assert (Hclear : clear_of (k0 :: K) (tl S0 ++ w1 ++ E0 ++ w2 ++ B0)).
  { apply clear_of_app; [now apply clear_of_apart|].
    apply clear_of_app; [now apply Hw|].
    apply clear_of_app; [now apply clear_of_apart|].
    apply clear_of_app; [now apply Hw|now apply clear_of_apart]. }
  unfold block in *. destruct S0 as [|s0 S']; [congruence|].
  destruct o as [|o]; [lia|]. simpl in *.
  rewrite skipn_app_le by lia. apply Hclear. lia.
Qed.

End Margin_block.

Lemma rule5_fixed : fixed_rule (rule_pattern Rule5) margin_block_len.
Proof.
  apply block_rule with (e0 := 97%N) (b0 := 97%N)
                        (E' := tl margin_end_32) (B' := tl margin_bottom_24);
    (reflexivity || discriminate).
Qed.

Lemma margin_block_matches (w1 w2 rest : text) :
  blank w1 -> blank w2 ->
  margin_block_len (margin_block w1 w2 ++ rest) = Some (length (margin_block w1 w2)).
Proof.
  apply block_len_intro with (e0 := 97%N) (b0 := 97%N)
                             (E' := tl margin_end_32) (B' := tl margin_bottom_24);
    reflexivity.
Qed.

Lemma margin_block_clear (k0 : char) (K s : text) (n o : nat) :
  is_space k0 = false ->
  apart (k0 :: K) (tl margin_start_32) = true ->
  apart (k0 :: K) margin_end_32 = true ->
  apart (k0 :: K) margin_bottom_24 = true ->
  margin_block_len s = Some n -> 0 < o < n ->
  strip (k0 :: K) (skipn o s) = None.
Proof.
  apply (block_clear margin_start_32 margin_end_32 margin_bottom_24 97%N 97%N
           eq_refl eq_refl).
  discriminate.
Qed.

Lemma margin_block_len_absent (x : text) :
  find margin_start_32 x = None -> forall o, margin_block_len (skipn o x) = None.
Proof.
  intros H o. unfold margin_block_len, block_len. now rewrite (find_none _ _ o H).
Qed.

(** ** Edits around tokens *)

Lemma edit_refl (redex : text -> Prop) (Rm x : text) : edit redex Rm x x.
Proof. induction x; now constructor. Qed.

Lemma edit_app (redex : text -> Prop) (Rm u u' v v' : text) :
  edit redex Rm u u' -> edit redex Rm v v' -> edit redex Rm (u ++ v) (u' ++ v').
Proof.
  intros Hu Hv. induction Hu; simpl.
  - assumption.
  - now constructor.
  - rewrite <- !app_assoc. now constructor.
Qed.

Lemma strip_app_None (a b s : text) : strip a s = None -> strip (a ++ b) s = None.
Proof.
  revert s. induction a as [|x a IH]; intros s; simpl; [discriminate|].
  destruct s as [|y s]; [reflexivity|].
  destruct (y =? x)%N; [apply IH|reflexivity].
Qed.

Lemma app_eq_split (l d x z : text) :
  l ++ d = x ++ z ->
  (exists x2, x = l ++ x2 /\ d = x2 ++ z) \/
  (length x < length l /\ skipn (length x) l ++ d = z).
Proof.
  intros H. destruct (Nat.le_gt_cases (length l) (length x)) as [Hle|Hgt].
  - left. exists (skipn (length l) x). split.
    + rewrite <- (firstn_skipn (length l) x) at 1. f_equal.
      rewrite <- (firstn_app_le _ x z) by assumption.
      now rewrite <- H, firstn_app_le, firstn_all.
    + rewrite <- (skipn_app_le _ x z) by assumption.
      now rewrite <- H, skipn_app_all.
  - right. split; [assumption|].
    rewrite <- (skipn_app_le _ l d) by lia. now rewrite H, skipn_app_all.
Qed.

Section Tokens.

Variable redex : text -> Prop.
Variable Rm : text.
Variable K : text.
Hypothesis K_nonempty : K <> [].
(** The token and the replaced texts do not overlap. *)
Hypothesis K_l : forall l, redex l -> clear_of K l.
Hypothesis l_K : forall l, redex l -> clear_of l K.

Lemma edit_through (d d' : text) :
  edit redex Rm d d' ->
  forall K0 K1 y, K = K0 ++ K1 -> d = K1 ++ y ->
  exists y', d' = K1 ++ y' /\ edit redex Rm y y'.
Proof.
  induction 1 as [|c x x' Hx IH|l x x' Hl Hx IH]; intros K0 K1 y HK Hd.
  - destruct K1; [|discriminate]. simpl in Hd. subst y.
    exists []. split; [reflexivity|constructor].
  - destruct K1 as [|k K2]; simpl in Hd.
    + subst y. exists (c :: x'). split; [reflexivity|now constructor].
    + inversion Hd; subst.
      destruct (IH (K0 ++ [k]) K2 y) as (y' & -> & Hy);
        [now rewrite <- app_assoc|reflexivity|].
      exists y'. split; [reflexivity|assumption].
  - destruct K1 as [|k K2]; simpl in Hd.
    + subst y. exists (Rm ++ x'). split; [reflexivity|now constructor].
    + exfalso.
      assert (Ho : length K0 < length K)
        by (rewrite HK, length_app; simpl; lia).
      pose proof (l_K l Hl (length K0) y Ho) as HH.
      rewrite HK, skipn_app_all in HH. simpl in HH.
      rewrite <- Hd, strip_app in HH. discriminate.
Qed.

(** An edit of a text goes around a token in it. *)
Lemma edit_split (d d' : text) :
  edit redex Rm d d' ->
  forall x y, d = x ++ K ++ y ->
  exists x' y', d' = x' ++ K ++ y' /\ edit redex Rm x x' /\ edit redex Rm y y'.
Proof.
  induction 1 as [|c d d' Hd IH|l d d' Hl Hd IH]; intros x y E.
  - destruct x; [|discriminate]. destruct K; [congruence|discriminate].
  - destruct x as [|c0 x]; simpl in E.
    + destruct (edit_through (c :: d) (c :: d') (edit_keep _ _ c _ _ Hd) [] K y
                  eq_refl E) as (y' & -> & Hy).
      exists [], y'. repeat split; [constructor|assumption].
    + inversion E; subst.
      destruct (IH x y eq_refl) as (x' & y' & -> & Hx & Hy).
      exists (c0 :: x'), y'. repeat split; [now constructor|assumption].
  - destruct (app_eq_split _ _ _ _ E) as [(x2 & -> & ->)|[Hlen Hz]].
    + destruct (IH x2 y eq_refl) as (x' & y' & -> & Hx & Hy).
      exists (Rm ++ x'), y'. rewrite <- app_assoc.
      repeat split; [now constructor|assumption].
    + exfalso. pose proof (K_l l Hl (length x) d Hlen) as HH.
      rewrite Hz, strip_app in HH. discriminate.
Qed.

(** The replacement and the token do not overlap either. *)
Hypothesis K_r : clear_of K Rm.
Hypothesis r_K : clear_of Rm K.

Lemma strip_self (x : text) : strip x x = Some [].
Proof. rewrite <- (app_nil_r x) at 2. apply strip_app. Qed.

Lemma edit_back_here (d d' : text) :
  edit redex Rm d d' ->
  forall K0 K1 r, K = K0 ++ K1 -> strip K1 d' = Some r ->
  exists r0, strip K1 d = Some r0.
Proof.
  induction 1 as [|c x x' Hx IH|l x x' Hl Hx IH]; intros K0 K1 r HK Hs.
  - eauto.
  - destruct K1 as [|k K2]; [simpl; eauto|]. simpl in *.
    destruct (c =? k)%N; [|discriminate].
    apply (IH (K0 ++ [k]) K2 r); [now rewrite <- app_assoc|assumption].
  - destruct K1 as [|k K2]; [simpl; eauto|]. exfalso.
    assert (Ho : length K0 < length K)
      by (rewrite HK, length_app; simpl; lia).
    apply strip_Some in Hs.
    remember (k :: K2) as K1 eqn:EK1.
    destruct (app_eq_split Rm x' K1 r Hs) as [(x2 & E & _)|[Hlen Hz]].
    + pose proof (r_K (length K0) [] Ho) as HH.
      rewrite HK, skipn_app_all, E, <- app_assoc, strip_app in HH.
      discriminate.
    + pose proof (r_K (length K0) (skipn (length K1) Rm) Ho) as HH.
      rewrite HK, skipn_app_all in HH.
      assert (Hf : firstn (length K1) Rm = K1).
      { rewrite <- (firstn_app_le _ Rm x') by lia.
        now rewrite Hs, firstn_app_le, firstn_all. }
      rewrite <- Hf in HH at 1. rewrite firstn_skipn, strip_self in HH.
      discriminate.
Qed.

(** An edit does not bring the token into a text that did not have it. *)
Lemma edit_absent (d d' : text) :
  edit redex Rm d d' -> find K d = None -> find K d' = None.
Proof.
  intros He Hf. apply find_none_intro. revert Hf.
  induction He as [|c x x' Hx IH|l x x' Hl Hx IH]; intros Hf o.
  - assert (HK : strip K [] = None)
      by (pose proof K_nonempty; destruct K; [congruence|reflexivity]).
    destruct o; exact HK.
  - destruct o as [|o]; simpl.
    + destruct (strip K (c :: x')) as [r|] eqn:E; [exfalso|reflexivity].
      destruct (edit_back_here _ _ (edit_keep _ _ c _ _ Hx) [] K r eq_refl E)
        as [r0 Hr0].
      pose proof (find_none _ _ 0 Hf) as H0. simpl in H0. congruence.
    + apply IH. apply (find_skipn_none _ _ 1 Hf).
  - destruct (Nat.lt_ge_cases o (length Rm)) as [H|H].
    + rewrite skipn_app_le by lia. now apply K_r.
    + replace o with (length Rm + (o - length Rm)) by lia.
      rewrite skipn_app_ge. apply IH.
      pose proof (find_skipn_none _ _ (length l) Hf) as Hx'.
      now rewrite skipn_app_all in Hx'.
Qed.

End Tokens.

Lemma edit_weaken (redex redex' : text -> Prop) (Rm x x' : text) :
  (forall l, redex l -> redex' l) -> edit redex Rm x x' -> edit redex' Rm x x'.
Proof. intros H He. induction He; constructor; auto. Qed.

(** A lazy rule replaces occurrences of its literal, and nothing else. *)
Lemma lazy_edit (p : pattern) (hd : text -> option nat) (L R : text) :
  lazy_rule p hd L -> forall s, edit (eq L) R s (lazy_sub p R s).
Proof.
  intros spec s. remember (length s) as k eqn:Hk. revert s Hk.
  induction k as [k IH] using lt_wf_ind. intros s Hk.
  destruct s as [|c s'].
  - rewrite (lazy_nil _ _ _ R spec). constructor.
  - pose proof (L_length _ _ _ spec) as HL.
    destruct (hd (c :: s')) as [n|] eqn:Hh.
    + pose proof (hd_bound _ _ _ spec _ _ Hh) as Hn.
      destruct (find L (skipn n (c :: s'))) as [m|] eqn:Hf.
      * rewrite (lazy_hit _ _ _ R spec _ _ _ Hh Hf).
        destruct (find_occurs _ _ _ Hf) as [r Hr].
        pose proof (strip_Some _ _ _ Hr) as E.
        pose proof (strip_skipn _ _ _ Hr) as Er.
        rewrite skipn_skipn in E. rewrite !skipn_skipn in Er.
        rewrite <- (firstn_skipn (n + m) (c :: s')) at 1.
        apply edit_app; [apply edit_refl|].
        replace (n + m) with (m + n) at 1 by lia. rewrite E.
        constructor; [reflexivity|].
        replace (n + m + length L) with (length L + m + n) by lia.
        rewrite <- Er.
        apply (IH (length r)); [|reflexivity].
        subst k. rewrite Er, length_skipn. lia.
      * rewrite (lazy_miss_L _ _ _ R spec _ _ _ Hh Hf). constructor.
        apply (IH (length s')); [subst k; simpl; lia|reflexivity].
    + rewrite (lazy_miss_hd _ _ _ R spec _ _ Hh). constructor.
      apply (IH (length s')); [subst k; simpl; lia|reflexivity].
Qed.

(** A fixed rule replaces texts that it matches, and nothing else. *)
Lemma fixed_edit (p : pattern) (len : text -> option nat) (Rm : text) :
  fixed_rule p len ->
  forall s, edit (fun l => exists z, len (l ++ z) = Some (length l)) Rm s
              (fixed_sub p Rm s).
Proof.
  intros spec s. remember (length s) as k eqn:Hk. revert s Hk.
  induction k as [k IH] using lt_wf_ind. intros s Hk.
  destruct s as [|c s'].
  - rewrite (fixed_nil _ _ Rm spec). constructor.
  - destruct (len (c :: s')) as [n|] eqn:Hn.
    + pose proof (fx_bound _ _ spec _ _ Hn) as Hb.
      rewrite (fixed_hit _ _ Rm spec _ _ Hn).
      rewrite <- (firstn_skipn n (c :: s')) at 1.
      constructor.
      * exists (skipn n (c :: s')). rewrite firstn_skipn, length_firstn.
        rewrite Hn. f_equal. lia.
      * apply (IH (length (skipn n (c :: s')))); [|reflexivity].
        subst k. rewrite length_skipn. lia.
    + rewrite (fixed_miss _ _ Rm spec _ _ Hn). constructor.
      apply (IH (length s')); [subst k; simpl; lia|reflexivity].
Qed.

(** The first occurrence of [L] in a text with a token that [L] cannot
    overlap. *)
Lemma find_through (L K u v : text) :
  L <> [] -> apart K (tl L) = true -> apart L K = true ->
  find L (u ++ K ++ v) =
  match find L u with
  | Some m => Some m
  | None => option_map (fun m => length u + length K + m) (find L v)
  end.
Proof.
  intros HL HKL HLK.
  assert (HLlen : 0 < length L) by (destruct L; [congruence|simpl; lia]).
  destruct (find L u) as [m|] eqn:Hu; [now apply find_app_l|].
  assert (Hbefore : forall o, o < length u + length K ->
                              strip L (skipn o (u ++ K ++ v)) = None).
  { intros o Ho.
    destruct (strip L (skipn o (u ++ K ++ v))) as [r|] eqn:E; [exfalso|reflexivity].
    destruct (Nat.lt_ge_cases o (length u)) as [H1|H1].
    - destruct (Nat.le_gt_cases (o + length L) (length u)) as [H2|H2].
      + apply strip_skipn_app_inv in E; [|assumption]. destruct E as [r' E].
        rewrite (find_none _ _ o Hu) in E. discriminate.
      + assert (Hin : 0 < length u - o < length L) by lia.
        pose proof (apart_strip_tl K L _ _ _ HKL E Hin) as HH.
        rewrite skipn_skipn in HH.
        replace (length u - o + o) with (length u) in HH by lia.
        rewrite skipn_app_all, strip_app in HH. discriminate.
    - replace o with (length u + (o - length u)) in E by lia.
      rewrite skipn_app_ge in E.
      rewrite (apart_strip L K (K ++ v) (o - length u) v) in E;
        [discriminate|assumption|apply strip_app|lia]. }
  destruct (find L v) as [m|] eqn:Hv; simpl.
  - destruct (find_occurs _ _ _ Hv) as [r Hr].
    apply (find_intro _ _ _ r).
    + rewrite <- Nat.add_assoc, skipn_app_ge, skipn_app_ge. exact Hr.
    + intros o Ho.
      destruct (Nat.lt_ge_cases o (length u + length K)) as [H1|H1];
        [now apply Hbefore|].
      replace o with (length u + (length K + (o - length u - length K))) by lia.
      rewrite !skipn_app_ge. apply (find_first _ _ _ _ Hv). lia.
  - apply find_none_intro. intros o.
    destruct (Nat.lt_ge_cases o (length u + length K)) as [H1|H1];
      [now apply Hbefore|].
    replace o with (length u + (length K + (o - length u - length K))) by lia.
    rewrite !skipn_app_ge. now apply find_none.
Qed.

Lemma find_app_none_l (L a b : text) : find L (a ++ b) = None -> find L a = None.
Proof.
  intros H. destruct (find L a) as [m|] eqn:E; [|reflexivity].
  rewrite (find_app_l _ _ b _ E) in H. discriminate.
Qed.

Lemma find_app_none_r (L a b : text) : find L (a ++ b) = None -> find L b = None.
Proof.
  intros H. pose proof (find_skipn_none _ _ (length a) H) as H'.
  now rewrite skipn_app_all in H'.
Qed.

(** ** The substitution loop never raises on the five rules *)

Lemma rule_template_ok (i : rule_id) :
  uses_group (rule_repl i) && negb (has_group (rule_pattern i)) = false.
Proof. destruct i; vm_compute; reflexivity. Qed.

Lemma apply_rule_ok (i : rule_id) (content : text) :
  apply_rule i content = Ok (rule_text i content).
Proof.
  unfold apply_rule, re_sub. rewrite rule_template_ok. reflexivity.
Qed.

Lemma transform_ok (content : text) :
  transform content =
  Ok (rule_text Rule5 (rule_text Rule4 (rule_text Rule3
       (rule_text Rule2 (rule_text Rule1 content))))).
Proof.
  unfold transform. repeat (rewrite apply_rule_ok; cbn [bind]). reflexivity.
Qed.

(** ** A pattern that matches nowhere *)

Lemma search_none_here (p : pattern) (s : text) :
  search p s = None -> match_at false p s = None.
Proof.
  destruct s; simpl; destruct (match_at false p _); congruence.
Qed.

Lemma search_none_tail (p : pattern) (c : char) (s : text) :
  search p (c :: s) = None -> search p s = None.
Proof.
  simpl. destruct (match_at false p (c :: s)); [discriminate|].
  destruct (search p s) as [[i r]|]; congruence.
Qed.

Lemma sub_loop_no_match (p : pattern) (t : template) (s : text) :
  search p s = None -> sub_loop p t s 0 = s.
Proof.
  induction s as [|c s IH]; intros Hs.
  - simpl. now rewrite (search_none_here _ _ Hs).
  - cbn [sub_loop]. rewrite (search_none_here _ _ Hs).
    f_equal. apply IH. eapply search_none_tail; eauto.
Qed.

(** C6. A rule whose pattern matches nowhere in the current document leaves
    the document as it is, and no rule and no run of the five rules raises,
    whatever the text. *)
Theorem no_match_identity (i : rule_id) (content : text) :
  (search (rule_pattern i) content = None -> apply_rule i content = Ok content)
  /\ (exists content', apply_rule i content = Ok content')
  /\ (exists content', transform content = Ok content').
Proof.
  split; [|split].
  - intros H. rewrite apply_rule_ok. unfold rule_text.
    now rewrite sub_loop_no_match.
  - eexists. apply apply_rule_ok.
  - eexists. apply transform_ok.
Qed.

(** ** The five rules *)

Lemma rule1_text (x : text) :
  rule_text Rule1 x = lazy_sub (rule_pattern Rule1) cell_text_size x.
Proof. reflexivity. Qed.

Lemma rule2_text (x : text) :
  rule_text Rule2 x = fixed_sub (rule_pattern Rule2) cell_margin x.
Proof. reflexivity. Qed.

Lemma rule3_text (x : text) :
  rule_text Rule3 x = lazy_sub (rule_pattern Rule3) free_text_size x.
Proof. reflexivity. Qed.

Lemma rule4_text (x : text) :
  rule_text Rule4 x = lazy_sub (rule_pattern Rule4) button_text_size x.
Proof. reflexivity. Qed.

Lemma rule5_text (x : text) :
  rule_text Rule5 x = fixed_sub (rule_pattern Rule5) button_margins x.
Proof. reflexivity. Qed.

Lemma cell_id_matches (row col z : text) :
  number row -> number col ->
  cell_id_len (cell_id row col ++ z) = Some (length (cell_id row col)).
Proof. intros Hr Hc. now apply numbered_id_len_intro. Qed.

(** *** Every rule is an edit *)

Lemma app_eq_length (a b c d : text) :
  a ++ b = c ++ d -> length a = length c -> a = c /\ b = d.
Proof.
  intros H Hl. split.
  - rewrite <- (firstn_all a), <- (firstn_app_le _ a b), H, Hl by lia.
    now rewrite firstn_app_le, firstn_all.
  - rewrite <- (skipn_app_all a b), H, Hl. apply skipn_app_all.
Qed.

Lemma rule_edits (i : rule_id) (d : text) : rule_edit i d (rule_text i d).
Proof.
  unfold rule_edit. destruct i.
  - eapply edit_weaken; [|apply (lazy_edit _ _ _ _ rule1_lazy)].
    intros l <-. reflexivity.
  - eapply edit_weaken; [|apply (fixed_edit _ _ _ rule2_fixed)].
    intros l [z Hz]. unfold literal_id in Hz.
    destruct (strip margin_2 (l ++ z)) as [r|] eqn:E; [|discriminate].
    inversion Hz as [Hlen]. apply strip_Some in E.
    now destruct (app_eq_length _ _ _ _ E (eq_sym Hlen)).
  - eapply edit_weaken; [|apply (lazy_edit _ _ _ _ rule3_lazy)].
    intros l <-. reflexivity.
  - eapply edit_weaken; [|apply (lazy_edit _ _ _ _ rule4_lazy)].
    intros l <-. reflexivity.
  - eapply edit_weaken; [|apply (fixed_edit _ _ _ rule5_fixed)].
    intros l [z Hz].
    destruct (block_len_elim _ _ _ _ _ Hz) as (w1 & w2 & rest & H1 & H2 & E & Hlen).
    exists w1, w2. repeat split; try apply H1; try apply H2.
    now destruct (app_eq_length _ _ _ _ E Hlen).
Qed.

Lemma inert_literal (i : rule_id) (Lit K : text) :
  (forall l, rule_redex i l -> l = Lit) ->
  K <> [] ->
  apart K Lit = true -> apart Lit K = true ->
  apart K (rule_literal i) = true -> apart (rule_literal i) K = true ->
  inert i K.
Proof.
  intros Hl HK H1 H2 H3 H4. repeat split; try assumption;
    try (now apply clear_of_apart).
  - rewrite (Hl l H). now apply clear_of_apart.
  - rewrite (Hl l H). now apply clear_of_apart.
Qed.

Lemma inert_block (k0 : char) (K : text) :
  is_space k0 = false ->
  apart (k0 :: K) margin_start_32 = true ->
  apart (k0 :: K) margin_end_32 = true ->
  apart (k0 :: K) margin_bottom_24 = true ->
  apart margin_start_32 (k0 :: K) = true ->
  apart (k0 :: K) button_margins = true ->
  apart button_margins (k0 :: K) = true ->
  inert Rule5 (k0 :: K).
Proof.
  intros Hk HS HE HB HSK Hr1 Hr2. repeat split; try discriminate;
    try (now apply clear_of_apart).
  - destruct H as (w1 & w2 & [_ H1] & [_ H2] & ->).
    assert (Hw : forall w, forallb is_space w = true -> clear_of (k0 :: K) w).
    { intros w Hw. apply clear_of_chars. apply Forall_forall. intros c Hc.
      rewrite forallb_forall in Hw. specialize (Hw c Hc). congruence. }
    unfold margin_block, block.
    apply clear_of_app; [now apply clear_of_apart|].
    apply clear_of_app; [now apply Hw|].
    apply clear_of_app; [now apply clear_of_apart|].
    apply clear_of_app; [now apply Hw|now apply clear_of_apart].
  - destruct H as (w1 & w2 & _ & _ & ->).
    intros o z Ho. unfold margin_block, block. apply strip_app_None.
    now apply clear_of_apart.
Qed.

Lemma rule_split (i : rule_id) (K x y c : text) :
  inert i K -> rule_edit i (x ++ K ++ y) c ->
  exists x' y', c = x' ++ K ++ y' /\ rule_edit i x x' /\ rule_edit i y y'.
Proof.
  intros (HK & Hl & _ & _) He.
  apply (edit_split (rule_redex i) (rule_literal i) K HK) with (d := x ++ K ++ y);
    try assumption; try reflexivity; intros l H; now apply Hl.
Qed.

Lemma rule_absent (i : rule_id) (K x x' : text) :
  inert i K -> rule_edit i x x' -> find K x = None -> find K x' = None.
Proof.
  intros (HK & Hl & H1 & H2) He.
  apply (edit_absent (rule_redex i) (rule_literal i) K HK); try assumption;
    intros l H; now apply Hl.
Qed.

Lemma rule_split3 (i : rule_id) (K1 K2 K3 x0 x1 x2 x3 c : text) :
  inert i K1 -> inert i K2 -> inert i K3 ->
  rule_edit i (x0 ++ K1 ++ x1 ++ K2 ++ x2 ++ K3 ++ x3) c ->
  exists x0' x1' x2' x3',
    c = x0' ++ K1 ++ x1' ++ K2 ++ x2' ++ K3 ++ x3' /\
    rule_edit i x0 x0' /\ rule_edit i x1 x1' /\
    rule_edit i x2 x2' /\ rule_edit i x3 x3'.
Proof.
  intros H1 H2 H3 He.
  destruct (rule_split _ _ _ _ _ H1 He) as (x0' & y1 & -> & E0 & He1).
  destruct (rule_split _ _ _ _ _ H2 He1) as (x1' & y2 & -> & E1 & He2).
  destruct (rule_split _ _ _ _ _ H3 He2) as (x2' & x3' & -> & E2 & E3).
  exists x0', x1', x2', x3'. repeat split; assumption.
Qed.

Lemma inert1_text_size_16 : inert Rule1 text_size_16.
Proof.
  apply (inert_literal Rule1 text_size_18);
    [intros l H; exact H|discriminate|reflexivity..].
Qed.

Lemma inert1_cell_2_2 : inert Rule1 cell_2_2.
Proof.
  apply (inert_literal Rule1 text_size_18);
    [intros l H; exact H|discriminate|reflexivity..].
Qed.

Lemma inert1_action_button : inert Rule1 action_button.
Proof.
  apply (inert_literal Rule1 text_size_18);
    [intros l H; exact H|discriminate|reflexivity..].
Qed.

Lemma inert2_text_size_16 : inert Rule2 text_size_16.
Proof.
  apply (inert_literal Rule2 margin_2);
    [intros l H; exact H|discriminate|reflexivity..].
Qed.

Lemma inert2_cell_2_2 : inert Rule2 cell_2_2.
Proof.
  apply (inert_literal Rule2 margin_2);
    [intros l H; exact H|discriminate|reflexivity..].
Qed.

Lemma inert2_action_button : inert Rule2 action_button.
Proof.
  apply (inert_literal Rule2 margin_2);
    [intros l H; exact H|discriminate|reflexivity..].
Qed.

Lemma inert3_action_button : inert Rule3 action_button.
Proof.
  apply (inert_literal Rule3 text_size_16);
    [intros l H; exact H|discriminate|reflexivity..].
Qed.

Lemma inert5_text_size_16 : inert Rule5 text_size_16.
Proof. apply (inert_block 97%N (tl text_size_16)); reflexivity. Qed.

Lemma inert5_cell_2_2 : inert Rule5 cell_2_2.
Proof. apply (inert_block 97%N (tl cell_2_2)); reflexivity. Qed.

Lemma inert5_free_text_size : inert Rule5 free_text_size.
Proof. apply (inert_block 97%N (tl free_text_size)); reflexivity. Qed.

(** *** Rules 3 and 4 around the first [16sp] text size *)

Lemma rule3_first (pre post : text) :
  find text_size_16 pre = None ->
  (exists a b, pre = a ++ cell_2_2 ++ b) ->
  rule_text Rule3 (pre ++ text_size_16 ++ post) =
  pre ++ free_text_size ++ rule_text Rule3 post.
Proof.
  intros Hf (a & b & ->). rewrite !rule3_text, <- !app_assoc.
  rewrite (lazy_replace _ _ _ _ rule3_lazy).
  - rewrite (lazy_no_L _ _ _ _ rule3_lazy a); [reflexivity|].
    eapply find_app_none_l; eauto.
  - intros z. unfold literal_id. now rewrite strip_app.
  - apply (find_after _ _ _ rule3_lazy).
    apply find_app_none_r in Hf. now apply find_app_none_r in Hf.
Qed.

Lemma rule4_armed (pre y : text) :
  find text_size_16 pre = None ->
  (exists a b, pre = a ++ action_button ++ b) ->
  rule_text Rule4 (pre ++ free_text_size ++ y) =
  pre ++ free_text_size ++ button_armed y.
Proof.
  intros Hf (a & b & ->). unfold button_armed. rewrite !rule4_text.
  pose proof (find_app_none_l _ _ _ Hf) as Ha.
  pose proof (find_app_none_r _ _ _ (find_app_none_r _ _ _ Hf)) as Hb.
  destruct (find text_size_16 y) as [m|] eqn:Hy.
  - destruct (find_occurs _ _ _ Hy) as [r Hr].
    pose proof (find_bound _ _ _ Hy) as Hbound.
    assert (Ey : y = firstn m y ++ text_size_16
                     ++ skipn (m + length text_size_16) y).
    { rewrite <- (firstn_skipn m y) at 1. f_equal.
      rewrite (strip_Some _ _ _ Hr). f_equal.
      rewrite (strip_skipn _ _ _ Hr), skipn_skipn. f_equal. lia. }
    rewrite Ey at 1. rewrite <- !app_assoc.
    replace (a ++ action_button ++ b ++ free_text_size ++ firstn m y
             ++ text_size_16 ++ skipn (m + length text_size_16) y)
      with (a ++ action_button ++ (b ++ free_text_size ++ firstn m y)
            ++ text_size_16 ++ skipn (m + length text_size_16) y)
      by (now rewrite <- !app_assoc).
    rewrite (lazy_replace _ _ _ _ rule4_lazy).
    + rewrite (lazy_no_L _ _ _ _ rule4_lazy a Ha). now rewrite <- !app_assoc.
    + intros z. unfold literal_id. now rewrite strip_app.
    + rewrite <- !app_assoc.
      rewrite (find_through text_size_16 free_text_size) by
        (discriminate || reflexivity).
      rewrite Hb.
      assert (Hm : find text_size_16 (firstn m y ++ text_size_16) = Some m).
      { apply (find_app_local _ _ (skipn (m + length text_size_16) y)).
        - now rewrite <- app_assoc, <- Ey.
        - rewrite length_app, length_firstn. lia. }
      rewrite Hm. cbn [option_map]. f_equal.
      rewrite !length_app, length_firstn. lia.
  - rewrite (lazy_no_L _ _ _ _ rule4_lazy); [reflexivity|].
    rewrite (find_through text_size_16 free_text_size) by
      (discriminate || reflexivity).
    now rewrite Hf, Hy.
Qed.

(** C1. Rule 1, in any text: where a cell identifier is followed by [mid] and
    then by the first [android:textSize="18sp"] after the identifier, that
    attribute is replaced by the reference to [bingo_cell_text_size]; the
    identifier and [mid] are written back as they were; before and after, the
    rule does what it does on those texts alone. *)
Theorem rule1_replaces_first_text_size (pre row col mid post : text) :
  number row -> number col ->
  find text_size_18 (mid ++ text_size_18) = Some (length mid) ->
  exists pre' post',
    apply_rule Rule1 pre = Ok pre' /\
    apply_rule Rule1 post = Ok post' /\
    apply_rule Rule1 (pre ++ cell_id row col ++ mid ++ text_size_18 ++ post) =
    Ok (pre' ++ cell_id row col ++ mid ++ cell_text_size ++ post').
Proof.
  intros Hr Hc Hmid.
  exists (rule_text Rule1 pre), (rule_text Rule1 post).
  rewrite !apply_rule_ok. repeat split. f_equal. rewrite !rule1_text.
  apply (lazy_replace _ _ _ _ rule1_lazy); [|assumption].
  intros z. now apply cell_id_matches.
Qed.

(** C2. Rule 2 cuts the text at the occurrences of
    [android:layout_margin="2dp"] and joins the pieces with
    [android:layout_margin="@dimen/cell_margin"]: the pieces are unchanged
    and contain no occurrence, and there are as many cuts as the text has
    occurrences. *)
Theorem rule2_replaces_every_margin (content : text) :
  exists segs,
    content = join margin_2 segs /\
    apply_rule Rule2 content = Ok (join cell_margin segs) /\
    Forall (fun seg => find margin_2 seg = None) segs /\
    length segs = S (occurrences margin_2 content).
Proof.
  destruct (literal_sub_join margin_2 cell_margin (length content)
              ltac:(discriminate) eq_refl content eq_refl)
    as (segs & _ & Hd & Hs & Hall & Hn).
  exists segs. rewrite apply_rule_ok, rule2_text. repeat split; try assumption.
  f_equal. exact Hs.
Qed.

(** C3, as the code has it. Rule 5 replaces every block of the three margins,
    not only the first: in any text, a block (white space [w1] and [w2]
    between its attributes) becomes the three references, the second and the
    third each after a newline and exactly eight spaces, and the first where
    the block began; before and after the block the rule does what it does
    on those texts alone. *)
Theorem rule5_replaces_every_block (pre w1 w2 post : text) :
  blank w1 -> blank w2 ->
  exists pre' post',
    apply_rule Rule5 pre = Ok pre' /\
    apply_rule Rule5 post = Ok post' /\
    apply_rule Rule5 (pre ++ margin_block w1 w2 ++ post) =
    Ok (pre'
        ++ attr "android:layout_marginStart" "@dimen/button_margin_horizontal"
        ++ [10%N] ++ repeat 32%N 8
        ++ attr "android:layout_marginEnd" "@dimen/button_margin_horizontal"
        ++ [10%N] ++ repeat 32%N 8
        ++ attr "android:layout_marginBottom" "@dimen/button_margin_bottom"
        ++ post').
Proof.
  intros H1 H2.
  exists (rule_text Rule5 pre), (rule_text Rule5 post).
  rewrite !apply_rule_ok. repeat split. f_equal. rewrite !rule5_text.
  rewrite (fixed_cut _ _ _ rule5_fixed).
  - f_equal.
    rewrite (fixed_hit _ _ _ rule5_fixed _ (length (margin_block w1 w2))).
    + rewrite skipn_app_all. unfold button_margins, newline_indent.
      now rewrite <- !app_assoc.
    + now apply margin_block_matches.
  - intros o n Ho Hn.
    destruct (Nat.le_gt_cases (o + n) (length pre)) as [H|H]; [assumption|exfalso].
    assert (Hin : 0 < length pre - o < n) by lia.
    pose proof (margin_block_clear 97%N (tl margin_start_32) _ n _
                  eq_refl eq_refl eq_refl eq_refl Hn Hin) as HH.
    rewrite skipn_skipn in HH.
    replace (length pre - o + o) with (length pre) in HH by lia.
    rewrite skipn_app_all in HH. unfold margin_block, block in HH.
    rewrite <- app_assoc in HH.
    change (97%N :: tl margin_start_32) with margin_start_32 in HH.
    rewrite strip_app in HH. discriminate.
Qed.

(** C5. There is a text with two cell blocks, the first without an [18sp]
    text size, on which the match of rule 1 starts at the first identifier,
    runs over the second and ends with the second block's attribute, which is
    the one replaced. *)
Theorem rule1_crosses_blocks :
  exists row1 col1 mid1 row2 col2 mid2,
    let block1 := cell_id row1 col1 ++ mid1 in
    let block2 := cell_id row2 col2 ++ mid2 ++ text_size_18 in
    number row1 /\ number col1 /\ number row2 /\ number col2 /\
    find text_size_18 block1 = None /\
    find cell_prefix mid1 = None /\ find cell_prefix mid2 = None /\
    match_at false (rule_pattern Rule1) (block1 ++ block2) =
      Some {| m_end := length (block1 ++ block2);
              m_group := Some (0, length (block1 ++ cell_id row2 col2 ++ mid2)) |} /\
    apply_rule Rule1 (block1 ++ block2) =
      Ok (block1 ++ cell_id row2 col2 ++ mid2 ++ cell_text_size).
Proof.
  exists (chars "0"), (chars "0"), (chars " android:text=B /> <TextView "),
         (chars "0"), (chars "1"), (chars " android:text=I ").
  cbv zeta. repeat split; try discriminate; vm_compute; reflexivity.
Qed.

Lemma rule3_scope_text (pre mid gap post : text) :
  find cell_2_2 pre = None ->
  find text_size_16 mid = None ->
  find cell_2_2 gap = None ->
  rule_text Rule3
    (pre ++ cell_2_2 ++ mid ++ text_size_16 ++ gap ++ text_size_16 ++ post) =
  pre ++ cell_2_2 ++ mid ++ free_text_size ++ gap ++ text_size_16
  ++ rule_text Rule3 post.
Proof.
  intros Hpre Hmid Hgap. rewrite !rule3_text.
  rewrite (lazy_replace _ _ _ _ rule3_lazy).
  - rewrite (lazy_keep _ _ _ _ rule3_lazy pre) by (now apply literal_id_absent).
    rewrite (lazy_gap _ _ _ _ rule3_lazy gap) by (now apply literal_id_absent).
    reflexivity.
  - intros z. unfold literal_id. now rewrite strip_app.
  - now apply (find_after _ _ _ rule3_lazy).
Qed.

Lemma token_kept (i : rule_id) (K x x' : text) :
  inert i K -> rule_edit i x x' ->
  (exists a b, x = a ++ K ++ b) -> exists a b, x' = a ++ K ++ b.
Proof.
  intros Hi He (a & b & ->).
  destruct (rule_split _ _ _ _ _ Hi He) as (a' & b' & -> & _ & _). eauto.
Qed.

Lemma edit_frame (i : rule_id) (K1 K2 x0 x0' x1 x1' x2 x2' : text) :
  rule_edit i x0 x0' -> rule_edit i x1 x1' -> rule_edit i x2 x2' ->
  rule_edit i (x0 ++ K1 ++ x1 ++ K2 ++ x2) (x0' ++ K1 ++ x1' ++ K2 ++ x2').
Proof.
  intros H0 H1 H2. unfold rule_edit in *.
  repeat (apply edit_app; [assumption || apply edit_refl|]). assumption.
Qed.

(** C8, as the code has it. Where [cell_2_2] first occurs after [pre] and is
    followed by [mid], without a [16sp] text size, and then by one: rule 3
    replaces that attribute by the reference to [bingo_free_text_size] and
    writes back every other [16sp] text size before the next [cell_2_2]
    identifier, such as the one after [gap]; in the output of the whole
    transform that other attribute is unchanged when no [actionButton]
    identifier stands before it either (rule 4 replaces it otherwise); the
    texts around have only the replacements of rules 1, 2 and 5, which bring
    in no [cell_2_2] identifier and no [16sp] text size. *)
Theorem free_cell_scope (pre mid gap post : text) :
  find cell_2_2 pre = None ->
  find text_size_16 mid = None ->
  find cell_2_2 gap = None ->
  (exists post3,
     apply_rule Rule3 post = Ok post3 /\
     apply_rule Rule3
       (pre ++ cell_2_2 ++ mid ++ text_size_16 ++ gap ++ text_size_16 ++ post) =
     Ok (pre ++ cell_2_2 ++ mid ++ free_text_size ++ gap ++ text_size_16 ++ post3))
  /\
  (find action_button (pre ++ cell_2_2 ++ mid ++ text_size_16 ++ gap) = None ->
   exists pre' mid' gap' post',
     edited pre pre' /\ edited mid mid' /\ edited gap gap' /\
     find cell_2_2 pre' = None /\ find text_size_16 mid' = None /\
     find cell_2_2 gap' = None /\
     transform
       (pre ++ cell_2_2 ++ mid ++ text_size_16 ++ gap ++ text_size_16 ++ post) =
     Ok (pre' ++ cell_2_2 ++ mid' ++ free_text_size ++ gap' ++ text_size_16
         ++ post')).
Proof.
  intros Hpre Hmid Hgap. split.
  - exists (rule_text Rule3 post). rewrite !apply_rule_ok.
    split; [reflexivity|]. f_equal. now apply rule3_scope_text.
  - intros Hact. rewrite transform_ok.
    destruct (rule_split3 Rule1 cell_2_2 text_size_16 text_size_16 pre mid gap post _
                inert1_cell_2_2 inert1_text_size_16 inert1_text_size_16
                (rule_edits Rule1 _))
      as (p1 & m1 & g1 & q1 & -> & Hp1 & Hm1 & Hg1 & Hq1).
    destruct (rule_split3 Rule2 cell_2_2 text_size_16 text_size_16 p1 m1 g1 q1 _
                inert2_cell_2_2 inert2_text_size_16 inert2_text_size_16
                (rule_edits Rule2 _))
      as (p2 & m2 & g2 & q2 & -> & Hp2 & Hm2 & Hg2 & Hq2).
    assert (Hpre2 : find cell_2_2 p2 = None).
    { apply (rule_absent Rule2 _ p1); [apply inert2_cell_2_2|assumption|].
      now apply (rule_absent Rule1 _ pre); [apply inert1_cell_2_2|..]. }
    assert (Hmid2 : find text_size_16 m2 = None).
    { apply (rule_absent Rule2 _ m1); [apply inert2_text_size_16|assumption|].
      now apply (rule_absent Rule1 _ mid); [apply inert1_text_size_16|..]. }
    assert (Hgap2 : find cell_2_2 g2 = None).
    { apply (rule_absent Rule2 _ g1); [apply inert2_cell_2_2|assumption|].
      now apply (rule_absent Rule1 _ gap); [apply inert1_cell_2_2|..]. }
    assert (Hact2 : find action_button
                      (p2 ++ cell_2_2 ++ m2 ++ text_size_16 ++ g2) = None).
    { apply (rule_absent Rule2 _ (p1 ++ cell_2_2 ++ m1 ++ text_size_16 ++ g1));
        [apply inert2_action_button|now apply edit_frame|].
      apply (rule_absent Rule1 _ (pre ++ cell_2_2 ++ mid ++ text_size_16 ++ gap));
        [apply inert1_action_button|now apply edit_frame|assumption]. }
    rewrite (rule3_scope_text p2 m2 g2 q2 Hpre2 Hmid2 Hgap2).
    assert (Hact3 : find action_button
                      (p2 ++ cell_2_2 ++ m2 ++ free_text_size ++ g2) = None).
    { apply (rule_absent Rule3 _ (p2 ++ cell_2_2 ++ m2 ++ text_size_16 ++ g2));
        [apply inert3_action_button| |assumption].
      unfold rule_edit.
      repeat (apply edit_app; [apply edit_refl|]).
      apply (edit_redex _ _ text_size_16); [reflexivity|apply edit_refl]. }
    replace (p2 ++ cell_2_2 ++ m2 ++ free_text_size ++ g2 ++ text_size_16
             ++ rule_text Rule3 q2)
      with ((p2 ++ cell_2_2 ++ m2 ++ free_text_size ++ g2) ++ text_size_16
            ++ rule_text Rule3 q2)
      by (now rewrite <- !app_assoc).
    rewrite rule4_text.
    rewrite (lazy_gap _ _ _ _ rule4_lazy) by (now apply literal_id_absent).
    rewrite <- !app_assoc.
    match goal with
    | |- context [rule_text Rule5 ?t] => pose proof (rule_edits Rule5 t) as H5
    end.
    destruct (rule_split3 Rule5 _ _ _ _ _ _ _ _
                inert5_cell_2_2 inert5_free_text_size inert5_text_size_16 H5)
      as (p5 & m5 & g5 & q5 & -> & Hp5 & Hm5 & Hg5 & Hq5).
    exists p5, m5, g5, q5.
    repeat split; try reflexivity;
      try (eexists; eexists; split; [|split]; eassumption).
    + now apply (rule_absent Rule5 _ p2); [apply inert5_cell_2_2|..].
    + now apply (rule_absent Rule5 _ m2); [apply inert5_text_size_16|..].
    + now apply (rule_absent Rule5 _ g2); [apply inert5_cell_2_2|..].
Qed.

(** C9. Where the first [16sp] text size of a text comes after both a
    [cell_2_2] and an [actionButton] identifier, rule 3, which runs first,
    replaces it by the reference to [bingo_free_text_size]; rule 4 leaves that
    reference alone and replaces the next [16sp] text size, if there is one;
    and in the output of the whole transform the reference stands right
    after what rules 1, 2 and 5 make of the text before it, in which there
    is still no [16sp] text size. *)
Theorem rule3_before_rule4 (pre post : text) :
  find text_size_16 pre = None ->
  (exists a b, pre = a ++ cell_2_2 ++ b) ->
  (exists a b, pre = a ++ action_button ++ b) ->
  (exists post3,
     apply_rule Rule3 post = Ok post3 /\
     apply_rule Rule3 (pre ++ text_size_16 ++ post) =
       Ok (pre ++ free_text_size ++ post3) /\
     apply_rule Rule4 (pre ++ free_text_size ++ post3) =
       Ok (pre ++ free_text_size ++ button_armed post3))
  /\
  (exists pre' rest,
     edited pre pre' /\
     find text_size_16 pre' = None /\
     transform (pre ++ text_size_16 ++ post) =
       Ok (pre' ++ free_text_size ++ rest)).
Proof.
  intros Hf H22 Hact. split.
  - exists (rule_text Rule3 post). rewrite !apply_rule_ok.
    repeat split; f_equal; [now apply rule3_first|now apply rule4_armed].
  - rewrite transform_ok.
    destruct (rule_split Rule1 text_size_16 pre post _ inert1_text_size_16
                (rule_edits Rule1 _)) as (p1 & q1 & -> & Hp1 & Hq1).
    destruct (rule_split Rule2 text_size_16 p1 q1 _ inert2_text_size_16
                (rule_edits Rule2 _)) as (p2 & q2 & -> & Hp2 & Hq2).
    assert (Hf2 : find text_size_16 p2 = None).
    { apply (rule_absent Rule2 _ p1); [apply inert2_text_size_16|assumption|].
      now apply (rule_absent Rule1 _ pre); [apply inert1_text_size_16|..]. }
    assert (H22' : exists a b, p2 = a ++ cell_2_2 ++ b).
    { apply (token_kept Rule2 _ p1); [apply inert2_cell_2_2|assumption|].
      now apply (token_kept Rule1 _ pre); [apply inert1_cell_2_2|..]. }
    assert (Hact' : exists a b, p2 = a ++ action_button ++ b).
    { apply (token_kept Rule2 _ p1); [apply inert2_action_button|assumption|].
      now apply (token_kept Rule1 _ pre); [apply inert1_action_button|..]. }
    rewrite (rule3_first p2 q2 Hf2 H22').
    rewrite (rule4_armed p2 _ Hf2 Hact').
    match goal with
    | |- context [rule_text Rule5 ?t] => pose proof (rule_edits Rule5 t) as H5
    end.
    destruct (rule_split Rule5 _ _ _ _ inert5_free_text_size H5)
      as (p5 & q5 & -> & Hp5 & _).
    exists p5, q5. split; [exists p1, p2; auto|split; [|reflexivity]].
    now apply (rule_absent Rule5 _ p2); [apply inert5_text_size_16|..].
Qed.

(** ** The script *)

Lemma main_eq (w : world) :
  main w =
  match read_layout w with
  | (w1, Ok content) =>
      match transform content with
      | Ok content' =>
          match write_layout content' w1 with
          | (w2, Ok _) => print confirmation w2
          | (w2, Raise e) => (w2, Raise e)
          end
      | Raise e => (w1, Raise e)
      end
  | (w1, Raise e) => (w1, Raise e)
  end.
Proof.
  unfold main, io_bind, lift.
  destruct (read_layout w) as [w1 [content|e]]; [|reflexivity].
  destruct (transform content); reflexivity.
Qed.

Lemma read_layout_world (w w' : world) (r : result text) :
  read_layout w = (w', r) -> w' = w.
Proof.
  unfold read_layout. destruct (layout_file w) as [f|].
  - destruct (f_readable f); [destruct (decode (f_data f))|]; congruence.
  - congruence.
Qed.

Lemma write_layout_raise (content : text) (w w' : world) (e : error) :
  write_layout content w = (w', Raise e) -> w' = w /\ e = PermissionError.
Proof.
  unfold write_layout. destruct (layout_file w) as [f|].
  - destruct (f_writable f); [discriminate|]. intros H; inversion H; auto.
  - discriminate.
Qed.

Lemma write_layout_stdout (content : text) (w w' : world) (r : result unit) :
  write_layout content w = (w', r) -> stdout w' = stdout w.
Proof.
  unfold write_layout. destruct (layout_file w) as [f|].
  - destruct (f_writable f); intros H; inversion H; reflexivity.
  - intros H; inversion H; reflexivity.
Qed.

(** A run that raises leaves the file and the output as they were, and what
    it raises is an input/output error. *)
Lemma main_raise (w w' : world) (e : error) :
  main w = (w', Raise e) -> w' = w /\ io_error e = true.
Proof.
  rewrite main_eq.
  destruct (read_layout w) as [w1 [content|e1]] eqn:Hr.
  - apply read_layout_world in Hr. subst w1.
    rewrite transform_ok.
    destruct (write_layout _ w) as [w2 [u|e2]] eqn:Hw.
    + unfold print. discriminate.
    + intros H; inversion H; subst.
      apply write_layout_raise in Hw. destruct Hw; subst. auto.
  - intros H; inversion H; subst. split.
    + eapply read_layout_world; eauto.
    + unfold read_layout in Hr. destruct (layout_file w) as [f|].
      * destruct (f_readable f); [destruct (decode (f_data f))|];
          inversion Hr; reflexivity.
      * inversion Hr; reflexivity.
Qed.

Lemma main_done (w w' : world) (u : unit) :
  main w = (w', Ok u) -> stdout w' = stdout w ++ [confirmation].
Proof.
  rewrite main_eq.
  destruct (read_layout w) as [w1 [content|e1]] eqn:Hr; [|discriminate].
  apply read_layout_world in Hr. subst w1.
  rewrite transform_ok.
  destruct (write_layout _ w) as [w2 [u2|e2]] eqn:Hw; [|discriminate].
  apply write_layout_stdout in Hw.
  unfold print. intros H; inversion H; subst. simpl. now rewrite Hw.
Qed.

Lemma main_unusable (w : world) :
  unusable w -> exists e, main w = (w, Raise e) /\ io_error e = true.
Proof.
  unfold unusable. intros H.
  destruct (main w) as [w' [u|e]] eqn:Hm.
  - exfalso. rewrite main_eq in Hm. unfold read_layout in Hm.
    destruct (layout_file w) as [f|] eqn:Hf; [|discriminate].
    destruct (f_readable f) eqn:Hrd; [|discriminate].
    destruct H as [H|H]; [discriminate|].
    destruct (decode (f_data f)); [|discriminate].
    rewrite transform_ok in Hm. unfold write_layout in Hm.
    rewrite Hf, H in Hm. discriminate.
  - destruct (main_raise _ _ _ Hm) as [-> He]. eauto.
Qed.

(** C7. When the file is absent, unreadable or unwritable the run raises an
    input/output error, the file and the output are exactly as before (the
    read is over before the write starts, and a refused write changes
    nothing), and nothing is printed; any run that raises leaves the world
    untouched; a run that completes prints the confirmation, once. *)
Theorem failure_atomicity (w : world) :
  (unusable w -> exists e, main w = (w, Raise e) /\ io_error e = true)
  /\ (forall w' e, main w = (w', Raise e) -> w' = w)
  /\ (forall w' u, main w = (w', Ok u) ->
        stdout w' = stdout w ++ [confirmation]).
Proof.
  split; [apply main_unusable|split].
  - intros w' e H. now apply main_raise in H.
  - intros w' u H. eapply main_done; eauto.
Qed.

(** * Further properties of the rules *)

(** ** Which text sizes a lazy rule replaces *)

Lemma has_id_false (hd : text -> option nat) (x : text) :
  has_id hd x = false -> forall o, hd (skipn o x) = None.
Proof.
  induction x as [|c x IH]; simpl; intros H o.
  - destruct (hd []) eqn:E; [discriminate|]. now destruct o.
  - destruct (hd (c :: x)) eqn:E; [discriminate|].
    destruct o as [|o]; simpl; [assumption|]. now apply IH.
Qed.

Lemma has_id_true (hd : text -> option nat) (x : text) :
  has_id hd x = true -> exists o n, hd (skipn o x) = Some n.
Proof.
  induction x as [|c x IH]; simpl; intros H.
  - destruct (hd []) as [n|] eqn:E; [|discriminate]. exists 0, n. exact E.
  - destruct (hd (c :: x)) as [n|] eqn:E.
    + exists 0, n. exact E.
    + destruct (IH H) as (o & n & Ho). exists (S o), n. exact Ho.
Qed.

Lemma has_id_intro (hd : text -> option nat) (x : text) (o n : nat) :
  hd (skipn o x) = Some n -> has_id hd x = true.
Proof.
  intros H. destruct (has_id hd x) eqn:E; [reflexivity|].
  rewrite (has_id_false _ _ E o) in H. discriminate.
Qed.

Lemma has_id_literal (ID x : text) : has_id (literal_id ID) x = occurs ID x.
Proof.
  unfold occurs, literal_id. induction x as [|c x IH]; simpl.
  - destruct (strip ID []); reflexivity.
  - destruct (strip ID (c :: x)); [reflexivity|].
    rewrite IH. destruct (find ID x); reflexivity.
Qed.

Lemma mark_join_ext (f g : text -> bool) (L R : text) (segs : list text) :
  (forall x, f x = g x) -> mark_join f L R segs = mark_join g L R segs.
Proof.
  intros H. induction segs as [|seg segs IH]; [reflexivity|].
  destruct segs as [|seg2 segs]; [reflexivity|].
  change (mark_join f L R (seg :: seg2 :: segs))
    with (seg ++ (if f seg then R else L) ++ mark_join f L R (seg2 :: segs)).
  change (mark_join g L R (seg :: seg2 :: segs))
    with (seg ++ (if g seg then R else L) ++ mark_join g L R (seg2 :: segs)).
  now rewrite IH, H.
Qed.

Section Lazy_segments.

Variable p : pattern.
Variable hd : text -> option nat.
Variables L R : text.
Hypothesis spec : lazy_rule p hd L.

(** A text without the literal, then the literal: it is replaced when an
    identifier stands in the text, and only then. *)
Lemma lazy_segment (x : text) :
  find L x = None ->
  lazy_sub p R (x ++ L) = x ++ (if has_id hd x then R else L).
Proof.
  intros Hx. destruct (has_id hd x) eqn:E.
  - assert (Hsplit : exists pre id mid,
               x = pre ++ id ++ mid /\ forall z, hd (id ++ z) = Some (length id)).
    { destruct (has_id_true _ _ E) as (o & n & Ho).
      pose proof (hd_bound _ _ _ spec _ _ Ho) as Hb.
      exists (firstn o x), (firstn n (skipn o x)), (skipn n (skipn o x)).
      split; [now rewrite !firstn_skipn|].
      assert (Hlen : length (firstn n (skipn o x)) = n)
        by (rewrite length_firstn; lia).
      intros z. rewrite Hlen. apply (hd_extend _ _ _ spec).
      apply (hd_local _ _ _ spec _ (skipn n (skipn o x))); [|lia].
      now rewrite firstn_skipn. }
    destruct Hsplit as (pre & id & mid & -> & Hid).
    pose proof (find_app_none_l _ _ _ Hx) as Hpre.
    pose proof (find_app_none_r _ _ _ (find_app_none_r _ _ _ Hx)) as Hmid.
    rewrite <- !app_assoc.
    rewrite (lazy_first_aux _ _ _ R spec _ _ _ _ eq_refl Hid
               (find_after _ _ _ spec _ Hmid)).
    now rewrite (lazy_no_L _ _ _ R spec _ Hpre).
  - rewrite <- (app_nil_r L) at 1.
    rewrite (lazy_gap _ _ _ R spec) by (now apply has_id_false).
    now rewrite (lazy_nil _ _ _ R spec), app_nil_r.
Qed.

(** The text cut at the occurrences of the literal: each occurrence is
    replaced when an identifier stands between the occurrence before it and
    itself, and written back when none does. *)
Lemma lazy_mark_join (segs : list text) :
  Forall (fun seg => find L seg = None) segs ->
  lazy_sub p R (join L segs) = mark_join (has_id hd) L R segs.
Proof.
  induction segs as [|seg segs IH]; intros Hall.
  - apply (lazy_nil _ _ _ R spec).
  - inversion Hall as [|? ? Hseg Hrest]; subst.
    destruct segs as [|seg2 segs].
    + simpl. now apply (lazy_no_L _ _ _ R spec).
    + change (join L (seg :: seg2 :: segs))
        with (seg ++ L ++ join L (seg2 :: segs)).
      change (mark_join (has_id hd) L R (seg :: seg2 :: segs))
        with (seg ++ (if has_id hd seg then R else L)
              ++ mark_join (has_id hd) L R (seg2 :: segs)).
      rewrite (lazy_cut _ _ _ R spec), (lazy_segment _ Hseg), (IH Hrest).
      now rewrite <- app_assoc.
Qed.

End Lazy_segments.

(** A text is its pieces between the occurrences of a literal that cannot
    overlap itself. *)
Lemma cut_at (M d : text) :
  M <> [] -> apart M (tl M) = true ->
  exists segs,
    d = join M segs /\
    Forall (fun seg => find M seg = None) segs /\
    length segs = S (occurrences M d).
Proof.
  intros HM Hb.
  destruct (literal_sub_join M [] (length d) HM Hb d eq_refl)
    as (segs & _ & Hd & _ & Hall & Hn).
  exists segs. auto.
Qed.

Lemma has_cell_id (seg : text) :
  has_id cell_id_len seg = true <->
  exists a row col b, number row /\ number col /\ seg = a ++ cell_id row col ++ b.
Proof.
  split.
  - intros H. destruct (has_id_true _ _ H) as (o & n & Ho).
    destruct (numbered_id_len_elim _ _ _ _ _ Ho)
      as (row & col & rest & Hr & Hc & E & _).
    exists (firstn o seg), row, col, rest. repeat split; try apply Hr; try apply Hc.
    unfold cell_id. rewrite <- E. now rewrite firstn_skipn.
  - intros (a & row & col & b & Hr & Hc & ->).
    apply (has_id_intro _ _ (length a) (length (cell_id row col))).
    rewrite skipn_app_all. now apply cell_id_matches.
Qed.

(** X1. Rule 1, on any text. Cut the text at its [18sp] text sizes: each of
    them is replaced by the reference to [bingo_cell_text_size] when a cell
    identifier (the prefix, a number, an underscore, a number, the quote)
    stands between the text size before it, or the start of the text, and
    itself; it is written back when none does.  The pieces between are
    written back as they are. *)
Theorem rule1_replaces_after_cell_id (content : text) :
  (exists segs,
     content = join text_size_18 segs /\
     Forall (fun seg => find text_size_18 seg = None) segs /\
     length segs = S (occurrences text_size_18 content) /\
     apply_rule Rule1 content =
       Ok (mark_join (has_id cell_id_len) text_size_18 cell_text_size segs))
  /\ (forall seg,
        has_id cell_id_len seg = true <->
        exists a row col b,
          number row /\ number col /\ seg = a ++ cell_id row col ++ b).
Proof.
  split; [|apply has_cell_id].
  destruct (cut_at text_size_18 content ltac:(discriminate) eq_refl)
    as (segs & Hd & Hall & Hn).
  exists segs. repeat split; try assumption.
  rewrite apply_rule_ok, rule1_text. f_equal. rewrite Hd at 1.
  now apply (lazy_mark_join _ _ _ _ rule1_lazy).
Qed.

(** X2. Rule 3, on any text. Cut the text at its [16sp] text sizes: each of
    them is replaced by the reference to [bingo_free_text_size] when
    [android:id="@+id/cell_2_2"] occurs between the text size before it, or
    the start of the text, and itself; it is written back when it does
    not. *)
Theorem rule3_replaces_after_free_cell (content : text) :
  exists segs,
    content = join text_size_16 segs /\
    Forall (fun seg => find text_size_16 seg = None) segs /\
    length segs = S (occurrences text_size_16 content) /\
    apply_rule Rule3 content =
      Ok (mark_join (occurs cell_2_2) text_size_16 free_text_size segs).
Proof.
  destruct (cut_at text_size_16 content ltac:(discriminate) eq_refl)
    as (segs & Hd & Hall & Hn).
  exists segs. repeat split; try assumption.
  rewrite apply_rule_ok, rule3_text. f_equal. rewrite Hd at 1.
  rewrite (lazy_mark_join _ _ _ _ rule3_lazy) by assumption.
  apply mark_join_ext, has_id_literal.
Qed.

(** X3. Rule 4, on any text. Cut the text at its [16sp] text sizes: each of
    them is replaced by the reference to [button_text_size] when
    [android:id="@+id/actionButton"] occurs between the text size before
    it, or the start of the text, and itself; it is written back when it
    does not. *)
Theorem rule4_replaces_after_button (content : text) :
  exists segs,
    content = join text_size_16 segs /\
    Forall (fun seg => find text_size_16 seg = None) segs /\
    length segs = S (occurrences text_size_16 content) /\
    apply_rule Rule4 content =
      Ok (mark_join (occurs action_button) text_size_16 button_text_size segs).
Proof.
  destruct (cut_at text_size_16 content ltac:(discriminate) eq_refl)
    as (segs & Hd & Hall & Hn).
  exists segs. repeat split; try assumption.
  rewrite apply_rule_ok, rule4_text. f_equal. rewrite Hd at 1.
  rewrite (lazy_mark_join _ _ _ _ rule4_lazy) by assumption.
  apply mark_join_ext, has_id_literal.
Qed.

(** ** A grid in which every cell has its own text size *)

Lemma cell_id_len_absent (x : text) :
  find cell_prefix x = None -> forall o, cell_id_len (skipn o x) = None.
Proof.
  intros H o. unfold cell_id_len, numbered_id_len.
  now rewrite (find_none _ _ o H).
Qed.

(** X4. Rule 1 on a grid. When no cell identifier stands before the first
    cell, each cell has no [18sp] text size between its identifier and its
    own, and no identifier starts between a cell's text size and the next
    cell, rule 1 replaces the text size of every cell and changes nothing
    else: what stands before the grid, [18sp] text sizes included, and the
    text around the replaced attributes are written back as they are. *)
Theorem rule1_converts_grid (pre : text) (cells : list cell) :
  find cell_prefix pre = None ->
  Forall own_size cells ->
  apply_rule Rule1 (pre ++ grid text_size_18 cells) =
  Ok (pre ++ grid cell_text_size cells).
Proof.
  intros Hpre Hall. rewrite apply_rule_ok. f_equal. revert pre Hpre.
  induction Hall as [|c cells (Hr & Hc & Hmid & Hrest) Hall IH]; intros pre Hpre.
  - unfold grid. simpl. rewrite !app_nil_r, rule1_text.
    apply (lazy_keep _ _ _ _ rule1_lazy). now apply cell_id_len_absent.
  - unfold grid in *. cbn [flat_map]. unfold cell_text at 1 3.
    rewrite <- !app_assoc, rule1_text.
    rewrite (lazy_replace _ _ _ _ rule1_lazy).
    + rewrite (lazy_keep _ _ _ _ rule1_lazy pre)
        by (now apply cell_id_len_absent).
      rewrite <- rule1_text, (IH _ Hrest). reflexivity.
    + intros z. now apply cell_id_matches.
    + now apply (find_after _ _ _ rule1_lazy).
Qed.

(** ** Rules 2 and 5 leave nothing for themselves *)

(** Up to the first replacement, an edit copies. *)
Lemma edit_prefix (redex : text -> Prop) (Rm x x' : text) :
  edit redex Rm x x' ->
  forall k,
    firstn k x' = firstn k x \/
    exists j r, j < k /\ strip Rm (skipn j x') = Some r.
Proof.
  induction 1 as [|c x x' Hx IH|l x x' Hl Hx IH]; intros k.
  - now left.
  - destruct k as [|k]; [now left|].
    destruct (IH k) as [E|(j & r & Hj & Hr)].
    + left. simpl. now rewrite E.
    + right. exists (S j), r. split; [lia|exact Hr].
  - destruct k as [|k]; [now left|].
    right. exists 0, x'. split; [lia|apply strip_app].
Qed.

Lemma search_none_intro (p : pattern) (s : text) :
  (forall o, match_at false p (skipn o s) = None) -> search p s = None.
Proof.
  induction s as [|c s IH]; intros H; pose proof (H 0) as H0; simpl in H0.
  - simpl. now rewrite H0.
  - cbn [search]. rewrite H0, IH; [reflexivity|].
    intros o. apply (H (S o)).
Qed.

Section Fixed_stable.

Variable p : pattern.
Variable len : text -> option nat.
Variable Rm : text.
Hypothesis spec : fixed_rule p len.

(** The replacement starts nowhere in a match, and no match starts in the
    replacement. *)
Hypothesis Rm_in_match :
  forall s n o, len s = Some n -> o < n -> strip Rm (skipn o s) = None.
Hypothesis match_in_Rm :
  forall o z, o < length Rm -> len (skipn o Rm ++ z) = None.

Lemma fixed_stable_here (x : text) :
  len x = None -> len (fixed_sub p Rm x) = None.
Proof.
  intros Hx. destruct (len (fixed_sub p Rm x)) as [n|] eqn:Hn; [exfalso|reflexivity].
  pose proof (fx_bound _ _ spec _ _ Hn) as Hb.
  destruct (edit_prefix _ _ _ _ (fixed_edit _ _ Rm spec x) n)
    as [E|(j & r & Hj & Hr)].
  - assert (Hf : len (firstn n (fixed_sub p Rm x)) = Some n).
    { apply (fx_local _ _ spec _ (skipn n (fixed_sub p Rm x))).
      - now rewrite firstn_skipn.
      - rewrite length_firstn. lia. }
    rewrite E in Hf. apply (fx_extend _ _ spec _ (skipn n x)) in Hf.
    rewrite firstn_skipn in Hf. congruence.
  - rewrite (Rm_in_match _ _ _ Hn Hj) in Hr. discriminate.
Qed.

(** After the rule, its pattern matches nowhere. *)
Lemma fixed_stable (k : nat) :
  forall x, length x = k -> forall o, len (skipn o (fixed_sub p Rm x)) = None.
Proof.
  induction k as [k IH] using lt_wf_ind. intros x Hk o.
  assert (Hnil : len [] = None).
  { destruct (len []) as [n|] eqn:E; [|reflexivity].
    apply (fx_bound _ _ spec) in E. simpl in E. lia. }
  destruct x as [|c x'].
  - rewrite (fixed_nil _ _ Rm spec). now destruct o.
  - destruct (len (c :: x')) as [n|] eqn:Hn.
    + pose proof (fx_bound _ _ spec _ _ Hn) as Hb.
      rewrite (fixed_hit _ _ Rm spec _ _ Hn).
      destruct (Nat.lt_ge_cases o (length Rm)) as [H|H].
      * rewrite skipn_app_le by lia. now apply match_in_Rm.
      * replace o with (length Rm + (o - length Rm)) by lia.
        rewrite skipn_app_ge.
        apply (IH (length (skipn n (c :: x')))); [|reflexivity].
        subst k. rewrite length_skipn. lia.
    + destruct o as [|o].
      * simpl. now apply fixed_stable_here.
      * rewrite (fixed_miss _ _ Rm spec _ _ Hn). simpl.
        apply (IH (length x')); [subst k; simpl; lia|reflexivity].
Qed.

Lemma fixed_idempotent (x : text) :
  fixed_sub p Rm (fixed_sub p Rm x) = fixed_sub p Rm x.
Proof.
  apply (fixed_keep _ _ Rm spec). now apply (fixed_stable (length x)).
Qed.

Lemma fixed_search_none (x : text) : search p (fixed_sub p Rm x) = None.
Proof.
  apply search_none_intro. intros o. rewrite (fx_match _ _ spec).
  now rewrite (fixed_stable (length x) x eq_refl o).
Qed.

End Fixed_stable.

Lemma rule2_stable (x : text) (o : nat) :
  literal_id margin_2 (skipn o (rule_text Rule2 x)) = None.
Proof.
  rewrite rule2_text.
  apply (fixed_stable _ _ cell_margin rule2_fixed) with (k := length x);
    [| |reflexivity].
  - intros s n o' Hs Ho. unfold literal_id in Hs.
    destruct (strip margin_2 s) as [r|] eqn:E; [|discriminate].
    inversion Hs; subst n.
    apply (apart_strip cell_margin margin_2 s o' r);
      [reflexivity|assumption|assumption].
  - intros o' z Ho. unfold literal_id.
    now rewrite (clear_of_apart margin_2 cell_margin eq_refl o' z Ho).
Qed.

Lemma rule2_no_margin (x : text) : find margin_2 (rule_text Rule2 x) = None.
Proof.
  apply find_none_intro. intros o. pose proof (rule2_stable x o) as H.
  unfold literal_id in H.
  destruct (strip margin_2 (skipn o (rule_text Rule2 x))); [discriminate|reflexivity].
Qed.

(** X5. Rule 2 leaves no [android:layout_margin="2dp"] in its output,
    whatever the text, and a second application changes nothing. *)
Theorem rule2_leaves_no_margin (content : text) :
  exists c2,
    apply_rule Rule2 content = Ok c2 /\
    find margin_2 c2 = None /\
    apply_rule Rule2 c2 = Ok c2.
Proof.
  exists (rule_text Rule2 content). rewrite !apply_rule_ok.
  split; [reflexivity|split; [apply rule2_no_margin|]].
  f_equal. rewrite rule2_text at 1.
  apply (fixed_keep _ _ _ rule2_fixed). apply rule2_stable.
Qed.

Lemma rule5_stable (x : text) (o : nat) :
  margin_block_len (skipn o (rule_text Rule5 x)) = None.
Proof.
  rewrite rule5_text.
  apply (fixed_stable _ _ button_margins rule5_fixed) with (k := length x);
    [| |reflexivity].
  - intros s n o' Hs Ho. destruct o' as [|o'].
    + unfold margin_block_len, block_len in Hs.
      destruct (strip margin_start_32 s) as [r|] eqn:E; [|discriminate].
      apply (apart_strip button_margins margin_start_32 s 0 r);
        [reflexivity|assumption|simpl; lia].
    + apply (margin_block_clear 97%N (tl button_margins) s n (S o'));
        try reflexivity; [assumption|lia].
  - intros o' z Ho. unfold margin_block_len, block_len.
    now rewrite (clear_of_apart margin_start_32 button_margins eq_refl o' z Ho).
Qed.

Lemma no_block_in (x : text) :
  (forall o, margin_block_len (skipn o x) = None) ->
  forall a w1 w2 b, blank w1 -> blank w2 -> x <> a ++ margin_block w1 w2 ++ b.
Proof.
  intros H a w1 w2 b H1 H2 E. specialize (H (length a)).
  rewrite E, skipn_app_all, margin_block_matches in H by assumption.
  discriminate.
Qed.

(** X6. Rule 5 leaves no block of the three margins in its output (the
    three attributes with their [32dp], [32dp] and [24dp], white space
    between them), whatever the text, and a second application changes
    nothing. *)
Theorem rule5_leaves_no_block (content : text) :
  exists c5,
    apply_rule Rule5 content = Ok c5 /\
    (forall a w1 w2 b,
       blank w1 -> blank w2 -> c5 <> a ++ margin_block w1 w2 ++ b) /\
    apply_rule Rule5 c5 = Ok c5.
Proof.
  exists (rule_text Rule5 content). rewrite !apply_rule_ok.
  split; [reflexivity|split].
  - apply no_block_in. apply rule5_stable.
  - f_equal. rewrite rule5_text at 1.
    apply (fixed_keep _ _ _ rule5_fixed). apply rule5_stable.
Qed.

Lemma inert3_margin_2 : inert Rule3 margin_2.
Proof.
  apply (inert_literal Rule3 text_size_16);
    [intros l H; exact H|discriminate|reflexivity..].
Qed.

Lemma inert4_margin_2 : inert Rule4 margin_2.
Proof.
  apply (inert_literal Rule4 text_size_16);
    [intros l H; exact H|discriminate|reflexivity..].
Qed.

Lemma inert5_margin_2 : inert Rule5 margin_2.
Proof. apply (inert_block 97%N (tl margin_2)); reflexivity. Qed.

(** X7. The output of the transform, whatever the input: it has no
    [android:layout_margin="2dp"] (rules 3, 4 and 5 bring none back after
    rule 2) and no block of the three margins. *)
Theorem transform_output_has_no_margin (content : text) :
  exists content',
    transform content = Ok content' /\
    find margin_2 content' = None /\
    (forall a w1 w2 b,
       blank w1 -> blank w2 -> content' <> a ++ margin_block w1 w2 ++ b).
Proof.
  eexists. split; [apply transform_ok|split].
  - apply (rule_absent Rule5 _ _ _ inert5_margin_2 (rule_edits Rule5 _)).
    apply (rule_absent Rule4 _ _ _ inert4_margin_2 (rule_edits Rule4 _)).
    apply (rule_absent Rule3 _ _ _ inert3_margin_2 (rule_edits Rule3 _)).
    apply rule2_no_margin.
  - apply no_block_in. apply rule5_stable.
Qed.

(** ** Rules with nothing to do *)

Lemma find_in_app (l a b : text) : find l (a ++ l ++ b) <> None.
Proof.
  intros H. pose proof (find_none _ _ (length a) H) as H'.
  rewrite skipn_app_all, strip_app in H'. discriminate.
Qed.

Lemma margin_block_len_needs (x : text) :
  find margin_start_32 x = None \/ find margin_end_32 x = None \/
  find margin_bottom_24 x = None ->
  forall o, margin_block_len (skipn o x) = None.
Proof.
  intros H o. destruct H as [H|H]; [now apply margin_block_len_absent|].
  destruct (margin_block_len (skipn o x)) as [n|] eqn:E; [exfalso|reflexivity].
  destruct (block_len_elim _ _ _ _ _ E) as (w1 & w2 & rest & _ & _ & Ex & _).
  unfold block in Ex. rewrite <- !app_assoc in Ex.
  destruct H as [H|H]; apply (find_skipn_none _ _ o) in H; rewrite Ex in H.
  - apply (find_in_app margin_end_32 (margin_start_32 ++ w1)
             (w2 ++ margin_bottom_24 ++ rest)).
    now rewrite <- !app_assoc.
  - apply (find_in_app margin_bottom_24
             (margin_start_32 ++ w1 ++ margin_end_32 ++ w2) rest).
    now rewrite <- !app_assoc.
Qed.

Lemma dormant_rule_text (i : rule_id) (content : text) :
  dormant i content -> rule_text i content = content.
Proof.
  destruct i; simpl; intros H.
  - rewrite rule1_text. destruct H as [H|H].
    + now apply (lazy_no_L _ _ _ _ rule1_lazy).
    + apply (lazy_keep _ _ _ _ rule1_lazy). now apply cell_id_len_absent.
  - rewrite rule2_text. apply (fixed_keep _ _ _ rule2_fixed).
    now apply literal_id_absent.
  - rewrite rule3_text. destruct H as [H|H].
    + now apply (lazy_no_L _ _ _ _ rule3_lazy).
    + apply (lazy_keep _ _ _ _ rule3_lazy). now apply literal_id_absent.
  - rewrite rule4_text. destruct H as [H|H].
    + now apply (lazy_no_L _ _ _ _ rule4_lazy).
    + apply (lazy_keep _ _ _ _ rule4_lazy). now apply literal_id_absent.
  - rewrite rule5_text. apply (fixed_keep _ _ _ rule5_fixed).
    now apply margin_block_len_needs.
Qed.

(** X8. A rule leaves a text as it is when the text lacks a literal the
    rule's pattern needs: its identifier (or, for rule 1, the identifier's
    prefix) or the value it looks for; for rule 5, any of the three
    attributes.  A text on which the five rules are dormant comes out of
    the transform unchanged; the empty text is one. *)
Theorem dormant_rules_keep_text (content : text) :
  (forall i, dormant i content -> apply_rule i content = Ok content) /\
  ((forall i, dormant i content) -> transform content = Ok content) /\
  transform [] = Ok [].
Proof.
  assert (Hall : forall c, (forall i, dormant i c) -> transform c = Ok c).
  { intros c H. rewrite transform_ok. f_equal.
    now rewrite (dormant_rule_text Rule1), (dormant_rule_text Rule2),
      (dormant_rule_text Rule3), (dormant_rule_text Rule4),
      (dormant_rule_text Rule5) by apply H. }
  split; [|split].
  - intros i H. rewrite apply_rule_ok. f_equal. now apply dormant_rule_text.
  - apply Hall.
  - apply Hall. intros i. destruct i; simpl; auto.
Qed.

(** ** What the transform leaves alone *)

(** X9. The output of the transform is the input after five rounds of
    replacements and nothing else: some [18sp] text sizes, then some [2dp]
    margins, then some [16sp] text sizes (twice), then some blocks of the
    three margins, each replaced by the literal of its rule; every other
    character is copied, in order. *)
Theorem transform_only_replaces (content : text) :
  exists c1 c2 c3 c4 c5,
    rule_edit Rule1 content c1 /\ rule_edit Rule2 c1 c2 /\
    rule_edit Rule3 c2 c3 /\ rule_edit Rule4 c3 c4 /\
    rule_edit Rule5 c4 c5 /\
    transform content = Ok c5.
Proof.
  exists (rule_text Rule1 content), (rule_text Rule2 (rule_text Rule1 content)).
  eexists. eexists. eexists.
  repeat (split; [apply rule_edits|]). apply transform_ok.
Qed.

Section Token_count.

Variable redex : text -> Prop.
Variable Rm : text.
Variable K : text.
Hypothesis K_nonempty : K <> [].
Hypothesis K_l : forall l, redex l -> clear_of K l.
Hypothesis l_K : forall l, redex l -> clear_of l K.
Hypothesis K_r : clear_of K Rm.
Hypothesis r_K : clear_of Rm K.

Lemma occurrences_clear (l x : text) :
  clear_of K l -> occurrences K (l ++ x) = occurrences K x.
Proof.
  intros H. apply occurrences_pass. intros o Ho.
  rewrite skipn_app_le by lia. now apply H.
Qed.

(** An edit keeps the number of occurrences of a token that overlaps
    neither what is replaced nor what is written. *)
Lemma edit_occurrences (d d' : text) :
  edit redex Rm d d' -> occurrences K d' = occurrences K d.
Proof.
  induction 1 as [|c x x' Hx IH|l x x' Hl Hx IH].
  - reflexivity.
  - cbn [occurrences]. rewrite IH. f_equal.
    destruct (strip K (c :: x)) as [y|] eqn:E.
    + destruct (edit_through redex Rm K K_nonempty K_l l_K _ _ (edit_keep _ _ c _ _ Hx) [] K y
                  eq_refl (strip_Some _ _ _ E)) as (y' & E' & _).
      now rewrite E', strip_app.
    + destruct (strip K (c :: x')) as [r|] eqn:E'; [|reflexivity].
      destruct (edit_back_here redex Rm K r_K _ _ (edit_keep _ _ c _ _ Hx) [] K r
                  eq_refl E') as [r0 Hr0].
      congruence.
  - rewrite !occurrences_clear; auto.
Qed.

End Token_count.

Lemma rule_occurrences (i : rule_id) (K x x' : text) :
  inert i K -> rule_edit i x x' -> occurrences K x' = occurrences K x.
Proof.
  intros (HK & Hl & H1 & H2) He.
  apply (edit_occurrences (rule_redex i) (rule_literal i) K); try assumption;
    intros l H; now apply Hl.
Qed.

Lemma foreign_apart (K l : text) :
  foreign K = true -> In l rule_literals -> apart K l = true /\ apart l K = true.
Proof.
  unfold foreign. destruct K as [|k0 K]; [discriminate|].
  intros H Hin. apply andb_prop in H. destruct H as [_ H].
  rewrite forallb_forall in H. now apply andb_prop, H.
Qed.

Lemma foreign_inert (K : text) : foreign K = true -> forall i, inert i K.
Proof.
  intros H.
  assert (Hin : forall l, In l rule_literals ->
                          apart K l = true /\ apart l K = true)
    by (intros l; now apply foreign_apart).
  assert (Hlit : forall i Lit,
             (forall l, rule_redex i l -> l = Lit) ->
             In Lit rule_literals -> In (rule_literal i) rule_literals ->
             inert i K).
  { intros i Lit Hl H1 H2. destruct (Hin _ H1), (Hin _ H2).
    apply (inert_literal i Lit); try assumption.
    intros E. subst K. discriminate. }
  unfold rule_literals in *.
  intros i. destruct i.
  - apply (Hlit Rule1 text_size_18); [intros l E; exact E|cbn [In]; auto 20..].
  - apply (Hlit Rule2 margin_2); [intros l E; exact E|cbn [In]; auto 20..].
  - apply (Hlit Rule3 text_size_16); [intros l E; exact E|cbn [In]; auto 20..].
  - apply (Hlit Rule4 text_size_16); [intros l E; exact E|cbn [In]; auto 20..].
  - unfold foreign in H. destruct K as [|k0 K]; [discriminate|].
    apply andb_prop in H. destruct H as [Hk _].
    apply negb_true_iff in Hk.
    apply inert_block; try assumption;
      match goal with
      | |- apart ?a ?b = true =>
          first [ apply (proj1 (Hin b ltac:(cbn [In]; auto 20)))
                | apply (proj2 (Hin a ltac:(cbn [In]; auto 20))) ]
      end.
Qed.

(** X10. A token that starts with something other than white space and
    can overlap none of the literals the rules read or write occurs in the
    output of the transform exactly as many times as in the input. *)
Theorem transform_keeps_foreign_tokens (K content : text) :
  foreign K = true ->
  exists content',
    transform content = Ok content' /\
    occurrences K content' = occurrences K content.
Proof.
  intros H. pose proof (foreign_inert K H) as Hi.
  eexists. split; [apply transform_ok|].
  rewrite (rule_occurrences Rule5 K _ _ (Hi _) (rule_edits Rule5 _)).
  rewrite (rule_occurrences Rule4 K _ _ (Hi _) (rule_edits Rule4 _)).
  rewrite (rule_occurrences Rule3 K _ _ (Hi _) (rule_edits Rule3 _)).
  rewrite (rule_occurrences Rule2 K _ _ (Hi _) (rule_edits Rule2 _)).
  apply (rule_occurrences Rule1 K _ _ (Hi _) (rule_edits Rule1 _)).
Qed.

(** ** Rules 3 and 4, one after the other *)

Lemma occurs_through (L K u v : text) :
  L <> [] -> apart K (tl L) = true -> apart L K = true ->
  occurs L (u ++ K ++ v) = occurs L u || occurs L v.
Proof.
  intros HL H1 H2. unfold occurs. rewrite (find_through L K u v HL H1 H2).
  destruct (find L u); [reflexivity|]. now destruct (find L v).
Qed.

Lemma clean_nil : clean [].
Proof. split; [auto|reflexivity]. Qed.

Lemma clean_free (a seg : text) :
  clean a -> find text_size_16 seg = None ->
  clean (a ++ seg ++ free_text_size).
Proof.
  intros [H16 Hab] Hseg. split.
  - intros v Hv. rewrite <- !app_assoc. apply H16.
    rewrite (find_through text_size_16 free_text_size)
      by (discriminate || reflexivity).
    now rewrite Hseg, Hv.
  - intros v. rewrite <- !app_assoc. rewrite !Hab.
    rewrite (occurs_through action_button free_text_size seg v)
      by (discriminate || reflexivity).
    rewrite <- (app_nil_r free_text_size).
    rewrite (occurs_through action_button free_text_size seg [])
      by (discriminate || reflexivity).
    change (occurs action_button []) with false.
    now rewrite orb_false_r, !orb_assoc.
Qed.

Lemma rule4_after_rule3 (segs : list text) :
  Forall (fun seg => find text_size_16 seg = None) segs ->
  forall a, clean a ->
  rule_text Rule4
    (a ++ mark_join (occurs cell_2_2) text_size_16 free_text_size segs) =
  a ++ size_16_join (occurs action_button a) segs.
Proof.
  induction segs as [|seg segs IH]; intros Hall a Ha.
  - simpl. rewrite !app_nil_r, rule4_text.
    apply (lazy_no_L _ _ _ _ rule4_lazy).
    rewrite <- (app_nil_r a). now apply Ha.
  - inversion Hall as [|? ? Hseg Hrest]; subst.
    destruct segs as [|seg2 segs].
    + simpl. rewrite rule4_text. apply (lazy_no_L _ _ _ _ rule4_lazy).
      now apply Ha.
    + change (mark_join (occurs cell_2_2) text_size_16 free_text_size
                (seg :: seg2 :: segs))
        with (seg ++ (if occurs cell_2_2 seg then free_text_size else text_size_16)
              ++ mark_join (occurs cell_2_2) text_size_16 free_text_size
                   (seg2 :: segs)).
      change (size_16_join (occurs action_button a) (seg :: seg2 :: segs))
        with (if occurs cell_2_2 seg
              then seg ++ free_text_size
                   ++ size_16_join
                        (occurs action_button a || occurs action_button seg)
                        (seg2 :: segs)
              else seg
                   ++ (if occurs action_button a || occurs action_button seg
                       then button_text_size else text_size_16)
                   ++ size_16_join false (seg2 :: segs)).
      destruct (occurs cell_2_2 seg).
      * replace (a ++ seg ++ free_text_size
                 ++ mark_join (occurs cell_2_2) text_size_16 free_text_size
                      (seg2 :: segs))
          with ((a ++ seg ++ free_text_size)
                ++ mark_join (occurs cell_2_2) text_size_16 free_text_size
                     (seg2 :: segs))
          by (now rewrite <- !app_assoc).
        rewrite (IH Hrest _ (clean_free _ _ Ha Hseg)).
        rewrite <- !app_assoc. do 3 f_equal.
        destruct Ha as [_ Hab]. rewrite Hab.
        rewrite <- (app_nil_r free_text_size).
        rewrite (occurs_through action_button free_text_size seg [])
          by (discriminate || reflexivity).
        change (occurs action_button []) with false.
        now rewrite orb_false_r.
      * replace (a ++ seg ++ text_size_16
                 ++ mark_join (occurs cell_2_2) text_size_16 free_text_size
                      (seg2 :: segs))
          with ((a ++ seg) ++ text_size_16
                ++ mark_join (occurs cell_2_2) text_size_16 free_text_size
                     (seg2 :: segs))
          by (now rewrite <- !app_assoc).
        rewrite rule4_text, (lazy_cut _ _ _ _ rule4_lazy).
        rewrite (lazy_segment _ _ _ _ rule4_lazy) by (now apply Ha).
        rewrite has_id_literal. destruct Ha as [_ Hab]. rewrite Hab.
        rewrite <- rule4_text.
        pose proof (IH Hrest [] clean_nil) as H0. cbn [app] in H0.
        change (occurs action_button []) with false in H0. rewrite H0.
        now rewrite <- !app_assoc.
Qed.

(** X14. Rules 3 and 4, one after the other, on any text. Cut the text at
    its [16sp] text sizes.  A text size that follows a segment with the
    [cell_2_2] identifier becomes the reference to [bingo_free_text_size],
    whether or not the [actionButton] identifier stands there too, and the
    button's identifier then waits for the next text size.  Any other text
    size becomes the reference to [button_text_size] when the
    [actionButton] identifier stands in its segment or is still waiting,
    and is written back when not. *)
Theorem rules_3_4_share_text_sizes (content : text) :
  exists segs,
    content = join text_size_16 segs /\
    Forall (fun seg => find text_size_16 seg = None) segs /\
    length segs = S (occurrences text_size_16 content) /\
    (c3 <- apply_rule Rule3 content ;; apply_rule Rule4 c3) =
      Ok (size_16_join false segs).
Proof.
  destruct (cut_at text_size_16 content ltac:(discriminate) eq_refl)
    as (segs & Hd & Hall & Hn).
  exists segs. repeat split; try assumption.
  rewrite !apply_rule_ok. cbn [bind]. rewrite apply_rule_ok. f_equal.
  rewrite rule3_text. rewrite Hd at 1.
  rewrite (lazy_mark_join _ _ _ _ rule3_lazy) by assumption.
  rewrite (mark_join_ext _ (occurs cell_2_2)) by apply has_id_literal.
  pose proof (rule4_after_rule3 segs Hall [] clean_nil) as H. cbn [app] in H.
  exact H.
Qed.

(** ** Runs of the script *)

(** X11. On a file that is there, readable, writable and decodable the run
    completes: the file holds the encoding of the transformed text, with
    the permissions it had, and the confirmation is printed after what had
    been printed before. *)
Theorem main_updates_file (w : world) (f : file) (content : text) :
  layout_file w = Some f ->
  f_readable f = true -> f_writable f = true ->
  decode (f_data f) = Some content ->
  exists content',
    transform content = Ok content' /\
    main w = (updated w f content', Ok tt).
Proof.
  intros Hf Hr Hw Hd. eexists. split; [apply transform_ok|].
  rewrite main_eq. unfold read_layout. rewrite Hf, Hr, Hd, transform_ok.
  unfold write_layout, print, updated. rewrite Hf, Hw. reflexivity.
Qed.

(** X12. What a run raises tells what was wrong, and the checks come in
    this order: no file, [FileNotFoundError]; a file that cannot be read,
    [PermissionError]; bytes that do not decode, [UnicodeDecodeError]; a
    file that was read and cannot be written, [PermissionError].  In each
    case the world is as it was.  A run completes only on a file that is
    readable, decodable and writable. *)
Theorem main_raises_by_cause (w : world) :
  (layout_file w = None -> main w = (w, Raise FileNotFoundError)) /\
  (forall f, layout_file w = Some f -> f_readable f = false ->
             main w = (w, Raise PermissionError)) /\
  (forall f, layout_file w = Some f -> f_readable f = true ->
             decode (f_data f) = None ->
             main w = (w, Raise UnicodeDecodeError)) /\
  (forall f content, layout_file w = Some f -> f_readable f = true ->
             decode (f_data f) = Some content -> f_writable f = false ->
             main w = (w, Raise PermissionError)) /\
  (forall w' u, main w = (w', Ok u) ->
             exists f content,
               layout_file w = Some f /\ f_readable f = true /\
               f_writable f = true /\ decode (f_data f) = Some content).
Proof.
  rewrite main_eq. unfold read_layout. repeat split.
  - intros H. now rewrite H.
  - intros f H Hr. now rewrite H, Hr.
  - intros f H Hr Hd. now rewrite H, Hr, Hd.
  - intros f content H Hr Hd Hw. rewrite H, Hr, Hd, transform_ok.
    unfold write_layout. now rewrite H, Hw.
  - intros w' u. destruct (layout_file w) as [f|] eqn:Hf; [|discriminate].
    destruct (f_readable f) eqn:Hr; [|discriminate].
    destruct (decode (f_data f)) as [content|] eqn:Hd; [|discriminate].
    rewrite transform_ok. unfold write_layout. rewrite Hf.
    destruct (f_writable f) eqn:Hw; [|discriminate].
    intros _. exists f, content. auto.
Qed.

(** X13. The script writes and prints whether or not a rule found
    something.  On a writable file whose text leaves the five rules dormant
    and is encoded back to the bytes it was decoded from, the run completes
    and the world differs from the one before by the printed confirmation
    only. *)
Theorem main_keeps_converted_file (w : world) (f : file) (content : text) :
  layout_file w = Some f ->
  f_readable f = true -> f_writable f = true ->
  decode (f_data f) = Some content ->
  encode content = f_data f ->
  (forall i, dormant i content) ->
  main w = ({| layout_file := layout_file w;
               stdout := stdout w ++ [confirmation] |}, Ok tt).
Proof.
  intros Hf Hr Hw Hd He Hdorm.
  rewrite main_eq. unfold read_layout. rewrite Hf, Hr, Hd, transform_ok.
  rewrite (dormant_rule_text Rule1), (dormant_rule_text Rule2),
    (dormant_rule_text Rule3), (dormant_rule_text Rule4),
    (dormant_rule_text Rule5) by apply Hdorm.
  unfold write_layout, print. rewrite Hf, Hw, He. cbn [layout_file stdout].
  destruct f as [d r wr]. simpl in *. now subst.
Qed.

(** X17. A second run. After a run that completed, on a file whose new
    text is read back as it was written, a second run completes too: the
    file then holds the encoding of the transform of the first output (the
    first output itself, when it leaves the five rules dormant), and the
    confirmation has been printed twice. *)
Theorem main_second_run (w : world) (f : file) (content content' : text) :
  layout_file w = Some f ->
  f_readable f = true -> f_writable f = true ->
  decode (f_data f) = Some content ->
  transform content = Ok content' ->
  decode (encode content') = Some content' ->
  exists w1 content'',
    main w = (w1, Ok tt) /\
    transform content' = Ok content'' /\
    ((forall i, dormant i content') -> content'' = content') /\
    main w1 =
      ({| layout_file := Some {| f_data := encode content'';
                                 f_readable := true; f_writable := true |};
          stdout := stdout w ++ [confirmation; confirmation] |}, Ok tt).
Proof.
  intros Hf Hr Hw Hd Ht Hrt.
  exists (updated w f content'),
         (rule_text Rule5 (rule_text Rule4 (rule_text Rule3
            (rule_text Rule2 (rule_text Rule1 content'))))).
  split; [|split; [apply transform_ok|split]].
  - rewrite main_eq. unfold read_layout. rewrite Hf, Hr, Hd, Ht.
    unfold write_layout, print, updated. rewrite Hf, Hw. reflexivity.
  - intros Hdorm.
    now rewrite (dormant_rule_text Rule1), (dormant_rule_text Rule2),
      (dormant_rule_text Rule3), (dormant_rule_text Rule4),
      (dormant_rule_text Rule5) by apply Hdorm.
  - rewrite main_eq. unfold read_layout, updated. cbn [layout_file f_readable f_data].
    rewrite Hr, Hrt, transform_ok.
    unfold write_layout, print. cbn [layout_file f_writable f_readable stdout].
    now rewrite ?Hr, <- app_assoc.
Qed.

(** * The transform on a layout of fillers and tokens *)

(** ** A scanning rule over items *)

Lemma document_cons (it : item) (items : list item) (rest : text) :
  document (it :: items) rest = item_text it ++ document items rest.
Proof. unfold document. simpl. now rewrite <- app_assoc. Qed.

Lemma find_clear_app (L acc y : text) :
  clear_of L acc -> find L y = None -> find L (acc ++ y) = None.
Proof.
  intros Ha Hy. apply find_none_intro. intros o.
  destruct (Nat.lt_ge_cases o (length acc)) as [H|H].
  - rewrite skipn_app_le by lia. now apply Ha.
  - replace o with (length acc + (o - length acc)) by lia.
    rewrite skipn_app_ge. now apply find_none.
Qed.

Lemma clear_of_nil (K : text) : clear_of K [].
Proof. intros o z Ho. simpl in Ho. lia. Qed.

Lemma hd_clear_nil (hd : text -> option nat) : hd_clear hd [].
Proof. intros o z Ho. simpl in Ho. lia. Qed.

Lemma hd_clear_app (hd : text -> option nat) (x y : text) :
  hd_clear hd x -> hd_clear hd y -> hd_clear hd (x ++ y).
Proof.
  intros Hx Hy o z Ho. rewrite length_app in Ho.
  destruct (Nat.lt_ge_cases o (length x)) as [H|H].
  - rewrite skipn_app_le, <- app_assoc by lia. now apply Hx.
  - replace o with (length x + (o - length x)) by lia.
    rewrite skipn_app_ge. apply Hy. lia.
Qed.

Lemma has_id_app_r (hd : text -> option nat) (x y : text) :
  has_id hd y = true -> has_id hd (x ++ y) = true.
Proof.
  intros H. destruct (has_id_true _ _ H) as (o & n & Ho).
  apply (has_id_intro _ _ (length x + o) n). now rewrite skipn_app_ge.
Qed.

Section Lazy_scan.

Variable p : pattern.
Variable hd : text -> option nat.
Variables L R : text.
Hypothesis spec : lazy_rule p hd L.

Variable role_of : token -> role.
Variable Rt : token.
Hypothesis Rt_text : token_text Rt = R.

Lemma has_id_app_l (x y : text) :
  has_id hd x = true -> has_id hd (x ++ y) = true.
Proof.
  intros H. destruct (has_id_true _ _ H) as (o & n & Ho).
  pose proof (hd_bound _ _ _ spec _ _ Ho) as Hb.
  assert (Hlt : o < length x).
  { destruct (Nat.lt_ge_cases o (length x)) as [H1|H1]; [assumption|].
    rewrite skipn_all2 in Hb by assumption. simpl in Hb. lia. }
  apply (has_id_intro _ _ o n). rewrite skipn_app_le by lia.
  now apply (hd_extend _ _ _ spec).
Qed.

Lemma has_id_none (x q : text) :
  hd_clear hd x -> (forall o, hd (skipn o q) = None) ->
  has_id hd (x ++ q) = false.
Proof.
  intros Hx Hq. destruct (has_id hd (x ++ q)) eqn:E; [exfalso|reflexivity].
  destruct (has_id_true _ _ E) as (o & n & Ho).
  destruct (Nat.lt_ge_cases o (length x)) as [H|H].
  - rewrite skipn_app_le in Ho by lia. rewrite Hx in Ho by assumption.
    discriminate.
  - replace o with (length x + (o - length x)) in Ho by lia.
    rewrite skipn_app_ge, Hq in Ho. discriminate.
Qed.

(** The rule on the items that follow [acc], the text since the last
    occurrence of the literal. *)
Lemma lazy_scan_from (items : list item) (rest : text) :
  Forall (scan_ok hd L role_of) items ->
  find L rest = None ->
  forall (acc : text) (armed : bool),
    clear_of L acc ->
    (if armed then has_id hd acc = true else hd_clear hd acc) ->
    lazy_sub p R (acc ++ document items rest) =
    acc ++ document (scan role_of Rt armed items) rest.
Proof.
  intros Hall Hrest. induction Hall as [|it items Hit Hall IH];
    intros acc armed Hacc Harm.
  - unfold document. simpl. apply (lazy_no_L _ _ _ R spec).
    now apply find_clear_app.
  - rewrite document_cons. cbn [scan]. unfold scan_ok in Hit.
    destruct (role_of (what it)) eqn:Hrole.
    + destruct Hit as [HL Hhd]. rewrite document_cons, !app_assoc.
      apply IH; [now apply clear_of_app|].
      destruct armed; [now apply has_id_app_l|now apply hd_clear_app].
    + destruct Hit as [HL Hhd]. rewrite document_cons, !app_assoc.
      apply IH; [now apply clear_of_app|]. now apply has_id_app_r.
    + destruct Hit as (Ht & Hq & Hhd). unfold item_text. rewrite Ht.
      replace (acc ++ (before it ++ L) ++ document items rest)
        with ((acc ++ before it) ++ L ++ document items rest)
        by (now rewrite <- !app_assoc).
      rewrite (lazy_cut _ _ _ R spec).
      rewrite (lazy_segment _ _ _ R spec) by (now apply find_clear_app).
      pose proof (IH [] false (clear_of_nil L) (hd_clear_nil hd)) as H0.
      cbn [app] in H0. rewrite H0, document_cons.
      assert (Hflag : has_id hd (acc ++ before it) = armed).
      { destruct armed; [now apply has_id_app_l|now apply has_id_none]. }
      rewrite Hflag.
      destruct armed; unfold item_text; cbn [before what];
        now rewrite ?Rt_text, ?Ht, <- !app_assoc.
Qed.

Lemma lazy_scan (items : list item) (rest : text) :
  Forall (scan_ok hd L role_of) items ->
  find L rest = None ->
  lazy_sub p R (document items rest) =
  document (scan role_of Rt false items) rest.
Proof.
  intros Hall Hrest.
  apply (lazy_scan_from items rest Hall Hrest [] false);
    [apply clear_of_nil|apply hd_clear_nil].
Qed.

End Lazy_scan.

(** ** A rule that replaces every match, over items *)

Section Fixed_swap.

Variable p : pattern.
Variable len : text -> option nat.
Variable Rm : text.
Hypothesis spec : fixed_rule p len.

Variable is_hit : token -> bool.
Variable Rt : token.
Hypothesis Rt_text : token_text Rt = Rm.

Lemma fixed_swap (items : list item) (rest : text) :
  Forall (swap_ok len is_hit) items ->
  (forall o, len (skipn o rest) = None) ->
  fixed_sub p Rm (document items rest) =
  document (swap is_hit Rt items) rest.
Proof.
  intros Hall Hrest. induction Hall as [|it items Hit Hall IH].
  - unfold document. simpl. now apply (fixed_keep _ _ Rm spec).
  - cbn [swap map]. fold (swap is_hit Rt items).
    rewrite !document_cons. unfold swap_ok in Hit.
    destruct (is_hit (what it)).
    + destruct Hit as [Hhit Hq]. unfold item_text at 1.
      rewrite <- app_assoc.
      rewrite (fixed_pass _ _ Rm spec).
      * rewrite (fixed_hit _ _ Rm spec _ _ (Hhit _)).
        rewrite skipn_app_all, IH. unfold item_text. cbn [before what].
        now rewrite Rt_text, <- app_assoc.
      * intros o Ho. rewrite app_assoc. now apply Hq.
    + rewrite (fixed_pass _ _ Rm spec), IH; [reflexivity|].
      intros o Ho. now apply Hit.
Qed.

End Fixed_swap.

(** ** Where a literal can start in a layout *)

(** A literal that is not in [q] starts nowhere in [q] when what follows
    starts with [P] and [P] cannot stand over the literal's tail. *)
Lemma no_straddle (K q P z : text) :
  find K q = None -> apart P (tl K) = true ->
  forall o, o < length q -> strip K (skipn o (q ++ P ++ z)) = None.
Proof.
  intros Hq HP o Ho.
  destruct (strip K (skipn o (q ++ P ++ z))) as [r|] eqn:E; [exfalso|reflexivity].
  destruct (Nat.le_gt_cases (o + length K) (length q)) as [H|H].
  - apply strip_skipn_app_inv in E; [|assumption]. destruct E as [r' E].
    rewrite (find_none _ _ o Hq) in E. discriminate.
  - assert (Hin : 0 < length q - o < length K) by lia.
    pose proof (apart_strip_tl P K _ _ _ HP E Hin) as HH.
    rewrite skipn_skipn in HH.
    replace (length q - o + o) with (length q) in HH by lia.
    rewrite skipn_app_all, strip_app in HH. discriminate.
Qed.

Lemma head_split (t : token) : exists t', token_text t = head t ++ t'.
Proof.
  destruct t as [r c| | | | |w1 w2|i]; cbn [head token_text];
    try (exists []; now rewrite app_nil_r).
  - unfold cell_id, numbered_id. eauto.
  - unfold margin_block, block. eauto.
Qed.

Ltac each_sought H :=
  unfold sought, stems in H; cbn [In] in H;
  destruct H as [<-|[<-|[<-|[<-|[<-|[<-|[<-|[]]]]]]]].

Ltac each_token t :=
  destruct t as [row col| | | | |w1 w2|i]; [| | | | | |destruct i].

Lemma token_before (K : text) (t : token) (q z : text) :
  In K sought -> find K q = None ->
  forall o, o < length q -> strip K (skipn o (q ++ token_text t ++ z)) = None.
Proof.
  intros HK Hq o Ho. destruct (head_split t) as [t' ->].
  rewrite <- app_assoc. apply no_straddle; [assumption| |assumption].
  each_sought HK; each_token t; reflexivity.
Qed.

Lemma token_inside (K : text) (t : token) (z : text) (o : nat) :
  In K sought -> token_wf t -> 0 < o < length (token_text t) ->
  strip K (skipn o (token_text t ++ z)) = None.
Proof.
  intros HK Hwf Ho.
  assert (Hlit : forall l, l = token_text t -> apart K (tl l) = true ->
                           strip K (skipn o (token_text t ++ z)) = None).
  { intros l -> Hl. apply (apart_strip_tl K (token_text t) _ o z);
      [assumption|apply strip_app|assumption]. }
  destruct t as [r c| | | | |w1 w2|i].
  - destruct Hwf as [Hr Hc]. cbn [token_text] in *.
    assert (HK' : apart K (tl cell_prefix) = true)
      by (each_sought HK; reflexivity).
    assert (Ka : exists y, K = 97%N :: y)
      by (exists (tl K); each_sought HK; reflexivity).
    destruct Ka as [y Ka]. rewrite Ka in *.
    apply (strip_in_numbered cell_prefix 95%N 34%N eq_refl eq_refl 97%N eq_refl
             ltac:(discriminate) ltac:(discriminate) y _
             (length (cell_id r c))).
    + intros r0 Hr0 Ho'.
      apply (apart_strip_tl _ cell_prefix _ o r0); [assumption|assumption|lia].
    + now apply cell_id_matches.
    + lia.
  - apply (Hlit action_button eq_refl). each_sought HK; reflexivity.
  - apply (Hlit text_size_18 eq_refl). each_sought HK; reflexivity.
  - apply (Hlit text_size_16 eq_refl). each_sought HK; reflexivity.
  - apply (Hlit margin_2 eq_refl). each_sought HK; reflexivity.
  - destruct Hwf as [H1 H2]. cbn [token_text] in *.
    assert (HS : apart K (tl margin_start_32) = true)
      by (each_sought HK; reflexivity).
    assert (HE : apart K margin_end_32 = true)
      by (each_sought HK; reflexivity).
    assert (HB : apart K margin_bottom_24 = true)
      by (each_sought HK; reflexivity).
    assert (Ka : exists y, K = 97%N :: y)
      by (exists (tl K); each_sought HK; reflexivity).
    destruct Ka as [y Ka]. rewrite Ka in *.
    apply (margin_block_clear 97%N y _ (length (margin_block w1 w2)) o);
      try assumption; [reflexivity|].
    now apply margin_block_matches.
  - apply (Hlit (rule_literal i) eq_refl).
    each_sought HK; destruct i; reflexivity.
Qed.

Lemma token_at (K : text) (t : token) (z : text) :
  agree K (head t) = false -> strip K (token_text t ++ z) = None.
Proof.
  intros H. destruct (strip K (token_text t ++ z)) as [r|] eqn:E; [|reflexivity].
  destruct (head_split t) as [t' Et]. rewrite Et, <- app_assoc in E.
  rewrite (strip_agree K (head t) _ _ _ E (strip_app _ _)) in H. discriminate.
Qed.

(** A literal that is neither in the filler of an item nor at the start of
    its token starts nowhere in the item, whatever follows. *)
Lemma item_clear (K : text) (it : item) :
  In K sought -> find K (before it) = None -> token_wf (what it) ->
  (forall z, strip K (token_text (what it) ++ z) = None) ->
  clear_of K (item_text it).
Proof.
  intros HK Hq Hwf H0 o z Ho. unfold item_text in *.
  rewrite length_app in Ho.
  destruct (Nat.lt_ge_cases o (length (before it))) as [H|H].
  - rewrite <- skipn_app_le by (rewrite length_app; lia).
    rewrite <- app_assoc. now apply token_before.
  - replace o with (length (before it) + (o - length (before it))) by lia.
    rewrite skipn_app_ge.
    destruct (o - length (before it)) as [|o'] eqn:Eo; [apply H0|].
    rewrite <- skipn_app_le by lia.
    apply token_inside; [assumption|assumption|lia].
Qed.

Lemma find_longer (P b q : text) : find P q = None -> find (P ++ b) q = None.
Proof.
  intros H. apply find_none_intro. intros o. apply strip_app_None.
  now apply find_none.
Qed.

Lemma plain_sought (q K : text) : plain q -> In K sought -> find K q = None.
Proof.
  intros Hq HK. unfold plain in Hq. rewrite Forall_forall in Hq.
  destruct HK as [<-|HK]; [|now apply Hq].
  change cell_2_2 with (cell_prefix ++ chars "2_2" ++ [dquote]).
  apply find_longer. apply Hq. unfold stems. cbn [In]. auto.
Qed.

(** *** The free cell among the cells *)

Lemma is_two_eq (t : text) : is_two t = true -> t = [50%N].
Proof.
  destruct t as [|d [|d' t]]; simpl; try discriminate.
  intros H. apply N.eqb_eq in H. now subst.
Qed.

Lemma free_cell_id (row col : text) :
  free row col = true -> cell_id row col = cell_2_2.
Proof.
  intros H. apply andb_prop in H. destruct H as [Hr Hc].
  apply is_two_eq in Hr, Hc. subst. reflexivity.
Qed.

Lemma strip_app_app (P x y : text) : strip (P ++ x) (P ++ y) = strip x y.
Proof. induction P as [|a P IH]; simpl; [reflexivity|]. now rewrite N.eqb_refl. Qed.

Lemma cell_not_free (row col z : text) :
  number row -> number col -> free row col = false ->
  strip cell_2_2 (cell_id row col ++ z) = None.
Proof.
  intros [Hr0 Hr] [Hc0 Hc] Hf.
  change cell_2_2 with (cell_prefix ++ [50; 95; 50; 34]%N).
  unfold cell_id, numbered_id. rewrite <- !app_assoc, strip_app_app.
  destruct row as [|d row']; [congruence|]. cbn [app strip].
  destruct (N.eqb_spec d 50) as [->|]; [|reflexivity].
  destruct row' as [|d' row'']; cbn [app strip].
  - rewrite N.eqb_refl.
    destruct col as [|e col']; [congruence|]. cbn [app strip].
    destruct (N.eqb_spec e 50) as [->|]; [|reflexivity].
    destruct col' as [|e' col'']; cbn [app strip].
    + discriminate Hf.
    + destruct (N.eqb_spec e' 34) as [->|]; [|reflexivity].
      simpl in Hc. discriminate.
  - destruct (N.eqb_spec d' 95) as [->|]; [|reflexivity].
    simpl in Hr. discriminate.
Qed.

(** ** The five rules over items *)

Ltac in_sought := unfold sought, stems; cbn [In]; auto 10.

Ltac clear_item K :=
  apply (item_clear K);
  [ in_sought
  | apply plain_sought; [assumption|in_sought]
  | assumption
  | intros ?; apply token_at; reflexivity ].

Lemma hd1_clear (x : text) : clear_of cell_prefix x -> hd_clear cell_id_len x.
Proof.
  intros H o z Ho. unfold cell_id_len, numbered_id_len. now rewrite H.
Qed.

Lemma literal_id_clear (ID x : text) :
  clear_of ID x -> hd_clear (literal_id ID) x.
Proof. intros H o z Ho. unfold literal_id. now rewrite H. Qed.

Lemma rule1_scan_ok (it : item) :
  item_wf it -> scan_ok cell_id_len text_size_18 role1 it.
Proof.
  intros [Hq Hwf]. unfold scan_ok.
  destruct it as [q t]. cbn [before what] in *.
  each_token t; cbn [role1];
    try (split; [clear_item text_size_18|apply hd1_clear; clear_item cell_prefix]).
  - split; [clear_item text_size_18|].
    apply (has_id_intro _ _ (length q) (length (cell_id row col))).
    unfold item_text. cbn [before what token_text]. rewrite skipn_app_all.
    rewrite <- (app_nil_r (cell_id row col)) at 1.
    destruct Hwf. now apply cell_id_matches.
  - repeat split.
    + apply plain_sought; [assumption|in_sought].
    + apply cell_id_len_absent. apply plain_sought; [assumption|in_sought].
Qed.

Lemma rule3_scan_ok (it : item) :
  item_wf it -> scan_ok (literal_id cell_2_2) text_size_16 role3 it.
Proof.
  intros [Hq Hwf]. unfold scan_ok.
  destruct it as [q t]. cbn [before what] in *.
  each_token t; cbn [role3];
    try (split; [clear_item text_size_16
                |apply literal_id_clear; clear_item cell_2_2]).
  - destruct (free row col) eqn:F.
    + split; [clear_item text_size_16|].
      apply (has_id_intro _ _ (length q) (length cell_2_2)).
      unfold item_text. cbn [before what token_text].
      rewrite skipn_app_all, (free_cell_id _ _ F).
      unfold literal_id. now rewrite strip_self.
    + split; [clear_item text_size_16|].
      apply literal_id_clear. apply (item_clear cell_2_2);
        [in_sought|apply plain_sought; [assumption|in_sought]|assumption|].
      intros z. destruct Hwf. now apply cell_not_free.
  - repeat split.
    + apply plain_sought; [assumption|in_sought].
    + apply literal_id_absent. apply plain_sought; [assumption|in_sought].
Qed.

Lemma rule4_scan_ok (it : item) :
  item_wf it -> scan_ok (literal_id action_button) text_size_16 role4 it.
Proof.
  intros [Hq Hwf]. unfold scan_ok.
  destruct it as [q t]. cbn [before what] in *.
  each_token t; cbn [role4];
    try (split; [clear_item text_size_16
                |apply literal_id_clear; clear_item action_button]).
  - split; [clear_item text_size_16|].
    apply (has_id_intro _ _ (length q) (length action_button)).
    unfold item_text. cbn [before what token_text].
    rewrite skipn_app_all. unfold literal_id. now rewrite strip_self.
  - repeat split.
    + apply plain_sought; [assumption|in_sought].
    + apply literal_id_absent. apply plain_sought; [assumption|in_sought].
Qed.

Lemma literal_len_clear (ID x : text) :
  clear_of ID x ->
  forall o z, o < length x -> literal_id ID (skipn o (x ++ z)) = None.
Proof.
  intros H o z Ho. unfold literal_id.
  rewrite skipn_app_le by lia. now rewrite H.
Qed.

Lemma block_len_clear (x : text) :
  clear_of margin_start_32 x ->
  forall o z, o < length x -> margin_block_len (skipn o (x ++ z)) = None.
Proof.
  intros H o z Ho. unfold margin_block_len, block_len.
  rewrite skipn_app_le by lia. now rewrite H.
Qed.

Lemma rule2_swap_ok (it : item) :
  item_wf it -> swap_ok (literal_id margin_2) hit2 it.
Proof.
  intros [Hq Hwf]. unfold swap_ok.
  destruct it as [q t]. cbn [before what] in *.
  each_token t; cbn [hit2];
    try (apply literal_len_clear; clear_item margin_2).
  split.
  - intros z. unfold literal_id. cbn [token_text]. now rewrite strip_app.
  - intros o z Ho. unfold literal_id, item_text. cbn [before what].
    rewrite <- app_assoc, token_before;
      [reflexivity|in_sought|apply plain_sought; [assumption|in_sought]|assumption].
Qed.

Lemma rule5_swap_ok (it : item) :
  item_wf it -> swap_ok margin_block_len hit5 it.
Proof.
  intros [Hq Hwf]. unfold swap_ok.
  destruct it as [q t]. cbn [before what] in *.
  each_token t; cbn [hit5];
    try (apply block_len_clear; clear_item margin_start_32).
  split.
  - intros z. cbn [token_text]. destruct Hwf. now apply margin_block_matches.
  - intros o z Ho. unfold margin_block_len, block_len, item_text.
    cbn [before what].
    rewrite <- app_assoc, token_before;
      [reflexivity|in_sought|apply plain_sought; [assumption|in_sought]|assumption].
Qed.

Lemma scan_wf (role_of : token -> role) (Rt : token) (items : list item) :
  token_wf Rt -> Forall item_wf items ->
  forall armed, Forall item_wf (scan role_of Rt armed items).
Proof.
  intros HR Hall. induction Hall as [|it items [Hq Hwf] Hall IH]; intros armed.
  - constructor.
  - cbn [scan]. destruct (role_of (what it)); try (constructor; [now split|apply IH]).
    constructor; [|apply IH]. destruct armed; now split.
Qed.

Lemma swap_wf (is_hit : token -> bool) (Rt : token) (items : list item) :
  token_wf Rt -> Forall item_wf items -> Forall item_wf (swap is_hit Rt items).
Proof.
  intros HR Hall. induction Hall as [|it items [Hq Hwf] Hall IH].
  - constructor.
  - cbn [swap map]. constructor; [|exact IH].
    destruct (is_hit (what it)); now split.
Qed.

Lemma plain_find (rest K : text) : plain rest -> In K stems -> find K rest = None.
Proof. intros H HK. unfold plain in H. rewrite Forall_forall in H. now apply H. Qed.

Lemma rule1_items (items : list item) (rest : text) :
  Forall item_wf items -> plain rest ->
  rule_text Rule1 (document items rest) =
  document (scan role1 (Ref Rule1) false items) rest.
Proof.
  intros Hall Hrest. rewrite rule1_text.
  apply (lazy_scan _ _ _ _ rule1_lazy role1 (Ref Rule1) eq_refl).
  - eapply Forall_impl; [apply rule1_scan_ok|assumption].
  - apply plain_find; [assumption|unfold stems; cbn [In]; auto 10].
Qed.

Lemma rule3_items (items : list item) (rest : text) :
  Forall item_wf items -> plain rest ->
  rule_text Rule3 (document items rest) =
  document (scan role3 (Ref Rule3) false items) rest.
Proof.
  intros Hall Hrest. rewrite rule3_text.
  apply (lazy_scan _ _ _ _ rule3_lazy role3 (Ref Rule3) eq_refl).
  - eapply Forall_impl; [apply rule3_scan_ok|assumption].
  - apply plain_find; [assumption|unfold stems; cbn [In]; auto 10].
Qed.

Lemma rule4_items (items : list item) (rest : text) :
  Forall item_wf items -> plain rest ->
  rule_text Rule4 (document items rest) =
  document (scan role4 (Ref Rule4) false items) rest.
Proof.
  intros Hall Hrest. rewrite rule4_text.
  apply (lazy_scan _ _ _ _ rule4_lazy role4 (Ref Rule4) eq_refl).
  - eapply Forall_impl; [apply rule4_scan_ok|assumption].
  - apply plain_find; [assumption|unfold stems; cbn [In]; auto 10].
Qed.

Lemma rule2_items (items : list item) (rest : text) :
  Forall item_wf items -> plain rest ->
  rule_text Rule2 (document items rest) =
  document (swap hit2 (Ref Rule2) items) rest.
Proof.
  intros Hall Hrest. rewrite rule2_text.
  apply (fixed_swap _ _ _ rule2_fixed hit2 (Ref Rule2) eq_refl).
  - eapply Forall_impl; [apply rule2_swap_ok|assumption].
  - apply literal_id_absent.
    apply plain_find; [assumption|unfold stems; cbn [In]; auto 10].
Qed.

Lemma rule5_items (items : list item) (rest : text) :
  Forall item_wf items -> plain rest ->
  rule_text Rule5 (document items rest) =
  document (swap hit5 (Ref Rule5) items) rest.
Proof.
  intros Hall Hrest. rewrite rule5_text.
  apply (fixed_swap _ _ _ rule5_fixed hit5 (Ref Rule5) eq_refl).
  - eapply Forall_impl; [apply rule5_swap_ok|assumption].
  - apply margin_block_len_absent.
    apply plain_find; [assumption|unfold stems; cbn [In]; auto 10].
Qed.

(** The single pass is the five rules over the items, one after the
    other. *)
Lemma convert_steps (items : list item) :
  forall cell free_cell button,
    convert cell free_cell button items =
    swap hit5 (Ref Rule5)
      (scan role4 (Ref Rule4) button
         (scan role3 (Ref Rule3) free_cell
            (swap hit2 (Ref Rule2)
               (scan role1 (Ref Rule1) cell items)))).
Proof.
  induction items as [|[q t] items IH]; intros cell free_cell button;
    [reflexivity|].
  destruct t as [row col| | | | |w1 w2|i]; cbn -[free]; rewrite ?IH.
  - destruct (free row col); cbn; rewrite ?orb_true_r, ?orb_false_r;
      reflexivity.
  - reflexivity.
  - destruct cell; reflexivity.
  - destruct free_cell; cbn; [reflexivity|]. destruct button; reflexivity.
  - reflexivity.
  - reflexivity.
  - reflexivity.
Qed.

(** X16. The transform on a layout read as fillers and tokens. The tokens
    are the texts the script names: cell identifiers, the button's
    identifier, [18sp] and [16sp] text sizes, [2dp] margins, blocks of the
    three margins, and the five references; a filler is any text without
    the literals a pattern starts with or looks for.  On every such layout
    the five rules amount to one pass from left to right: an [18sp] text
    size becomes the cell reference when a cell identifier has been passed
    since the last one; a [16sp] text size becomes the free cell's
    reference when the identifier of cell 2,2 is waiting, the button's when
    only the button's identifier is, and stays when neither is; every [2dp]
    margin and every block becomes its reference; fillers, identifiers and
    references are written back as they are. *)
Theorem transform_by_tokens (items : list item) (rest : text) :
  Forall item_wf items -> plain rest ->
  transform (document items rest) =
  Ok (document (convert false false false items) rest).
Proof.
  intros Hall Hrest. rewrite transform_ok, convert_steps. f_equal.
  assert (H1 : Forall item_wf (scan role1 (Ref Rule1) false items))
    by (now apply scan_wf).
  assert (H2 : Forall item_wf
                 (swap hit2 (Ref Rule2) (scan role1 (Ref Rule1) false items)))
    by (now apply swap_wf).
  assert (H3 : Forall item_wf
                 (scan role3 (Ref Rule3) false
                    (swap hit2 (Ref Rule2)
                       (scan role1 (Ref Rule1) false items))))
    by (now apply scan_wf).
  assert (H4 : Forall item_wf
                 (scan role4 (Ref Rule4) false
                    (scan role3 (Ref Rule3) false
                       (swap hit2 (Ref Rule2)
                          (scan role1 (Ref Rule1) false items)))))
    by (now apply scan_wf).
  rewrite (rule1_items _ _ Hall Hrest), (rule2_items _ _ H1 Hrest),
    (rule3_items _ _ H2 Hrest), (rule4_items _ _ H3 Hrest).
  now apply rule5_items.
Qed.

(** * The second pass *)

(** ** A scanning rule lengthens the text, or leaves it as it is *)

Lemma mark_join_length (f : text -> bool) (L R : text) (segs : list text) :
  length L <= length R ->
  length (mark_join f L R segs) =
  length (join L segs)
  + (length R - length L) * length (filter f (removelast segs)).
Proof.
  intros HLR. induction segs as [|seg segs IH]; [simpl; lia|].
  destruct segs as [|seg2 segs]; [simpl; lia|].
  change (mark_join f L R (seg :: seg2 :: segs))
    with (seg ++ (if f seg then R else L) ++ mark_join f L R (seg2 :: segs)).
  change (join L (seg :: seg2 :: segs))
    with (seg ++ L ++ join L (seg2 :: segs)).
  change (removelast (seg :: seg2 :: segs))
    with (seg :: removelast (seg2 :: segs)).
  cbn [filter]. rewrite !length_app, IH.
  destruct (f seg); cbn [length]; nia.
Qed.

Lemma mark_join_none (f : text -> bool) (L R : text) (segs : list text) :
  Forall (fun seg => f seg = false) (removelast segs) ->
  mark_join f L R segs = join L segs.
Proof.
  induction segs as [|seg segs IH]; [reflexivity|].
  destruct segs as [|seg2 segs]; [reflexivity|].
  change (removelast (seg :: seg2 :: segs))
    with (seg :: removelast (seg2 :: segs)).
  intros H. inversion H as [|? ? Hseg Hrest]; subst.
  change (mark_join f L R (seg :: seg2 :: segs))
    with (seg ++ (if f seg then R else L) ++ mark_join f L R (seg2 :: segs)).
  change (join L (seg :: seg2 :: segs))
    with (seg ++ L ++ join L (seg2 :: segs)).
  now rewrite Hseg, IH.
Qed.

Lemma filter_nil_forall (f : text -> bool) (l : list text) :
  length (filter f l) = 0 -> Forall (fun x => f x = false) l.
Proof.
  induction l as [|x l IH]; simpl; [constructor|].
  destruct (f x) eqn:E; [discriminate|]. intros H. constructor; auto.
Qed.

Section Lazy_length.

Variable p : pattern.
Variable hd : text -> option nat.
Variables L R : text.
Hypothesis spec : lazy_rule p hd L.
Hypothesis L_apart : apart L (tl L) = true.
Hypothesis L_shorter : length L < length R.

(** The rule leaves a text cut at the literal as it is exactly when no piece
    but the last holds an identifier. *)
Lemma lazy_unchanged_iff (segs : list text) :
  Forall (fun seg => find L seg = None) segs ->
  lazy_sub p R (join L segs) = join L segs <->
  Forall (fun seg => has_id hd seg = false) (removelast segs).
Proof.
  intros Hall. rewrite (lazy_mark_join _ _ _ R spec segs Hall). split.
  - intros E. apply filter_nil_forall.
    pose proof (mark_join_length (has_id hd) L R segs ltac:(lia)) as Hlen.
    rewrite E in Hlen.
    assert (Hd : 0 < length R - length L) by lia.
    destruct (length (filter (has_id hd) (removelast segs))); [reflexivity|].
    nia.
  - apply mark_join_none.
Qed.

Lemma lazy_length (x : text) : length x <= length (lazy_sub p R x).
Proof.
  destruct (cut_at L x (L_nonempty _ _ _ spec) L_apart) as (segs & Hx & Hall & _).
  rewrite Hx. rewrite (lazy_mark_join _ _ _ R spec segs Hall).
  rewrite (mark_join_length (has_id hd) L R segs ltac:(lia)).
  apply Nat.le_add_r.
Qed.

Lemma lazy_same_length (x : text) :
  length (lazy_sub p R x) = length x -> lazy_sub p R x = x.
Proof.
  destruct (cut_at L x (L_nonempty _ _ _ spec) L_apart) as (segs & Hx & Hall & _).
  intros Hlen. rewrite Hx. apply lazy_unchanged_iff; [assumption|].
  apply filter_nil_forall. rewrite Hx in Hlen.
  rewrite (lazy_mark_join _ _ _ R spec segs Hall) in Hlen.
  rewrite (mark_join_length (has_id hd) L R segs ltac:(lia)) in Hlen.
  assert (Hd : 0 < length R - length L) by lia.
  destruct (length (filter (has_id hd) (removelast segs))); [reflexivity|].
  nia.
Qed.

End Lazy_length.

(** ** An edit of text sizes makes no block of the three margins *)

Section Edit_no_match.

Variable p : pattern.
Variable len : text -> option nat.
Hypothesis spec : fixed_rule p len.

Variable redex : text -> Prop.
Variable Rm : text.

(** What is written starts nowhere in a match, and no match starts in what
    is written. *)
Hypothesis Rm_in_match :
  forall s n o, len s = Some n -> o < n -> strip Rm (skipn o s) = None.
Hypothesis match_in_Rm :
  forall o z, o < length Rm -> len (skipn o Rm ++ z) = None.

Lemma edit_no_match_here (x x' : text) :
  edit redex Rm x x' -> len x = None -> len x' = None.
Proof.
  intros He Hx. destruct (len x') as [n|] eqn:Hn; [exfalso|reflexivity].
  pose proof (fx_bound _ _ spec _ _ Hn) as Hb.
  destruct (edit_prefix _ _ _ _ He n) as [E|(j & r & Hj & Hr)].
  - assert (Hf : len (firstn n x') = Some n).
    { apply (fx_local _ _ spec _ (skipn n x')).
      - now rewrite firstn_skipn.
      - rewrite length_firstn. lia. }
    rewrite E in Hf. apply (fx_extend _ _ spec _ (skipn n x)) in Hf.
    rewrite firstn_skipn in Hf. congruence.
  - rewrite (Rm_in_match _ _ _ Hn Hj) in Hr. discriminate.
Qed.

Lemma edit_no_match (x x' : text) :
  edit redex Rm x x' ->
  (forall o, len (skipn o x) = None) ->
  forall o, len (skipn o x') = None.
Proof.
  induction 1 as [|c x x' Hx IH|l x x' Hl Hx IH]; intros H o.
  - exact (H o).
  - destruct o as [|o].
    + apply (edit_no_match_here (c :: x)); [now constructor|exact (H 0)].
    + apply IH. intros o'. exact (H (S o')).
  - destruct (Nat.lt_ge_cases o (length Rm)) as [Ho|Ho].
    + rewrite skipn_app_le by lia. now apply match_in_Rm.
    + replace o with (length Rm + (o - length Rm)) by lia.
      rewrite skipn_app_ge. apply IH. intros o'.
      specialize (H (length l + o')). now rewrite skipn_app_ge in H.
Qed.

End Edit_no_match.

(** A reference to a text size starts with [a] and overlaps none of the three
    margins. *)
Lemma size_edit_no_block (redex : text -> Prop) (y x x' : text) :
  apart (97%N :: y) margin_start_32 = true ->
  apart (97%N :: y) margin_end_32 = true ->
  apart (97%N :: y) margin_bottom_24 = true ->
  apart margin_start_32 (97%N :: y) = true ->
  edit redex (97%N :: y) x x' ->
  (forall o, margin_block_len (skipn o x) = None) ->
  forall o, margin_block_len (skipn o x') = None.
Proof.
  intros HS HE HB HSR. apply (edit_no_match _ _ rule5_fixed).
  - intros s n o Hs Ho. destruct o as [|o].
    + unfold margin_block_len, block_len in Hs.
      destruct (strip margin_start_32 s) as [r|] eqn:E; [|discriminate].
      apply (apart_strip (97%N :: y) margin_start_32 s 0 r);
        [assumption|assumption|simpl; lia].
    + apply (margin_block_clear 97%N y s n (S o)); try assumption;
        [reflexivity| |lia].
      simpl in HS. apply andb_prop in HS. apply HS.
  - intros o z Ho. unfold margin_block_len, block_len.
    now rewrite (clear_of_apart margin_start_32 (97%N :: y) HSR o z Ho).
Qed.

Lemma rule1_no_block (x : text) :
  (forall o, margin_block_len (skipn o x) = None) ->
  forall o, margin_block_len (skipn o (rule_text Rule1 x)) = None.
Proof.
  apply (size_edit_no_block (rule_redex Rule1) (tl cell_text_size));
    try reflexivity.
  apply (rule_edits Rule1).
Qed.

Lemma rule3_no_block (x : text) :
  (forall o, margin_block_len (skipn o x) = None) ->
  forall o, margin_block_len (skipn o (rule_text Rule3 x)) = None.
Proof.
  apply (size_edit_no_block (rule_redex Rule3) (tl free_text_size));
    try reflexivity.
  apply (rule_edits Rule3).
Qed.

Lemma rule4_no_block (x : text) :
  (forall o, margin_block_len (skipn o x) = None) ->
  forall o, margin_block_len (skipn o (rule_text Rule4 x)) = None.
Proof.
  apply (size_edit_no_block (rule_redex Rule4) (tl button_text_size));
    try reflexivity.
  apply (rule_edits Rule4).
Qed.

Lemma inert1_margin_2 : inert Rule1 margin_2.
Proof.
  apply (inert_literal Rule1 text_size_18);
    [intros l H; exact H|discriminate|reflexivity..].
Qed.

(** ** The second pass on the output of the first *)

(** On a text without [2dp] margin and without block, the transform is rules
    1, 3 and 4. *)
Lemma transform_on_output (x : text) :
  find margin_2 x = None ->
  (forall o, margin_block_len (skipn o x) = None) ->
  rule_text Rule5 (rule_text Rule4 (rule_text Rule3
    (rule_text Rule2 (rule_text Rule1 x)))) =
  rule_text Rule4 (rule_text Rule3 (rule_text Rule1 x)).
Proof.
  intros Hm Hb.
  rewrite (dormant_rule_text Rule2 (rule_text Rule1 x)).
  - rewrite rule5_text. apply (fixed_keep _ _ _ rule5_fixed).
    now apply rule4_no_block, rule3_no_block, rule1_no_block.
  - simpl. apply (rule_absent Rule1 _ x); [apply inert1_margin_2| |assumption].
    apply rule_edits.
Qed.

Lemma rule1_length (x : text) : length x <= length (rule_text Rule1 x).
Proof.
  rewrite rule1_text.
  apply (lazy_length _ _ _ _ rule1_lazy eq_refl). simpl. lia.
Qed.

Lemma rule3_length (x : text) : length x <= length (rule_text Rule3 x).
Proof.
  rewrite rule3_text.
  apply (lazy_length _ _ _ _ rule3_lazy eq_refl). simpl. lia.
Qed.

Lemma rule4_length (x : text) : length x <= length (rule_text Rule4 x).
Proof.
  rewrite rule4_text.
  apply (lazy_length _ _ _ _ rule4_lazy eq_refl). simpl. lia.
Qed.

(** The transform leaves such a text as it is exactly when rules 1, 3 and 4
    each do. *)
Lemma output_fixed_iff (x : text) :
  find margin_2 x = None ->
  (forall o, margin_block_len (skipn o x) = None) ->
  transform x = Ok x <->
  rule_text Rule1 x = x /\ rule_text Rule3 x = x /\ rule_text Rule4 x = x.
Proof.
  intros Hm Hb. rewrite transform_ok, (transform_on_output x Hm Hb). split.
  - intros E. injection E as E.
    pose proof (rule1_length x) as H1.
    pose proof (rule3_length (rule_text Rule1 x)) as H3.
    pose proof (rule4_length (rule_text Rule3 (rule_text Rule1 x))) as H4.
    rewrite E in H4.
    assert (E1 : rule_text Rule1 x = x).
    { rewrite rule1_text.
      apply (lazy_same_length _ _ _ _ rule1_lazy eq_refl); [simpl; lia|].
      rewrite <- rule1_text. lia. }
    rewrite E1 in *.
    assert (E3 : rule_text Rule3 x = x).
    { rewrite rule3_text.
      apply (lazy_same_length _ _ _ _ rule3_lazy eq_refl); [simpl; lia|].
      rewrite <- rule3_text. lia. }
    rewrite E3 in E. auto.
  - intros (E1 & E3 & E4). now rewrite E1, E3, E4.
Qed.

Lemma no_cell_id (seg : text) :
  has_id cell_id_len seg = false <->
  ~ exists a row col b,
      number row /\ number col /\ seg = a ++ cell_id row col ++ b.
Proof.
  rewrite <- has_cell_id. destruct (has_id cell_id_len seg); split.
  - discriminate.
  - intros H. exfalso. now apply H.
  - intros _. discriminate.
  - reflexivity.
Qed.

Lemma occurs_false (l x : text) : occurs l x = false <-> find l x = None.
Proof.
  unfold occurs. destruct (find l x); split; intros H;
    try reflexivity; discriminate.
Qed.

(** C4, as the code has it. The second pass is not always the identity, and
    it is exactly when nothing is left for rules 1, 3 and 4.  In the output
    of the first pass no [2dp] margin and no block of the three margins
    remains, whatever the input, but text sizes can: cut the output at its
    [18sp] text sizes and at its [16sp] text sizes; the second pass changes
    nothing if and only if no piece before an [18sp] text size holds a cell
    identifier, and no piece before a [16sp] text size holds the
    [cell_2_2] or the [actionButton] identifier. *)
Theorem transform_second_pass (content : text) :
  exists content' segs18 segs16,
    transform content = Ok content' /\
    find margin_2 content' = None /\
    (forall a w1 w2 b,
       blank w1 -> blank w2 -> content' <> a ++ margin_block w1 w2 ++ b) /\
    content' = join text_size_18 segs18 /\
    Forall (fun seg => find text_size_18 seg = None) segs18 /\
    content' = join text_size_16 segs16 /\
    Forall (fun seg => find text_size_16 seg = None) segs16 /\
    ((c <- transform content ;; transform c) = transform content <->
     Forall (fun seg =>
               ~ exists a row col b,
                   number row /\ number col /\
                   seg = a ++ cell_id row col ++ b)
       (removelast segs18) /\
     Forall (fun seg =>
               find cell_2_2 seg = None /\ find action_button seg = None)
       (removelast segs16)).
Proof.
  pose proof (transform_ok content) as Ht.
  remember (rule_text Rule5 (rule_text Rule4 (rule_text Rule3
              (rule_text Rule2 (rule_text Rule1 content))))) as c' eqn:Ec.
  assert (Hm : find margin_2 c' = None).
  { subst c'.
    apply (rule_absent Rule5 _ _ _ inert5_margin_2 (rule_edits Rule5 _)).
    apply (rule_absent Rule4 _ _ _ inert4_margin_2 (rule_edits Rule4 _)).
    apply (rule_absent Rule3 _ _ _ inert3_margin_2 (rule_edits Rule3 _)).
    apply rule2_no_margin. }
  assert (Hb : forall o, margin_block_len (skipn o c') = None)
    by (subst c'; apply rule5_stable).
  destruct (cut_at text_size_18 c' ltac:(discriminate) eq_refl)
    as (segs18 & H18 & Hall18 & _).
  destruct (cut_at text_size_16 c' ltac:(discriminate) eq_refl)
    as (segs16 & H16 & Hall16 & _).
  exists c', segs18, segs16.
  split; [assumption|]. split; [assumption|].
  split; [now apply no_block_in|]. repeat (split; [assumption|]).
  rewrite Ht. cbn [bind]. rewrite (output_fixed_iff c' Hm Hb).
  rewrite rule1_text, rule3_text, rule4_text.
  rewrite H18 at 1 2.
  rewrite (lazy_unchanged_iff _ _ _ cell_text_size rule1_lazy
             ltac:(simpl; lia) segs18 Hall18).
  rewrite H16 at 1 2 3 4.
  rewrite (lazy_unchanged_iff _ _ _ free_text_size rule3_lazy
             ltac:(simpl; lia) segs16 Hall16).
  rewrite (lazy_unchanged_iff _ _ _ button_text_size rule4_lazy
             ltac:(simpl; lia) segs16 Hall16).
  rewrite !Forall_forall. split.
  - intros (A & B & C). split.
    + intros seg Hin. apply no_cell_id. now apply A.
    + intros seg Hin. split; apply occurs_false; rewrite <- has_id_literal;
        [now apply B|now apply C].
  - intros (A & B). repeat split; intros seg Hin.
    + apply no_cell_id. now apply A.
    + rewrite has_id_literal. apply occurs_false. now apply B.
    + rewrite has_id_literal. apply occurs_false. now apply B.
Qed.

End Engine.

(** * Concrete runs

    The texts below are ASCII, so the Unicode database plays no part in what
    the rules do on them.  Where a database has to be named, it is the one
    with nothing above ASCII; the file is read and written as its code
    points. *)

Definition ascii_only (c : char) : bool := false.
Definition as_text (data : list N) : option text := Some data.
Definition as_data (t : text) : list N := t.

(** A cell with its text size written twice. *)
Definition twice_sized_cell : text :=
  cell_id (chars "0") (chars "0") ++ text_size_18 ++ text_size_18.

(** C4, counterexample. On a cell followed by two [18sp] text sizes the first
    pass replaces the first of them, and a second pass, run on that output,
    replaces the other: the second pass is not the identity on the output of
    the first. *)
Lemma second_pass_changes_output :
  (forall ud us,
     transform ud us twice_sized_cell =
       Ok (cell_id (chars "0") (chars "0") ++ cell_text_size ++ text_size_18) /\
     transform ud us
       (cell_id (chars "0") (chars "0") ++ cell_text_size ++ text_size_18) =
       Ok (cell_id (chars "0") (chars "0") ++ cell_text_size ++ cell_text_size))
  /\ cell_id (chars "0") (chars "0") ++ cell_text_size ++ text_size_18 <>
     cell_id (chars "0") (chars "0") ++ cell_text_size ++ cell_text_size.
Proof.
  split.
  - intros ud us. split; vm_compute; reflexivity.
  - vm_compute. discriminate.
Qed.

(** The three margins, twice. *)
Definition one_block : text := margin_block (chars " ") (chars " ").
Definition two_blocks : text := one_block ++ chars "|" ++ one_block.

(** C3, counterexample. Rule 5 replaces the second block as well as the
    first; and the first attribute of a replacement stands where its block
    began, here at the very start of the text and right after the bar, with
    no line or indentation of its own. *)
Lemma rule5_replaces_second_block :
  (forall ud us,
     apply_rule ud us Rule5 two_blocks =
       Ok (button_margins ++ chars "|" ++ button_margins))
  /\ button_margins ++ chars "|" ++ button_margins <>
     button_margins ++ chars "|" ++ one_block.
Proof.
  split.
  - intros ud us. vm_compute. reflexivity.
  - vm_compute. discriminate.
Qed.

(** The free cell with its text size, then the button with its own. *)
Definition cell_then_button : text :=
  cell_2_2 ++ chars " " ++ text_size_16 ++ chars " " ++ action_button
  ++ chars " " ++ text_size_16.

(** C8, counterexample. The button's [16sp] text size has no [cell_2_2]
    identifier between the free cell's text size and itself, and yet it is
    not in the output: rule 4 replaced it, starting from the [actionButton]
    identifier. *)
Lemma unrelated_text_size_replaced :
  (find cell_2_2 [] = None /\
   find text_size_16 (chars " ") = None /\
   find cell_2_2 (chars " " ++ action_button ++ chars " ") = None)
  /\ (forall ud us,
        transform ud us cell_then_button =
          Ok (cell_2_2 ++ chars " " ++ free_text_size ++ chars " "
              ++ action_button ++ chars " " ++ button_text_size))
  /\ find text_size_16
       (cell_2_2 ++ chars " " ++ free_text_size ++ chars " "
        ++ action_button ++ chars " " ++ button_text_size) = None.
Proof.
  split; [repeat split|split].
  - intros ud us. vm_compute. reflexivity.
  - vm_compute. reflexivity.
Qed.

(** ** The theorems at work *)

Lemma rule1_replaces_first_text_size_witness :
  exists pre' post',
    apply_rule ascii_only ascii_only Rule1 (chars "<TextView ") = Ok pre' /\
    apply_rule ascii_only ascii_only Rule1 (chars " />") = Ok post' /\
    apply_rule ascii_only ascii_only Rule1
      (chars "<TextView " ++ cell_id (chars "1") (chars "2")
       ++ chars " android:text=B " ++ text_size_18 ++ chars " />") =
    Ok (pre' ++ cell_id (chars "1") (chars "2") ++ chars " android:text=B "
        ++ cell_text_size ++ post').
Proof.
  apply (rule1_replaces_first_text_size ascii_only ascii_only).
  - split; [discriminate|reflexivity].
  - split; [discriminate|reflexivity].
  - reflexivity.
Defined.

Lemma rule5_replaces_every_block_witness :
  exists pre' post',
    apply_rule ascii_only ascii_only Rule5 (chars "<Button ") = Ok pre' /\
    apply_rule ascii_only ascii_only Rule5 (chars " />") = Ok post' /\
    apply_rule ascii_only ascii_only Rule5
      (chars "<Button " ++ margin_block [10%N; 32%N; 32%N] (chars " ")
       ++ chars " />") =
    Ok (pre'
        ++ attr "android:layout_marginStart" "@dimen/button_margin_horizontal"
        ++ [10%N] ++ repeat 32%N 8
        ++ attr "android:layout_marginEnd" "@dimen/button_margin_horizontal"
        ++ [10%N] ++ repeat 32%N 8
        ++ attr "android:layout_marginBottom" "@dimen/button_margin_bottom"
        ++ post').
Proof.
  apply (rule5_replaces_every_block ascii_only ascii_only).
  - split; [discriminate|reflexivity].
  - split; [discriminate|reflexivity].
Defined.

(** A cell with one text size and one margin: nothing is left for a second
    pass. *)
Definition plain_cell : text :=
  cell_id (chars "0") (chars "0") ++ chars " " ++ text_size_18 ++ chars " "
  ++ margin_2.

Lemma no_match_identity_witness :
  apply_rule ascii_only ascii_only Rule2 (chars "<TextView />") =
  Ok (chars "<TextView />").
Proof.
  apply (proj1 (no_match_identity ascii_only ascii_only Rule2
                  (chars "<TextView />"))).
  vm_compute. reflexivity.
Defined.

(** No file at the path. *)
Definition no_file : world := {| layout_file := None; stdout := [] |}.

Lemma failure_atomicity_witness :
  exists e,
    main ascii_only ascii_only as_text as_data no_file = (no_file, Raise e)
    /\ io_error e = true.
Proof.
  apply (proj1 (failure_atomicity ascii_only ascii_only as_text as_data no_file)).
  exact I.
Defined.

Lemma free_cell_scope_witness :
  exists pre' mid' gap' post',
    edited ascii_only (chars "<a ") pre' /\
    edited ascii_only (chars " ") mid' /\
    edited ascii_only (chars " /><b ") gap' /\
    find cell_2_2 pre' = None /\ find text_size_16 mid' = None /\
    find cell_2_2 gap' = None /\
    transform ascii_only ascii_only
      (chars "<a " ++ cell_2_2 ++ chars " " ++ text_size_16 ++ chars " /><b "
       ++ text_size_16 ++ chars " />") =
    Ok (pre' ++ cell_2_2 ++ mid' ++ free_text_size ++ gap' ++ text_size_16
        ++ post').
Proof.
  apply (proj2 (free_cell_scope ascii_only ascii_only (chars "<a ") (chars " ")
                  (chars " /><b ") (chars " />") eq_refl eq_refl eq_refl)).
  vm_compute. reflexivity.
Defined.

Lemma rule3_before_rule4_witness :
  exists pre' rest,
    edited ascii_only (action_button ++ chars " " ++ cell_2_2 ++ chars " ") pre' /\
    find text_size_16 pre' = None /\
    transform ascii_only ascii_only
      ((action_button ++ chars " " ++ cell_2_2 ++ chars " ") ++ text_size_16
       ++ chars " " ++ text_size_16) =
    Ok (pre' ++ free_text_size ++ rest).
Proof.
  apply (proj2 (rule3_before_rule4 ascii_only ascii_only
                  (action_button ++ chars " " ++ cell_2_2 ++ chars " ")
                  (chars " " ++ text_size_16) eq_refl
                  (ex_intro _ (action_button ++ chars " ")
                     (ex_intro _ (chars " ") eq_refl))
                  (ex_intro _ [] (ex_intro _ (chars " " ++ cell_2_2 ++ chars " ")
                                    eq_refl)))).
Defined.

(** Two worlds with the same file and different histories of output. *)
Definition layout : file :=
  {| f_data := plain_cell; f_readable := true; f_writable := true |}.
Definition fresh_world : world := {| layout_file := Some layout; stdout := [] |}.

(** * The Unicode database

    The rules consult the database through [\d] and [\s] only, and only at
    the characters of the text they are given. *)

Section Tables.

Variables ud us ud' us' : char -> bool.

(** The two databases say the same about the character [c]. *)
Definition same_class (c : char) : Prop :=
  is_digit ud c = is_digit ud' c /\ is_space us c = is_space us' c.

Lemma atom_ok_tables (a : atom) (c : char) :
  same_class c -> atom_ok ud us a c = atom_ok ud' us' a c.
Proof.
  intros [Hd Hs]. destruct a as [c'|k|items]; simpl.
  - reflexivity.
  - destruct k; assumption.
  - induction items as [|i items IH]; simpl; [reflexivity|].
    rewrite IH. f_equal. destruct i as [k|k]; destruct k; simpl; congruence.
Qed.

Lemma same_class_skipn (n : nat) (s : text) :
  Forall same_class s -> Forall same_class (skipn n s).
Proof.
  intros H. revert n. induction H as [|c s Hc Hs IH]; intros n.
  - destruct n; constructor.
  - destruct n as [|n]; simpl; [now constructor|apply IH].
Qed.

Lemma max_repeat_tables (k k' : cont) (a : atom) (s : text) :
  Forall same_class s ->
  (forall n pos, k (skipn n s) pos = k' (skipn n s) pos) ->
  forall lo pos,
    max_repeat ud us k a lo s pos = max_repeat ud' us' k' a lo s pos.
Proof.
  induction 1 as [|c s Hc Hs IH]; intros Hk lo pos.
  - destruct lo; simpl; [apply (Hk 0)|reflexivity].
  - assert (Hk' : forall n pos, k (skipn n s) pos = k' (skipn n s) pos)
      by (intros n pos'; apply (Hk (S n))).
    assert (H0 : forall pos, k (c :: s) pos = k' (c :: s) pos)
      by (intros pos'; apply (Hk 0)).
    destruct lo as [|lo]; cbn [max_repeat];
      rewrite (atom_ok_tables a c Hc); destruct (atom_ok ud' us' a c).
    + now rewrite (IH Hk'), H0.
    + apply H0.
    + now apply IH.
    + reflexivity.
Qed.

Lemma min_repeat_tables (k k' : cont) (a : atom) (s : text) :
  Forall same_class s ->
  (forall n pos, k (skipn n s) pos = k' (skipn n s) pos) ->
  forall lo pos,
    min_repeat ud us k a lo s pos = min_repeat ud' us' k' a lo s pos.
Proof.
  induction 1 as [|c s Hc Hs IH]; intros Hk lo pos.
  - destruct lo; simpl; [apply (Hk 0)|reflexivity].
  - assert (Hk' : forall n pos, k (skipn n s) pos = k' (skipn n s) pos)
      by (intros n pos'; apply (Hk (S n))).
    assert (H0 : forall pos, k (c :: s) pos = k' (c :: s) pos)
      by (intros pos'; apply (Hk 0)).
    destruct lo as [|lo]; cbn [min_repeat];
      rewrite (atom_ok_tables a c Hc).
    + now rewrite H0, (IH Hk').
    + destruct (atom_ok ud' us' a c); [now apply IH|reflexivity].
Qed.

Lemma run_tables (p : pattern) :
  forall adv mark g s pos,
    Forall same_class s ->
    run ud us adv p mark g s pos = run ud' us' adv p mark g s pos.
Proof.
  induction p as [|nd p IH]; intros adv mark g s pos Hs; [reflexivity|].
  destruct nd as [a|lo a|lo a| |]; cbn [run].
  - destruct Hs as [|c s Hc Hs]; [reflexivity|].
    rewrite (atom_ok_tables a c Hc). destruct (atom_ok ud' us' a c);
      [now apply IH|reflexivity].
  - apply max_repeat_tables; [assumption|].
    intros n pos'. apply IH. now apply same_class_skipn.
  - apply min_repeat_tables; [assumption|].
    intros n pos'. apply IH. now apply same_class_skipn.
  - now apply IH.
  - now apply IH.
Qed.

Lemma sub_loop_tables (p : pattern) (t : template) (s : text) :
  Forall same_class s ->
  forall skip, sub_loop ud us p t s skip = sub_loop ud' us' p t s skip.
Proof.
  induction 1 as [|c s Hc Hs IH]; intros skip.
  - destruct skip; [|reflexivity]. cbn [sub_loop]. unfold match_at.
    now rewrite (run_tables p false 0 None [] 0) by constructor.
  - assert (Hcs : Forall same_class (c :: s)) by (now constructor).
    destruct skip as [|n]; cbn [sub_loop]; [|apply IH].
    unfold match_at.
    rewrite (run_tables p false 0 None (c :: s) 0 Hcs).
    rewrite (run_tables p true 0 None (c :: s) 0 Hcs).
    destruct (run ud' us' false p 0 None (c :: s) 0) as [r|];
      [|now rewrite IH].
    f_equal. destruct (m_end r) as [|n]; [|apply IH].
    destruct (run ud' us' true p 0 None (c :: s) 0) as [r'|];
      now rewrite IH.
Qed.

Lemma edit_forall (P : char -> Prop) (redex : text -> Prop) (Rm x x' : text) :
  Forall P Rm -> edit redex Rm x x' -> Forall P x -> Forall P x'.
Proof.
  intros HR. induction 1 as [|c x x' Hx IH|l x x' Hl Hx IH]; intros H.
  - constructor.
  - inversion H; subst. constructor; auto.
  - apply Forall_app in H. apply Forall_app. split; [assumption|apply IH, H].
Qed.

Lemma same_class_ascii (t : text) :
  forallb (fun c => (c <? 128)%N) t = true -> Forall same_class t.
Proof.
  intros H. apply Forall_forall. intros c Hc.
  rewrite forallb_forall in H. specialize (H c Hc).
  unfold same_class, is_digit, is_space. now rewrite H.
Qed.

Lemma rule_text_tables (i : rule_id) (s : text) :
  Forall same_class s ->
  rule_text ud us i s = rule_text ud' us' i s /\
  Forall same_class (rule_text ud us i s).
Proof.
  intros H. split.
  - now apply sub_loop_tables.
  - apply (edit_forall _ _ _ _ _ (same_class_ascii (rule_literal i)
             ltac:(destruct i; reflexivity)) (rule_edits ud us i s) H).
Qed.

(** X15. Two interpreters whose Unicode databases say the same about every
    character of the text, on digits and on white space, give the same
    output: the transform of a text does not depend on entries of the
    database for characters the text does not have.  For a text in ASCII it
    does not depend on the database at all. *)
Theorem transform_reads_tables_at_text (content : text) :
  Forall same_class content ->
  transform ud us content = transform ud' us' content.
Proof.
  intros H0. rewrite !transform_ok. f_equal.
  destruct (rule_text_tables Rule1 _ H0) as [E1 H1]. rewrite <- E1.
  destruct (rule_text_tables Rule2 _ H1) as [E2 H2]. rewrite <- E2.
  destruct (rule_text_tables Rule3 _ H2) as [E3 H3]. rewrite <- E3.
  destruct (rule_text_tables Rule4 _ H3) as [E4 H4]. rewrite <- E4.
  destruct (rule_text_tables Rule5 _ H4) as [E5 _]. exact E5.
Qed.

(** The text layer of the script, the same in the two runs. *)
Variable decode : list N -> option text.
Variable encode : text -> list N.


End Tables.

(** ** The further properties at work *)

(** A header with a text size of its own, then two cells. *)
Definition header : text :=
  chars "<TextView " ++ text_size_18 ++ chars " /> ".

Definition two_cells : list cell :=
  [ {| c_row := chars "0"; c_col := chars "0";
       c_mid := chars " android:text=B "; c_rest := chars " /> " |};
    {| c_row := chars "0"; c_col := chars "1";
       c_mid := chars " "; c_rest := chars " />" |} ].

Lemma rule1_converts_grid_witness :
  apply_rule ascii_only ascii_only Rule1 (header ++ grid text_size_18 two_cells) =
  Ok (header ++ grid cell_text_size two_cells).
Proof.
  apply (rule1_converts_grid ascii_only ascii_only header two_cells).
  - reflexivity.
  - repeat constructor; discriminate.
Defined.

Lemma transform_keeps_foreign_tokens_witness :
  exists content',
    transform ascii_only ascii_only cell_then_button = Ok content' /\
    occurrences action_button content' = occurrences action_button cell_then_button.
Proof.
  apply (transform_keeps_foreign_tokens ascii_only ascii_only action_button
           cell_then_button).
  reflexivity.
Defined.

Lemma main_updates_file_witness :
  exists content',
    transform ascii_only ascii_only plain_cell = Ok content' /\
    main ascii_only ascii_only as_text as_data fresh_world =
    (updated as_data fresh_world layout content', Ok tt).
Proof.
  apply (main_updates_file ascii_only ascii_only as_text as_data fresh_world
           layout plain_cell); reflexivity.
Defined.

(** A layout in which the rules find nothing. *)
Definition converted : file :=
  {| f_data := chars "<TextView " ++ cell_text_size ++ chars " />";
     f_readable := true; f_writable := true |}.

Lemma main_keeps_converted_file_witness :
  main ascii_only ascii_only as_text as_data
    {| layout_file := Some converted; stdout := [] |} =
  ({| layout_file := Some converted; stdout := [confirmation] |}, Ok tt).
Proof.
  apply (main_keeps_converted_file ascii_only ascii_only as_text as_data
           {| layout_file := Some converted; stdout := [] |} converted
           (f_data converted)); try reflexivity.
  intros i. destruct i; simpl; auto.
Defined.

(** A database in which every character above ASCII is a digit and white
    space. *)
Definition all_in (c : char) : bool := true.

Lemma transform_reads_tables_at_text_witness :
  transform ascii_only ascii_only plain_cell = transform all_in all_in plain_cell.
Proof.
  apply (transform_reads_tables_at_text ascii_only ascii_only all_in all_in
           plain_cell).
  apply same_class_ascii. reflexivity.
Defined.

(** A layout with a header, a cell, the free cell and the button. *)
Definition small_layout : list item :=
  [ {| before := chars "<TextView " ++ chars "android:textSize=" ++ [dquote]
                 ++ chars "20sp" ++ [dquote] ++ chars " /> <TextView ";
       what := Cell (chars "0") (chars "1") |};
    {| before := chars " "; what := Margin_2 |};
    {| before := chars " android:text=B "; what := Size_18 |};
    {| before := chars " /> <TextView "; what := Cell (chars "2") (chars "2") |};
    {| before := chars " "; what := Margin_2 |};
    {| before := chars " android:text=FREE "; what := Size_16 |};
    {| before := chars " /> <Button "; what := Button |};
    {| before := [10%N; 32%N]; what := Block [10%N; 32%N] [10%N; 32%N] |};
    {| before := [10%N; 32%N]; what := Size_16 |} ].

Definition small_layout_converted : list item :=
  [ {| before := chars "<TextView " ++ chars "android:textSize=" ++ [dquote]
                 ++ chars "20sp" ++ [dquote] ++ chars " /> <TextView ";
       what := Cell (chars "0") (chars "1") |};
    {| before := chars " "; what := Ref Rule2 |};
    {| before := chars " android:text=B "; what := Ref Rule1 |};
    {| before := chars " /> <TextView "; what := Cell (chars "2") (chars "2") |};
    {| before := chars " "; what := Ref Rule2 |};
    {| before := chars " android:text=FREE "; what := Ref Rule3 |};
    {| before := chars " /> <Button "; what := Button |};
    {| before := [10%N; 32%N]; what := Ref Rule5 |};
    {| before := [10%N; 32%N]; what := Ref Rule4 |} ].

Lemma transform_by_tokens_witness :
  transform ascii_only ascii_only (document small_layout (chars " />")) =
  Ok (document small_layout_converted (chars " />")).
Proof.
  apply (transform_by_tokens ascii_only ascii_only small_layout (chars " />")).
  - repeat constructor; discriminate.
  - repeat constructor.
Defined.

Lemma main_second_run_witness :
  exists w1 content'',
    main ascii_only ascii_only as_text as_data fresh_world = (w1, Ok tt) /\
    transform ascii_only ascii_only
      (cell_id (chars "0") (chars "0") ++ chars " " ++ cell_text_size
       ++ chars " " ++ cell_margin) = Ok content'' /\
    ((forall i, dormant i
                  (cell_id (chars "0") (chars "0") ++ chars " " ++ cell_text_size
                   ++ chars " " ++ cell_margin)) ->
     content'' = cell_id (chars "0") (chars "0") ++ chars " " ++ cell_text_size
                 ++ chars " " ++ cell_margin) /\
    main ascii_only ascii_only as_text as_data w1 =
      ({| layout_file := Some {| f_data := as_data content'';
                                 f_readable := true; f_writable := true |};
          stdout := stdout fresh_world ++ [confirmation; confirmation] |}, Ok tt).
Proof.
  apply (main_second_run ascii_only ascii_only as_text as_data fresh_world
           layout plain_cell); reflexivity.
Defined.

(** ** The output under two Unicode databases *)






